(** * EPFImporter: a shallow embedding of [EPFParser.py] and [EPFIngester.py]

    The development follows the two source modules.

    - [Py]: the Python built-ins the source calls ([str.split],
      [str.partition], [str.strip], [int], slicing, ...), on strings of
      8-bit code units.  Feed text is handled at the level of its UTF-8
      code units: decoding [bytes] to [str] is the identity, and
      whitespace and the digits of integer literals are the ASCII ones;
      [str.isdigit] is taken on the code point of the character.
    - [EPFParser]: the stream, [Parser.__init__], [nextRowString],
      [advanceToNextRecord], [seekToRecord], [splitRow], [nextRecord],
      [nextRecords], [nextRecordDict].
    - [EPFIngester]: the job state, the relational store seen as
      statement-level primitives, and the ingest strategies.

    Exceptions are values of [exn]; a computation that may raise returns a
    [result]. *)

From Stdlib Require Import ZArith Lia Ascii String.
From stdpp Require Import base option list sorting gmap strings.

Open Scope string_scope.
Open Scope Z_scope.
Open Scope list_scope.

(** ** Exceptions and results *)

(** The three families of driver exceptions the source distinguishes
    ([MySQLdb.Warning]/[psycopg2.Warning], [MySQLdb.IntegrityError]/
    [psycopg2.IntegrityError], and every other [MySQLdb.Error]/
    [psycopg2.Error]). *)
Inductive DbErrorKind := DbWarning | DbIntegrityError | DbFatal.

Inductive exn :=
| SubstringNotFoundException (requiredPrefix rowString : string)
| AttributeError
| ValueError
| IndexError
| AssertionError
| OSError
| UnboundLocalError
| DeprecationWarning
| RecursionError
| DbException (k : DbErrorKind).

Inductive result (A : Type) :=
| Ok (a : A)
| Raise (e : exn).
Arguments Ok {A} a.
Arguments Raise {A} e.

#[global] Instance result_ret : MRet result := fun A a => Ok a.
#[global] Instance result_bind : MBind result := fun A B f m =>
  match m with
  | Ok a => f a
  | Raise e => Raise e
  end.

Definition is_Ok {A} (r : result A) : bool :=
  match r with Ok _ => true | Raise _ => false end.

(** ** Python built-ins *)

Module Py.

Definition truthy (s : string) : bool :=
  match s with "" => false | _ => true end.

Definition startswith (s p : string) : bool := String.prefix p s.

Fixpoint drop (n : nat) (s : string) : string :=
  match n, s with
  | O, _ => s
  | S k, String _ s' => drop k s'
  | S _, "" => ""
  end.

Fixpoint take (n : nat) (s : string) : string :=
  match n, s with
  | O, _ => ""
  | S k, String c s' => String c (take k s')
  | S _, "" => ""
  end.

Definition endswith (s suf : string) : bool :=
  let n := String.length s in
  let k := String.length suf in
  (k <=? n)%nat && String.eqb (drop (n - k) s) suf.

(** First occurrence of [sep] in [s]: the text before it and after it. *)
Fixpoint find_split (sep s : string) : option (string * string) :=
  if String.prefix sep s then Some ("", drop (String.length sep) s)
  else match s with
       | "" => None
       | String c s' =>
           match find_split sep s' with
           | Some (b, a) => Some (String c b, a)
           | None => None
           end
       end.

(** [s.find(sub) != -1] *)
Definition contains (s sub : string) : bool :=
  match find_split sub s with Some _ => true | None => false end.

(** [s.partition(sep)]; an empty separator is a [ValueError]. *)
Definition partition (s sep : string) : result (string * string * string) :=
  if truthy sep then
    Ok (match find_split sep s with
        | Some (b, a) => (b, sep, a)
        | None => (s, "", "")
        end)
  else Raise ValueError.

(** The scan of [s.split(sep)]: [skip] counts the characters of a matched
    separator still to be passed over, [cur] is the field being read. *)
Fixpoint split_go (sep s : string) (skip : nat) (cur : string) : list string :=
  match s with
  | "" => [cur]
  | String c s' =>
      match skip with
      | S k => split_go sep s' k cur
      | O =>
          if String.prefix sep s
          then cur :: split_go sep s' (String.length sep - 1) ""
          else split_go sep s' 0 (cur +:+ String c "")
      end
  end.

(** [s.split(sep)]; an empty separator is a [ValueError]. *)
Definition split (s sep : string) : result (list string) :=
  if truthy sep then Ok (split_go sep s 0 "") else Raise ValueError.

Fixpoint join (sep : string) (l : list string) : string :=
  match l with
  | [] => ""
  | [x] => x
  | x :: l' => x +:+ sep +:+ join sep l'
  end.

(** [s.replace(old, new)] for a non-empty [old]. *)
Definition replace (s old new : string) : string :=
  join new (split_go old s 0 "").

Definition isspace (c : ascii) : bool :=
  let n := nat_of_ascii c in
  ((9 <=? n) && (n <=? 13) || (28 <=? n) && (n <=? 32))%nat.

(** The ASCII digits: the class [0-9] of a regular expression and the
    digits of the integer literals read here. *)
Definition ascii_digit (c : ascii) : bool :=
  let n := nat_of_ascii c in ((48 <=? n) && (n <=? 57))%nat.

(** [ord(s[0])]: the code point of the first character of [s], read from
    its UTF-8 code units.  The text a parser handles was decoded by
    [str(.., 'utf-8')], so its sequences are well formed; [None] is for
    the empty string and for a sequence cut short. *)
Definition ord_head (s : string) : option N :=
  let byte c := N_of_ascii c in
  let cont c := (byte c - 128)%N in
  match s with
  | "" => None
  | String a r =>
      if (byte a <? 128)%N then Some (byte a)
      else if (byte a <? 192)%N then None
      else if (byte a <? 224)%N then
        match r with
        | String b _ => Some ((byte a - 192) * 64 + cont b)%N
        | _ => None
        end
      else if (byte a <? 240)%N then
        match r with
        | String b (String c _) =>
            Some ((byte a - 224) * 4096 + cont b * 64 + cont c)%N
        | _ => None
        end
      else if (byte a <? 248)%N then
        match r with
        | String b (String c (String d _)) =>
            Some ((byte a - 240) * 262144 + cont b * 4096 + cont c * 64 + cont d)%N
        | _ => None
        end
      else None
  end.

(** The code points [c] for which [chr(c).isdigit()] holds, as ranges:
    the characters of numeric type Decimal or Digit of the Unicode
    database of CPython 3.11 (Unicode 14.0). *)
Definition digit_ranges : list (N * N) :=
  [(48, 57); (178, 179); (185, 185); (1632, 1641); (1776, 1785);
   (1984, 1993); (2406, 2415); (2534, 2543); (2662, 2671); (2790, 2799);
   (2918, 2927); (3046, 3055); (3174, 3183); (3302, 3311); (3430, 3439);
   (3558, 3567); (3664, 3673); (3792, 3801); (3872, 3881); (4160, 4169);
   (4240, 4249); (4969, 4977); (6112, 6121); (6160, 6169); (6470, 6479);
   (6608, 6618); (6784, 6793); (6800, 6809); (6992, 7001); (7088, 7097);
   (7232, 7241); (7248, 7257); (8304, 8304); (8308, 8313); (8320, 8329);
   (9312, 9320); (9332, 9340); (9352, 9360); (9450, 9450); (9461, 9469);
   (9471, 9471); (10102, 10110); (10112, 10120); (10122, 10130);
   (42528, 42537); (43216, 43225); (43264, 43273); (43472, 43481);
   (43504, 43513); (43600, 43609); (44016, 44025); (65296, 65305);
   (66720, 66729); (68160, 68163); (68912, 68921); (69216, 69224);
   (69714, 69722); (69734, 69743); (69872, 69881); (69942, 69951);
   (70096, 70105); (70384, 70393); (70736, 70745); (70864, 70873);
   (71248, 71257); (71360, 71369); (71472, 71481); (71904, 71913);
   (72016, 72025); (72784, 72793); (73040, 73049); (73120, 73129);
   (92768, 92777); (92864, 92873); (93008, 93017); (120782, 120831);
   (123200, 123209); (123632, 123641); (125264, 125273); (127232, 127242);
   (130032, 130041)]%N.

(** Whether [str(s, 'utf-8')] returns: [s] is well-formed UTF-8 (no
    stray or missing continuation byte, no overlong form, no surrogate,
    nothing above U+10FFFF).  The call raises [UnicodeDecodeError]
    otherwise.  [need] continuation bytes are still due, the next of
    them between [lo] and [hi]. *)
Fixpoint utf8_go (need : nat) (lo hi : N) (s : string) : bool :=
  match s with
  | "" => match need with O => true | S _ => false end
  | String a r =>
      let b := N_of_ascii a in
      match need with
      | S k => (lo <=? b)%N && (b <=? hi)%N && utf8_go k 128 191 r
      | O =>
          if (b <? 128)%N then utf8_go 0 128 191 r
          else if (b <? 194)%N then false
          else if (b <? 224)%N then utf8_go 1 128 191 r
          else if (b =? 224)%N then utf8_go 2 160 191 r
          else if (b =? 237)%N then utf8_go 2 128 159 r
          else if (b <? 240)%N then utf8_go 2 128 191 r
          else if (b =? 240)%N then utf8_go 3 144 191 r
          else if (b <? 244)%N then utf8_go 3 128 191 r
          else if (b =? 244)%N then utf8_go 3 128 143 r
          else false
      end
  end.

Definition utf8_valid (s : string) : bool := utf8_go 0 128 191 s.

(** [chr(c).isdigit()] *)
Definition isdigit (c : N) : bool :=
  existsb (λ r, (r.1 <=? c)%N && (c <=? r.2)%N) digit_ranges.

(** [s[0].isdigit()] for a non-empty [s]. *)
Definition head_isdigit (s : string) : bool :=
  match ord_head s with
  | Some c => isdigit c
  | None => false
  end.

Fixpoint lstrip (s : string) : string :=
  match s with
  | "" => ""
  | String c s' => if isspace c then lstrip s' else s
  end.

Definition strip (s : string) : string :=
  String.rev (lstrip (String.rev (lstrip s))).

(** [s[i]] *)
Definition index (s : string) (i : nat) : result ascii :=
  match String.get i s with
  | Some c => Ok c
  | None => Raise IndexError
  end.

Definition digit_value (c : ascii) : Z := Z.of_nat (nat_of_ascii c) - 48.

(** The digits of an integer literal: digits, with single underscores
    allowed between two digits. *)
Fixpoint int_digits (s : string) (acc : Z) (after_digit : bool) : option Z :=
  match s with
  | "" => if after_digit then Some acc else None
  | String c s' =>
      if ascii_digit c then int_digits s' (10 * acc + digit_value c) true
      else if Ascii.eqb c "_" && after_digit then
        match s' with
        | String d _ => if ascii_digit d then int_digits s' acc false else None
        | "" => None
        end
      else None
  end.

(** [int(s)] on a string: surrounding whitespace, an optional sign, a
    decimal literal; anything else is a [ValueError]. *)
Definition int (s : string) : result Z :=
  let t := strip s in
  let '(neg, body) :=
    match t with
    | String "-" r => (true, r)
    | String "+" r => (false, r)
    | _ => (false, t)
    end in
  match int_digits body 0 false with
  | Some n => Ok (if neg then - n else n)
  | None => Raise ValueError
  end.

(** [re.compile(r'[^0-9.-]+').sub('', s)] *)
Definition is_number_char (c : ascii) : bool :=
  ascii_digit c || Ascii.eqb c "." || Ascii.eqb c "-".

Fixpoint sub_nonNumber (s : string) : string :=
  match s with
  | "" => ""
  | String c s' =>
      if is_number_char c then String c (sub_nonNumber s') else sub_nonNumber s'
  end.

(** [l.index(x)] *)
Fixpoint list_index (l : list string) (x : string) : result nat :=
  match l with
  | [] => Raise ValueError
  | y :: l' => if String.eqb y x then Ok O else n ← list_index l' x; Ok (S n)
  end.

(** The lines a file yields to successive [readline()] calls: each ends
    with its newline, except possibly the last. *)
Fixpoint readlines (s : string) : list string :=
  match s with
  | "" => []
  | String c s' =>
      if Ascii.eqb c "010" then String c "" :: readlines s'
      else match readlines s' with
           | [] => [String c ""]
           | l :: ls => String c l :: ls
           end
  end.

#[global] Arguments ascii_digit : simpl never.
#[global] Arguments isdigit : simpl never.
#[global] Arguments head_isdigit : simpl never.
#[global] Arguments isspace : simpl never.
#[global] Arguments is_number_char : simpl never.
#[global] Arguments startswith : simpl never.
#[global] Arguments endswith : simpl never.

End Py.

(** ** EPFParser.py *)

Module EPFParser.

Definition TAR_HEADER_SIZE : nat := 512.

Definition commentChar : string := "#".
Definition primaryKeyTag : string := "primaryKey:".
Definition dataTypesTag : string := "dbTypes:".
Definition exportModeTag : string := "exportMode:".

Definition numberTypes : list string := ["INTEGER"; "INT"; "BIGINT"; "TINYINT"].
Definition dateTypes : list string := ["DATE"; "DATETIME"; "TIME"; "TIMESTAMP"].

Definition str_in (x : string) (l : list string) : bool :=
  existsb (String.eqb x) l.

(** A decoded row: every field is a string or [None]. *)
Abbreviation Row := (list (option string)).

(** *** The stream [self.eFile]

    [raw] is everything the decompressor writes, [pending] the lines
    that [readline()] has not returned yet.  The source reads the
    standard output of a [bunzip2] child process; such a pipe refuses
    [tell()] and [seek()], a regular file accepts them: [seekable] says
    which of the two the stream is. *)
Record EFile := {
  raw : string;
  pending : list string;
  seekable : bool
}.

(** [Popen(...).stdout] followed by [read(TAR_HEADER_SIZE)]. *)
Definition open_stream (content : string) (can_seek : bool) : EFile :=
  {| raw := content;
     pending := Py.readlines (Py.drop TAR_HEADER_SIZE content);
     seekable := can_seek |}.

Definition set_pending (f : EFile) (ls : list string) : EFile :=
  {| raw := raw f; pending := ls; seekable := seekable f |}.

Definition pending_size (ls : list string) : nat :=
  foldr (fun l n => (String.length l + n)%nat) O ls.

Definition tell (f : EFile) : result nat :=
  if seekable f
  then Ok (String.length (raw f) - pending_size (pending f))%nat
  else Raise OSError.

Definition seek (f : EFile) (pos : nat) : result EFile :=
  if seekable f
  then Ok (set_pending f (Py.readlines (Py.drop pos (raw f))))
  else Raise OSError.

Definition first_byte_is (c : ascii) (ln : string) : bool :=
  match ln with
  | String c' _ => Ascii.eqb c' c
  | "" => false
  end.

(** The [while True] loop of [nextRowString]: the lines collected and
    the lines left. *)
Fixpoint nextRowString_loop (recordDelim : string) (ignoreComments isFirstLine : bool)
    (lst : list string) (ls : list string) : list string * list string :=
  match ls with
  | [] => (lst, [])
  | ln :: ls' =>
      if negb (Py.truthy ln) || first_byte_is "000" ln then (lst, ls')
      else if first_byte_is "#" ln && isFirstLine && ignoreComments
           then nextRowString_loop recordDelim ignoreComments isFirstLine lst ls'
      else if Py.endswith ln recordDelim then (lst ++ [ln], ls')
      else nextRowString_loop recordDelim ignoreComments false (lst ++ [ln]) ls'
  end.

Definition nextRowString (recordDelim : string) (ignoreComments : bool) (f : EFile)
    : option string * EFile :=
  let '(lst, ls') := nextRowString_loop recordDelim ignoreComments true [] (pending f) in
  (match lst with
   | [] => None
   | _ => Some (Py.join "" lst)
   end, set_pending f ls').

(** The loop of [advanceToNextRecord]: whether a record end was reached
    (and not the end of the file), and the lines left. *)
Fixpoint advance_loop (recordDelim : string) (ls : list string) : bool * list string :=
  match ls with
  | [] => (false, [])
  | ln :: ls' =>
      if negb (Py.truthy ln) then (false, ls')
      else if Py.startswith ln commentChar then advance_loop recordDelim ls'
      else if Py.contains ln recordDelim then (true, ls')
      else advance_loop recordDelim ls'
  end.

(** [splitRow], with [self.recordDelim] and [self.fieldDelim] passed
    explicitly. *)
Definition splitRow (recordDelim fieldDelim : string) (rowString : string)
    (requiredPrefix : option string) : result (list string) :=
  rowString' ←
    match requiredPrefix with
    | Some p =>
        if Py.truthy p then
          if negb (Py.startswith rowString p)
          then Raise (SubstringNotFoundException p rowString)
          else parts ← Py.partition rowString p; Ok (parts.2)
        else Ok rowString
    | None => Ok rowString
    end;
  parts ← Py.partition rowString' recordDelim;
  Py.split (parts.1.1) fieldDelim.

(** *** The parser object *)
Record Parser := {
  dataTypeMap : gmap string string;
  columnNames : list string;
  primaryKey : list string;
  primaryKeyIndexes : list nat;
  dataTypes : list string;
  exportMode : option string;
  dateColumns : list nat;
  numberColumns : list nat;
  typeMap : gmap string string;
  recordsExpected : Z;
  latestRecordNum : Z;
  recordDelim : string;
  fieldDelim : string;
  eFile : EFile;
  fileSize : Z
}.

Definition set_eFile (p : Parser) (f : EFile) : Parser :=
  {| dataTypeMap := dataTypeMap p; columnNames := columnNames p;
     primaryKey := primaryKey p; primaryKeyIndexes := primaryKeyIndexes p;
     dataTypes := dataTypes p; exportMode := exportMode p;
     dateColumns := dateColumns p; numberColumns := numberColumns p;
     typeMap := typeMap p; recordsExpected := recordsExpected p;
     latestRecordNum := latestRecordNum p; recordDelim := recordDelim p;
     fieldDelim := fieldDelim p; eFile := f; fileSize := fileSize p |}.

Definition set_latestRecordNum (p : Parser) (n : Z) : Parser :=
  {| dataTypeMap := dataTypeMap p; columnNames := columnNames p;
     primaryKey := primaryKey p; primaryKeyIndexes := primaryKeyIndexes p;
     dataTypes := dataTypes p; exportMode := exportMode p;
     dateColumns := dateColumns p; numberColumns := numberColumns p;
     typeMap := typeMap p; recordsExpected := recordsExpected p;
     latestRecordNum := n; recordDelim := recordDelim p;
     fieldDelim := fieldDelim p; eFile := eFile p; fileSize := fileSize p |}.

Definition set_columnNames (p : Parser) (cs : list string) : Parser :=
  {| dataTypeMap := dataTypeMap p; columnNames := cs;
     primaryKey := primaryKey p; primaryKeyIndexes := primaryKeyIndexes p;
     dataTypes := dataTypes p; exportMode := exportMode p;
     dateColumns := dateColumns p; numberColumns := numberColumns p;
     typeMap := typeMap p; recordsExpected := recordsExpected p;
     latestRecordNum := latestRecordNum p; recordDelim := recordDelim p;
     fieldDelim := fieldDelim p; eFile := eFile p; fileSize := fileSize p |}.

(** *** Header extraction *)

(** [fixupDataTypes]: the new type of one column. *)
Definition fixup_one (column dbType : string) : string :=
  if String.eqb column "export_date" then "BIGINT"
  else if Py.endswith column "_date" then "DATETIME"
  else if Py.endswith column "_id" && negb (str_in dbType ["INTEGER"; "BIGINT"])
       then "BIGINT"
  else if Py.startswith column "is_" then "BOOLEAN"
  else dbType.

(** [fixupDataTypes] walks [zip(columnNames, dataTypes)]; declared
    types beyond the last column name are left as they are. *)
Fixpoint fixupDataTypes (cols dts : list string) : list string :=
  match cols, dts with
  | c :: cs, d :: ds => fixup_one c d :: fixupDataTypes cs ds
  | _, _ => dts
  end.

(** The ten [nextRowString(ignoreComments=False)] calls after the
    column-name row; rows that are [None] are dropped from [firstRows]. *)
Fixpoint grabRows (n : nat) (recordDelim : string) (f : EFile) (firstRows : list string)
    : list string * EFile :=
  match n with
  | O => (firstRows, f)
  | S k =>
      let '(r, f') := nextRowString recordDelim false f in
      grabRows k recordDelim f'
        (firstRows ++ match r with
                      | Some aRow => if Py.truthy aRow then [aRow] else []
                      | None => []
                      end)
  end.

(** The header values found so far: [primaryKey], [dataTypes],
    [exportMode]. *)
Definition Header : Type := list string * list string * option string.

Definition primStart : string := commentChar +:+ primaryKeyTag.
Definition dtStart : string := commentChar +:+ dataTypesTag.
Definition exStart : string := commentChar +:+ exportModeTag.

Definition headerRow (recordDelim fieldDelim : string) (h : Header) (aRow : string)
    : result Header :=
  let '(pk, dts, ex) := h in
  if Py.startswith aRow primStart then
    pk' ← splitRow recordDelim fieldDelim aRow (Some primStart);
    Ok (if bool_decide (pk' = [""]) then [] else pk', dts, ex)
  else if Py.startswith aRow dtStart then
    dts' ← splitRow recordDelim fieldDelim aRow (Some dtStart);
    Ok (pk, (λ dt, if String.eqb dt "DECIMAL(9,3)" then "DECIMAL(11,3)" else dt) <$> (dts' : list string), ex)
  else if Py.startswith aRow exStart then
    l ← splitRow recordDelim fieldDelim aRow (Some exStart);
    match (l : list string) with
    | x :: _ => Ok (pk, dts, Some x)
    | [] => Raise IndexError
    end
  else Ok h.

Fixpoint headerRows (recordDelim fieldDelim : string) (h : Header) (rows : list string)
    : result Header :=
  match rows with
  | [] => Ok h
  | aRow :: rows' =>
      h' ← headerRow recordDelim fieldDelim h aRow;
      headerRows recordDelim fieldDelim h' rows'
  end.

Fixpoint indexes_of (cols : list string) (pks : list string) : result (list nat) :=
  match pks with
  | [] => Ok []
  | pk :: pks' =>
      i ← Py.list_index cols pk;
      rest ← indexes_of cols pks';
      Ok (i :: rest)
  end.

(** The indexes [j >= from] of the types that belong to [kinds]. *)
Fixpoint columns_of_kind (kinds : list string) (from : nat) (dts : list string) : list nat :=
  match dts with
  | [] => []
  | d :: ds =>
      (if str_in d kinds then [from] else []) ++ columns_of_kind kinds (S from) ds
  end.

Definition mapType (m : gmap string string) (dType : string) : string :=
  match m !! dType with
  | Some t => t
  | None => dType
  end.

(** [Parser.__init__].  [content] is the decompressed stream,
    [size] is [os.path.getsize(filePath)]. *)
Definition init (content : string) (can_seek : bool) (size : Z)
    (types : gmap string string) (rDelim fDelim : string) : result Parser :=
  let f0 := open_stream content can_seek in
  let expected := if size <? 100000000 then 499999 else 500001 in
  let '(line1, f1) := nextRowString rDelim false f0 in
  cols ← match line1 with
         | Some l => splitRow rDelim fDelim l (Some commentChar)
         | None => Raise AttributeError
         end;
  let '(firstRows, f2) := grabRows 10 rDelim f1 [] in
  h ← headerRows rDelim fDelim ([], [], None) firstRows;
  let '(pk, dts, ex) := h in
  let dts1 := fixupDataTypes cols dts in
  pkIdx ← indexes_of cols pk;
  let dts2 := mapType types <$> dts1 in
  Ok {| dataTypeMap := types; columnNames := cols; primaryKey := pk;
        primaryKeyIndexes := pkIdx; dataTypes := dts2; exportMode := ex;
        dateColumns := columns_of_kind dateTypes 0 dts1;
        numberColumns := columns_of_kind numberTypes 0 dts1;
        typeMap := foldl (λ m kv, <[kv.1 := kv.2]> m) ∅ (zip cols dts2);
        recordsExpected := expected; latestRecordNum := 0;
        recordDelim := rDelim; fieldDelim := fDelim; eFile := f2;
        fileSize := size |}.

(** *** Positioning *)

Definition getSeekPos (p : Parser) : result nat := tell (eFile p).

Definition setSeekPos (p : Parser) (pos : nat) : result Parser :=
  f ← seek (eFile p) pos; Ok (set_eFile p f).

Definition advanceToNextRecord (p : Parser) : Parser :=
  let '(found, ls') := advance_loop (recordDelim p) (pending (eFile p)) in
  let p' := set_eFile p (set_pending (eFile p) ls') in
  if found then set_latestRecordNum p' (latestRecordNum p' + 1) else p'.

Definition seekToRecord (p : Parser) (recordNum : Z) : result Parser :=
  if recordNum <=? 0 then Ok p
  else
    pos ← getSeekPos p;
    p1 ← (if bool_decide (pos ≠ TAR_HEADER_SIZE) then setSeekPos p TAR_HEADER_SIZE else Ok p);
    Ok (Nat.iter (Z.to_nat recordNum) advanceToNextRecord (set_latestRecordNum p1 0)).

(** *** Decoding a record *)

(** Empty strings become [None], except in primary-key columns. *)
Definition null_empty (pkIdx : list nat) (rec : list string) : Row :=
  imap (λ i val, if String.eqb val "" && negb (bool_decide (i ∈ pkIdx))
                 then None else Some val) rec.

Definition in_space_dash (c : ascii) : bool :=
  Ascii.eqb c " " || Ascii.eqb c "-".

(** The date clean-up of one non-empty value; [year] is
    [datetime.date.today().year]. *)
Definition massage_date (year : Z) (v0 : string) : result string :=
  let v := Py.strip v0 in
  v1 ← (if (3 <? String.length v)%nat then
          c2 ← Py.index v 2;
          if in_space_dash c2 then
            let v' := "20" +:+ v in
            n ← Py.int (Py.take 4 v');
            Ok (if year <? n then "19" +:+ Py.drop 2 v' else v')
          else
            c1 ← Py.index v 1;
            if in_space_dash c1 then
              let v' := "200" +:+ v in
              n ← Py.int (Py.take 4 v');
              Ok (if year <? n then "199" +:+ Py.drop 3 v' else v')
            else Ok v
        else Ok v);
  let v2 := Py.replace (Py.take 19 v1) "-" " " in
  Ok (if (String.length v2 =? 4)%nat then v2 +:+ "-01-01" else v2).

(** [for j in self.dateColumns: ...] *)
Fixpoint massage_dates (year : Z) (cols : list nat) (rec : Row) : result Row :=
  match cols with
  | [] => Ok rec
  | j :: cols' =>
      match rec !! j with
      | None => Raise IndexError
      | Some (Some s) =>
          if Py.truthy s then
            s' ← massage_date year s;
            massage_dates year cols' (<[j := Some s']> rec)
          else massage_dates year cols' rec
      | Some None => massage_dates year cols' rec
      end
  end.

(** [for j in self.numberColumns: ...]; [Ok None] when the record is to
    be skipped. *)
Fixpoint massage_numbers (cols : list nat) (rec : Row) : result (option Row) :=
  match cols with
  | [] => Ok (Some rec)
  | j :: cols' =>
      match rec !! j with
      | None => Raise IndexError
      | Some (Some (String _ _ as s)) =>
          if negb (Py.head_isdigit s) then
            let s' := Py.sub_nonNumber s in
            if String.eqb s' "" then Ok None
            else massage_numbers cols' (<[j := Some s']> rec)
          else massage_numbers cols' rec
      | Some _ => massage_numbers cols' rec
      end
  end.

(** The body of [nextRecord] once a row string was read: [Ok None] when
    the record is malformed and skipped. *)
Definition decode (year : Z) (p : Parser) (rowString : string) : result (option Row) :=
  rec ← splitRow (recordDelim p) (fieldDelim p) rowString None;
  let rec1 := take (length (columnNames p)) rec in
  let rec2 := null_empty (primaryKeyIndexes p) rec1 in
  rec3 ← massage_dates year (dateColumns p) rec2;
  massage_numbers (numberColumns p) rec3.

(** [nextRecord]: the recursive call after a skipped record spends one
    unit of [fuel]; [None] only when the fuel runs out. *)
Fixpoint nextRecord_fuel (fuel : nat) (year : Z) (p : Parser)
    : option (result (option Row) * Parser) :=
  match fuel with
  | O => None
  | S fuel' =>
      let '(rowString, f') := nextRowString (recordDelim p) true (eFile p) in
      let p1 := set_eFile p f' in
      match rowString with
      | Some rs =>
          if Py.truthy rs then
            let p2 := set_latestRecordNum p1 (latestRecordNum p1 + 1) in
            match decode year p2 rs with
            | Raise e => Some (Raise e, p2)
            | Ok (Some rec) => Some (Ok (Some rec), p2)
            | Ok None => nextRecord_fuel fuel' year p2
            end
          else Some (Ok None, p1)
      | None => Some (Ok None, p1)
      end
  end.

(** Every recursive call has read at least one line, so one unit of
    fuel per pending line (and one more) is enough: see
    [nextRecord_fuel_enough]. *)
Definition nextRecord (year : Z) (p : Parser) : result (option Row) * Parser :=
  match nextRecord_fuel (S (length (pending (eFile p)))) year p with
  | Some r => r
  | None => (Ok None, p)
  end.

(** [nextRecord] under the recursion limit of the interpreter: [depth]
    is the number of nested calls the stack still admits when the call
    is made.  Every skipped record nests one call; the call that the
    stack does not admit raises [RecursionError], with the skipped
    record read and counted.  [nextRecord] above is the same function on
    a stack that is deep enough for the stream: see
    [nextRecord_depth_enough]. *)
Fixpoint nextRecord_depth (depth : nat) (year : Z) (p : Parser)
    : result (option Row) * Parser :=
  let '(rowString, f') := nextRowString (recordDelim p) true (eFile p) in
  let p1 := set_eFile p f' in
  match rowString with
  | Some rs =>
      if Py.truthy rs then
        let p2 := set_latestRecordNum p1 (latestRecordNum p1 + 1) in
        match decode year p2 rs with
        | Raise e => (Raise e, p2)
        | Ok (Some rec) => (Ok (Some rec), p2)
        | Ok None =>
            match depth with
            | O => (Raise RecursionError, p2)
            | S depth' => nextRecord_depth depth' year p2
            end
        end
      else (Ok None, p1)
  | None => (Ok None, p1)
  end.

(** [nextRecords]: [records] is the list built so far. *)
Fixpoint nextRecords_loop (maxNum : nat) (year : Z) (p : Parser) (records : list Row)
    : result (list Row) * Parser :=
  match maxNum with
  | O => (Ok records, p)
  | S k =>
      match nextRecord year p with
      | (Raise e, p') => (Raise e, p')
      | (Ok None, p') => (Ok records, p')
      | (Ok (Some []), p') => (Ok records, p')
      | (Ok (Some lst), p') => nextRecords_loop k year p' (records ++ [lst])
      end
  end.

Definition nextRecords (maxNum : nat) (year : Z) (p : Parser)
    : result (list Row) * Parser :=
  nextRecords_loop maxNum year p [].

(** [nextRecordDict]: [dict(zip(self.columnNames, vals))], or [None]
    when [nextRecord] returns nothing or an empty record. *)
Definition nextRecordDict (year : Z) (p : Parser)
    : result (option (gmap string (option string))) * Parser :=
  match nextRecord year p with
  | (Raise e, p') => (Raise e, p')
  | (Ok None, p') => (Ok None, p')
  | (Ok (Some []), p') => (Ok None, p')
  | (Ok (Some vals), p') =>
      (Ok (Some (foldl (λ m kv, <[kv.1 := kv.2]> m) ∅ (zip (columnNames p') vals))), p')
  end.

End EPFParser.

(** ** EPFIngester.py *)

Module EPFIngester.
Import EPFParser.

(** *** The relational store

    The store is seen through statement-level primitives.  A table is
    kept as the history of the statements that built it, so that two
    tables are equal exactly when they were built the same way. *)

(** One bulk [INSERT]/[REPLACE]: the command, the [IGNORE] flag, the
    column names, the escaped rows and the [ON CONFLICT (..) DO NOTHING]
    columns. *)
Record Bulk := {
  command : string;
  ignore : bool;
  colNames : list string;
  values : list (list string);
  conflict : option (list string)
}.

Inductive Table :=
| NewTable (cols : list (string * string))
| Constrained (t : Table) (pk : list string)
| Loaded (t : Table) (b : Bulk)
| Indexed (t : Table) (expr : string)
| UnionAll (inc live : Table) (pk : list string).

Fixpoint table_columns (t : Table) : nat :=
  match t with
  | NewTable cols => length cols
  | Constrained t' _ => table_columns t'
  | Loaded t' _ => table_columns t'
  | Indexed t' _ => table_columns t'
  | UnionAll inc _ _ => table_columns inc
  end.

Inductive Stmt :=
| DropTableIfExists (t : string)
| CreateTable (t : string) (cols : list (string * string))
| AddPrimaryKey (t : string) (pk : list string)
| BulkWrite (t : string) (b : Bulk)
| RenameTable (a b : string)
| RenameIndex (a b : string)
| CreateUnionTable (un inc live : string) (pk : list string)
| CreateIndex (t : string) (expr : string)
| Analyze (t : string)
| SelectTableExists (db t : string)
| ShowColumns (t : string)
| SelectColumns (t : string).

(** What the store does on a backend call when nothing else is wrong
    with it: go on, or raise a driver exception. *)
Inductive Fault := NoFault | Fail (k : DbErrorKind).

Inductive LogLevel := INFO | WARNING | ERROR.

(** The world outside the process: the tables, the faults the store
    will answer the coming backend calls with (none once the script is
    used up), a logical clock for [datetime.datetime.now()], the current
    year, the statements submitted so far and the log. *)
Record World := {
  tables : gmap string Table;
  faults : list Fault;
  clock : Z;
  today_year : Z;
  submitted : list Stmt;
  logged : list (LogLevel * string)
}.

Definition set_tables (w : World) (ts : gmap string Table) : World :=
  {| tables := ts; faults := faults w; clock := clock w;
     today_year := today_year w; submitted := submitted w; logged := logged w |}.
Definition set_faults (w : World) (fs : list Fault) : World :=
  {| tables := tables w; faults := fs; clock := clock w;
     today_year := today_year w; submitted := submitted w; logged := logged w |}.
Definition set_clock (w : World) (c : Z) : World :=
  {| tables := tables w; faults := faults w; clock := c;
     today_year := today_year w; submitted := submitted w; logged := logged w |}.
Definition set_submitted (w : World) (ss : list Stmt) : World :=
  {| tables := tables w; faults := faults w; clock := clock w;
     today_year := today_year w; submitted := ss; logged := logged w |}.
Definition set_logged (w : World) (ls : list (LogLevel * string)) : World :=
  {| tables := tables w; faults := faults w; clock := clock w;
     today_year := today_year w; submitted := submitted w; logged := ls |}.

Inductive Answer := NoAnswer | Count (n : nat).

(** The effect of a statement the store accepts. *)
Definition run_stmt (s : Stmt) (ts : gmap string Table) : result (Answer * gmap string Table) :=
  match s with
  | DropTableIfExists t => Ok (NoAnswer, delete t ts)
  | CreateTable t cols =>
      match ts !! t with
      | Some _ => Raise (DbException DbFatal)
      | None => Ok (NoAnswer, <[t := NewTable cols]> ts)
      end
  | AddPrimaryKey t pk =>
      match ts !! t with
      | Some tb => Ok (NoAnswer, <[t := Constrained tb pk]> ts)
      | None => Raise (DbException DbFatal)
      end
  | BulkWrite t b =>
      match ts !! t with
      | Some tb => Ok (NoAnswer, <[t := Loaded tb b]> ts)
      | None => Raise (DbException DbFatal)
      end
  | RenameTable a b =>
      match ts !! a, ts !! b with
      | Some tb, None => Ok (NoAnswer, <[b := tb]> (delete a ts))
      | _, _ => Raise (DbException DbFatal)
      end
  | RenameIndex _ _ => Ok (NoAnswer, ts)
  | CreateUnionTable un inc live pk =>
      match ts !! un, ts !! inc, ts !! live with
      | None, Some ti, Some tl => Ok (NoAnswer, <[un := UnionAll ti tl pk]> ts)
      | _, _, _ => Raise (DbException DbFatal)
      end
  | CreateIndex t expr =>
      match ts !! t with
      | Some tb => Ok (NoAnswer, <[t := Indexed tb expr]> ts)
      | None => Raise (DbException DbFatal)
      end
  | Analyze t =>
      match ts !! t with
      | Some _ => Ok (NoAnswer, ts)
      | None => Raise (DbException DbFatal)
      end
  | SelectTableExists _ t =>
      Ok (Count (match ts !! t with Some _ => 1 | None => 0 end), ts)
  | ShowColumns t =>
      match ts !! t with
      | Some tb => Ok (Count (table_columns tb), ts)
      | None => Raise (DbException DbFatal)
      end
  | SelectColumns t =>
      Ok (Count (match ts !! t with Some tb => table_columns tb | None => 0 end), ts)
  end.

(** *** The ingester object *)

Inductive StatusVal :=
| SNone
| SStr (s : string)
| SInt (n : Z)
| STime (t : Z)
| SBool (b : bool).

(** The attributes [__init__] sets once. *)
Record Names := {
  filePath : string;
  fileName : string;
  tableName : string;
  tmpTableName : string;
  incTableName : string;
  unionTableName : string;
  tableSchema : option string;
  dbName : string;
  dbType : string;
  isPostgresql : bool;
  isMysql : bool
}.

Record Ingester := {
  names : Names;
  lastRecordIngested : Z;
  parser : Parser;
  startTime : option Z;
  endTime : option Z;
  abortTime : option Z;
  didAbort : bool;
  statusDict : gmap string StatusVal;
  lastRecordCheck : Z;
  lastTimeCheck : Z
}.

Definition set_lastRecordIngested (g : Ingester) (n : Z) : Ingester :=
  {| names := names g; lastRecordIngested := n; parser := parser g;
     startTime := startTime g; endTime := endTime g; abortTime := abortTime g;
     didAbort := didAbort g; statusDict := statusDict g;
     lastRecordCheck := lastRecordCheck g; lastTimeCheck := lastTimeCheck g |}.
Definition set_parser (g : Ingester) (p : Parser) : Ingester :=
  {| names := names g; lastRecordIngested := lastRecordIngested g; parser := p;
     startTime := startTime g; endTime := endTime g; abortTime := abortTime g;
     didAbort := didAbort g; statusDict := statusDict g;
     lastRecordCheck := lastRecordCheck g; lastTimeCheck := lastTimeCheck g |}.
Definition set_startTime (g : Ingester) (t : option Z) : Ingester :=
  {| names := names g; lastRecordIngested := lastRecordIngested g; parser := parser g;
     startTime := t; endTime := endTime g; abortTime := abortTime g;
     didAbort := didAbort g; statusDict := statusDict g;
     lastRecordCheck := lastRecordCheck g; lastTimeCheck := lastTimeCheck g |}.
Definition set_endTime (g : Ingester) (t : option Z) : Ingester :=
  {| names := names g; lastRecordIngested := lastRecordIngested g; parser := parser g;
     startTime := startTime g; endTime := t; abortTime := abortTime g;
     didAbort := didAbort g; statusDict := statusDict g;
     lastRecordCheck := lastRecordCheck g; lastTimeCheck := lastTimeCheck g |}.
Definition set_abortTime (g : Ingester) (t : option Z) : Ingester :=
  {| names := names g; lastRecordIngested := lastRecordIngested g; parser := parser g;
     startTime := startTime g; endTime := endTime g; abortTime := t;
     didAbort := didAbort g; statusDict := statusDict g;
     lastRecordCheck := lastRecordCheck g; lastTimeCheck := lastTimeCheck g |}.
Definition set_didAbort (g : Ingester) (b : bool) : Ingester :=
  {| names := names g; lastRecordIngested := lastRecordIngested g; parser := parser g;
     startTime := startTime g; endTime := endTime g; abortTime := abortTime g;
     didAbort := b; statusDict := statusDict g;
     lastRecordCheck := lastRecordCheck g; lastTimeCheck := lastTimeCheck g |}.
Definition set_statusDict (g : Ingester) (d : gmap string StatusVal) : Ingester :=
  {| names := names g; lastRecordIngested := lastRecordIngested g; parser := parser g;
     startTime := startTime g; endTime := endTime g; abortTime := abortTime g;
     didAbort := didAbort g; statusDict := d;
     lastRecordCheck := lastRecordCheck g; lastTimeCheck := lastTimeCheck g |}.
Definition set_progress (g : Ingester) (n t : Z) : Ingester :=
  {| names := names g; lastRecordIngested := lastRecordIngested g; parser := parser g;
     startTime := startTime g; endTime := endTime g; abortTime := abortTime g;
     didAbort := didAbort g; statusDict := statusDict g;
     lastRecordCheck := n; lastTimeCheck := t |}.

(** *** Computations over the ingester and the world

    A method is a function of the state [(self, world)] to an outcome
    and a state: what a method did before it raised stays done. *)
Definition St : Type := Ingester * World.
Definition M (A : Type) : Type := St → result A * St.

Definition ret {A} (a : A) : M A := λ st, (Ok a, st).
Definition raise {A} (e : exn) : M A := λ st, (Raise e, st).
Definition bind {A B} (m : M A) (k : A → M B) : M B :=
  λ st, match m st with
        | (Ok a, st') => k a st'
        | (Raise e, st') => (Raise e, st')
        end.
(** [try: m except <the exceptions h handles>: h e] *)
Definition try_except {A} (m : M A) (h : exn → option (M A)) : M A :=
  λ st, match m st with
        | (Ok a, st') => (Ok a, st')
        | (Raise e, st') =>
            match h e with
            | Some k => k st'
            | None => (Raise e, st')
            end
        end.

Declare Scope ingest_scope.
Delimit Scope ingest_scope with M.
Notation "x <- m ;; k" := (bind m (λ x, k))
  (at level 100, m at next level, right associativity) : ingest_scope.
Notation "m ;; k" := (bind m (λ _, k))
  (at level 100, right associativity) : ingest_scope.
Open Scope ingest_scope.

Definition self : M Ingester := λ st, (Ok st.1, st).
Definition update (f : Ingester → Ingester) : M unit := λ st, (Ok tt, (f st.1, st.2)).
Definition world : M World := λ st, (Ok st.2, st).
Definition update_world (f : World → World) : M unit := λ st, (Ok tt, (st.1, f st.2)).

Definition log (l : LogLevel) (msg : string) : M unit :=
  update_world (λ w, set_logged w (logged w ++ [(l, msg)])).

(** [LOGGER.warn(...)].  [Logger.warn] is the deprecated spelling of
    [Logger.warning]: before it logs anything it issues a
    [DeprecationWarning], and the class body of [Ingester] has run
    [warnings.filterwarnings('error')], which turns every warning into
    an exception.  The call therefore raises and logs nothing.  (The
    other log calls of the source use [LOGGER.warning], [LOGGER.info]
    and [LOGGER.error], which issue no warning: see [log].) *)
Definition warn (msg : string) : M unit := raise DeprecationWarning.

(** [datetime.datetime.now()] *)
Definition now : M Z :=
  w <- world;; update_world (λ w, set_clock w (clock w + 1));; ret (clock w).

(** Every call into the driver uses up the next scripted fault. *)
Definition backend_call : M unit :=
  w <- world;;
  update_world (λ w, set_faults w (tail (faults w)));;
  match head (faults w) with
  | Some (Fail k) => raise (DbException k)
  | _ => ret tt
  end.

Definition connect : M unit := backend_call.
Definition commit : M unit := backend_call.

(** [cur.execute(...)]: the statement is submitted, then fails by a
    scripted fault, or is run by the store. *)
Definition execute (s : Stmt) : M Answer :=
  update_world (λ w, set_submitted w (submitted w ++ [s]));;
  backend_call;;
  w <- world;;
  match run_stmt s (tables w) with
  | Ok (a, ts) => update_world (λ w, set_tables w ts);; ret a
  | Raise e => raise e
  end.

(** [except (MySQLdb.Error, psycopg2.Error)]: the driver warnings are
    not subclasses of [Error]. *)
Definition is_db_Error (e : exn) : bool :=
  match e with
  | DbException DbIntegrityError | DbException DbFatal => true
  | _ => false
  end.

(** *** Construction *)

(** [os.path.basename] *)
Definition basename (path : string) : string :=
  List.last (Py.split_go "/" path 0 "") "".

Definition last_char_is (c : ascii) (s : string) : bool :=
  first_byte_is c (String.rev s).

(** The naming part of [Ingester.__init__]. *)
Definition new_names (path : string) (tablePrefix : option string)
    (db type : string) : result Names :=
  let file := basename path in
  let name0 := List.hd "" (Py.split_go "." (Py.replace file "-" "_") 0 "") in
  let pref0 :=
    match tablePrefix with
    | Some tp =>
        if Py.truthy tp
        then (if negb (last_char_is "." tp) then tp +:+ "_" else tp)
        else ""
    | None => ""
    end in
  sp ← (if Py.contains pref0 "." then
          match Py.split_go "." pref0 0 "" with
          | [a; b] => Ok (Some a, b)
          | _ => Raise ValueError
          end
        else Ok (None, pref0));
  let name := sp.2 +:+ name0 in
  Ok {| filePath := path; fileName := file; tableName := name;
        tmpTableName := name +:+ "_tmp"; incTableName := name +:+ "_inc";
        unionTableName := name +:+ "_un"; tableSchema := sp.1;
        dbName := db; dbType := type;
        isPostgresql := String.eqb type "postgresql";
        isMysql := String.eqb type "mysql" |}.

Definition postgresql_typeMap : gmap string string :=
  <["VARCHAR(1000)" := "TEXT"]> (<["VARCHAR(4000)" := "TEXT"]>
  (<["CLOB" := "LONGTEXT"]> (<["DATETIME" := "TIMESTAMP"]>
  (<["LONGTEXT" := "TEXT"]> ∅)))).

Definition mysql_typeMap : gmap string string := <["CLOB" := "LONGTEXT"]> ∅.

Definition status_time (t : option Z) : StatusVal :=
  match t with Some x => STime x | None => SNone end.

Definition updateStatusDict : M unit :=
  update (λ g, set_statusDict g
    (<["didAbort" := SBool (didAbort g)]>
    (<["abortTime" := status_time (abortTime g)]>
    (<["endTime" := status_time (endTime g)]>
    (<["startTime" := status_time (startTime g)]>
    (<["lastRecordIngested" := SInt (lastRecordIngested g)]>
    (<["filePath" := SStr (filePath (names g))]>
    (<["fileName" := SStr (fileName (names g))]> (statusDict g))))))))).

(** [Ingester.__init__]: [content], [can_seek] and [size] describe the
    file at [path] as for [EPFParser.init]. *)
Definition new (path : string) (tablePrefix : option string) (db type : string)
    (rDelim fDelim : string) (content : string) (can_seek : bool) (size : Z)
    (w : World) : result St :=
  ns ← new_names path tablePrefix db type;
  p ← EPFParser.init content can_seek size
        (if isPostgresql ns then postgresql_typeMap else mysql_typeMap) rDelim fDelim;
  let g := {| names := ns; lastRecordIngested := -1; parser := p;
              startTime := None; endTime := None; abortTime := None;
              didAbort := false; statusDict := ∅;
              lastRecordCheck := 0; lastTimeCheck := 0 |} in
  match (updateStatusDict;; t <- now;; update (λ g, set_progress g 0 t)) (g, w) with
  | (Ok _, st) => Ok st
  | (Raise e, _) => Raise e
  end.

(** *** Queries *)

Definition default_table (tn : string) : M string :=
  g <- self;; ret (if Py.truthy tn then tn else tableName (names g)).

(** [tableExists]; [has_conn] says that a connection was passed. *)
Definition tableExists (tn : string) (has_conn : bool) : M bool :=
  g <- self;;
  t <- default_table tn;;
  (if has_conn then ret tt else connect);;
  a <- execute (SelectTableExists (dbName (names g)) t);;
  ret (match a with Count (S _) => true | _ => false end).

Definition columnCount (tn : string) (has_conn : bool) : M nat :=
  g <- self;;
  t <- default_table tn;;
  (if has_conn then ret tt else connect);;
  a <- execute (if isPostgresql (names g) then SelectColumns t else ShowColumns t);;
  ret (match a with Count n => n | NoAnswer => O end).

(** *** Table set-up *)

Definition when (b : bool) (m : M unit) : M unit := if b then m else ret tt.

Definition _applyPrimaryKeyConstraints (tn : string) : M unit :=
  g <- self;;
  let pkLst := primaryKey (parser g) in
  match pkLst with
  | [] => ret tt
  | _ =>
      connect;;
      execute (AddPrimaryKey tn pkLst);;
      when (isPostgresql (names g)) commit
  end.

Definition _createTable (tn : string) : M unit :=
  g <- self;;
  connect;;
  execute (DropTableIfExists tn);;
  execute (CreateTable tn (zip (columnNames (parser g)) (dataTypes (parser g))));;
  when (isPostgresql (names g)) commit;;
  _applyPrimaryKeyConstraints tn.

Definition _dropTable (tn : string) : M unit :=
  g <- self;;
  connect;;
  execute (DropTableIfExists tn);;
  when (isPostgresql (names g)) commit.

Definition _createUnionTable : M unit :=
  g <- self;;
  connect;;
  execute (DropTableIfExists (unionTableName (names g)));;
  execute (CreateUnionTable (unionTableName (names g)) (incTableName (names g))
             (tableName (names g)) (primaryKey (parser g)));;
  when (isPostgresql (names g)) commit.

Definition custom_indexes_sql (file : string) : option string :=
  if String.eqb file "artist_collection" then Some "(collection_id)"
  else if String.eqb file "collection" then Some "(lower(name) text_pattern_ops)"
  else if String.eqb file "artist" then Some "(lower(name) text_pattern_ops)"
  else None.

Definition _createCustomIndexes (file tn : string) : M unit :=
  g <- self;;
  if isPostgresql (names g) then
    match custom_indexes_sql file with
    | Some sql =>
        connect;;
        log INFO "Creating custom index";;
        execute (CreateIndex tn sql);;
        commit
    | None => ret tt
    end
  else ret tt.

(** *** The swap *)

Definition rename (g : Ingester) (a b : string) : M unit :=
  execute (RenameTable a b);;
  when (isPostgresql (names g))
    (execute (RenameIndex (a +:+ "_pk") (b +:+ "_pk"));; commit).

Definition _renameAndDrop (sourceTable targetTable : string) : M unit :=
  g <- self;;
  connect;;
  let targetOld := targetTable +:+ "_old" in
  execute (DropTableIfExists targetOld);;
  ex <- tableExists targetTable true;;
  when ex (rename g targetTable targetOld);;
  revert <- try_except (rename g sourceTable targetTable;; ret false)
              (λ e, if is_db_Error e
                    then Some (log ERROR "Error";; ret true)
                    else None);;
  when revert
    (log ERROR "Could not rename tmp table; reverting to original table (if it exists).";;
     ex' <- tableExists targetOld true;;
     when ex' (rename g targetOld targetTable));;
  execute (DropTableIfExists targetOld);;
  when (isPostgresql (names g)) commit.

(** *** Writing batches *)

(** [tuple([aRec[i] for i in self.parser.primaryKeyIndexes])] *)
Fixpoint marker_of (pkIdx : list nat) (aRec : Row) : result (list (option string)) :=
  match pkIdx with
  | [] => Ok []
  | i :: pkIdx' =>
      match aRec !! i with
      | Some v => m ← marker_of pkIdx' aRec; Ok (v :: m)
      | None => Raise IndexError
      end
  end.

Definition batchSize : nat := Z.to_nat 10000.

Section Driver.

(** The escaping the drivers provide: [conn.literal(aField)] of the
    MySQL driver and [cur.mogrify("%s", (aField,)).decode("utf-8")]
    of the PostgreSQL driver. *)
Variable literal : option string → string.
Variable mogrify : option string → string.

(** The [for aRec in recordList] loop of [_escapeRecords]; [keys] is
    the dictionary of the markers seen. *)
Fixpoint escape_loop (mysql : bool) (pkIdx : list nat)
    (keys : gmap (list (option string)) Z) (recordList : list Row)
    (escapedRecords : list (list string)) : result (list (list string)) :=
  match recordList with
  | [] => Ok escapedRecords
  | aRec :: recordList' =>
      match marker_of pkIdx aRec with
      | Raise e => Raise e
      | Ok marker =>
          match keys !! marker with
          | Some _ => escape_loop mysql pkIdx keys recordList' escapedRecords
          | None =>
              let escRec := (if mysql then literal else mogrify) <$> aRec in
              escape_loop mysql pkIdx (<[marker := 1]> keys) recordList'
                (escapedRecords ++ [escRec])
          end
      end
  end.

Definition _escapeRecords (recordList : list Row) (has_conn : bool)
    : M (list (list string)) :=
  g <- self;;
  (if has_conn then ret tt else connect);;
  match escape_loop (isMysql (names g)) (primaryKeyIndexes (parser g)) ∅ recordList [] with
  | Ok escaped => ret escaped
  | Raise e => raise e
  end.

Definition _checkProgress (recordGap timeGap : Z) : M (option Z) :=
  g <- self;;
  if recordGap <=? lastRecordIngested g - lastRecordCheck g then
    t <- now;;
    if timeGap <=? t - lastTimeCheck g then
      update (λ g, set_progress g (lastRecordIngested g) t);;
      ret (Some (lastRecordIngested g))
    else ret None
  else ret None.

(** One turn of the [while (True)] loop of [_populateTable] once a
    non-empty batch was read.  On PostgreSQL the rotation over the
    eight sessions is reduced to one [poll()] of the session that takes
    the batch; with a [dbType] that is neither dialect, [cur] was never
    bound. *)
Definition write_batch (tn : string) (isIncremental skipKeyViolators : bool)
    (records : list Row) : M unit :=
  g <- self;;
  let ns := names g in
  escapedRecords <- _escapeRecords records false;;
  let b := {| command := if isIncremental && isMysql ns then "REPLACE" else "INSERT";
              ignore := skipKeyViolators && negb isIncremental && isMysql ns;
              colNames := columnNames (parser g);
              values := escapedRecords;
              conflict := if isPostgresql ns && skipKeyViolators
                          then Some (primaryKey (parser g)) else None |} in
  try_except
    (if isPostgresql ns then backend_call;; execute (BulkWrite tn b);; ret tt
     else if isMysql ns then execute (BulkWrite tn b);; ret tt
     else raise UnboundLocalError)
    (λ e, match e with
          | DbException DbWarning => Some (log WARNING "warning")
          | DbException DbIntegrityError => Some (log ERROR "integrity error")
          | DbException DbFatal => Some (log ERROR "error executing";; raise e)
          | _ => None
          end);;
  g' <- self;;
  update (λ g, set_lastRecordIngested g (latestRecordNum (parser g')));;
  recCheck <- _checkProgress 5000 120;;
  match recCheck with
  | Some _ => log INFO "...at record..."
  | None => ret tt
  end.

(** The [while (True)] loop; every turn that does not leave the loop
    has read at least one line of the stream and spends one unit of
    [fuel].  [None] only when the fuel runs out. *)
Fixpoint populate_loop (fuel : nat) (tn : string) (isIncremental skipKeyViolators : bool)
    (st : St) : option (result unit * St) :=
  match fuel with
  | O => None
  | S fuel' =>
      let '(g, w) := st in
      match nextRecords batchSize (today_year w) (parser g) with
      | (Raise e, p') => Some (Raise e, (set_parser g p', w))
      | (Ok [], p') => Some (Ok tt, (set_parser g p', w))
      | (Ok records, p') =>
          match write_batch tn isIncremental skipKeyViolators records (set_parser g p', w) with
          | (Ok _, st') => populate_loop fuel' tn isIncremental skipKeyViolators st'
          | (Raise e, st') => Some (Raise e, st')
          end
      end
  end.

Definition populate_batches (tn : string) (isIncremental skipKeyViolators : bool) : M unit :=
  λ st, match populate_loop (S (length (pending (eFile (parser st.1)))))
                tn isIncremental skipKeyViolators st with
        | Some r => r
        | None => (Ok tt, st)
        end.

Fixpoint repeat_M (n : nat) (m : M unit) : M unit :=
  match n with
  | O => ret tt
  | S k => m;; repeat_M k m
  end.

Definition _populateTable (tn : string) (resumeNum : Z)
    (isIncremental skipKeyViolators : bool) : M unit :=
  g <- self;;
  let ns := names g in
  match seekToRecord (parser g) resumeNum with
  | Raise e => raise e
  | Ok p =>
      update (λ g, set_parser g p);;
      (if isPostgresql ns then repeat_M 8 connect else connect);;
      populate_batches tn isIncremental skipKeyViolators;;
      when (isPostgresql ns)
        (repeat_M 8 (try_except backend_call (λ _, Some (ret tt)));;
         connect);;
      log INFO "Ingested records";;
      _createCustomIndexes (List.hd "" (Py.split_go "." (fileName ns) 0 "")) tn;;
      log INFO "Analyzing table";;
      execute (Analyze tn);;
      commit
  end.

(** *** The ingest strategies *)

(** The [except (MySQLdb.Error, psycopg2.Error)] clause of
    [ingestFull] and [ingestIncremental]. *)
Definition abort_clause (e : exn) : option (M unit) :=
  if is_db_Error e then
    Some (log ERROR "Fatal error encountered while ingesting";;
          log ERROR "Last record ingested before failure";;
          t <- now;;
          update (λ g, set_abortTime g (Some t));;
          update (λ g, set_didAbort g true);;
          updateStatusDict;;
          raise e)
  else None.

(** The [except] clause of [ingestFullResume]. *)
Definition resume_clause (e : exn) : option (M unit) :=
  if is_db_Error e then
    Some (log ERROR "Error encountered while ingesting";;
          log ERROR "Last record ingested before failure";;
          raise e)
  else None.

Definition ingestFull (skipKeyViolators : bool) : M unit :=
  g <- self;;
  let ns := names g in
  log INFO "Beginning full ingest";;
  t <- now;;
  update (λ g, set_startTime g (Some t));;
  try_except
    (_createTable (tmpTableName ns);;
     _populateTable (tmpTableName ns) 0 false skipKeyViolators;;
     _renameAndDrop (tmpTableName ns) (tableName ns))
    abort_clause;;
  t' <- now;;
  update (λ g, set_endTime g (Some t'));;
  updateStatusDict;;
  log INFO "Full ingest took".

Definition ingestFullResume (fromRecord : Z) (skipKeyViolators : bool) : M unit :=
  g <- self;;
  let ns := names g in
  log INFO "Resuming full ingest";;
  update (λ g, set_lastRecordIngested g (fromRecord - 1));;
  t <- now;;
  update (λ g, set_startTime g (Some t));;
  try_except
    (_populateTable (tmpTableName ns) fromRecord false skipKeyViolators;;
     _renameAndDrop (tmpTableName ns) (tableName ns))
    resume_clause;;
  t' <- now;;
  update (λ g, set_endTime g (Some t'));;
  log INFO "Resumed full ingest took".

(** The two branches of the [try] block of [ingestIncremental]. *)
Definition update_in_place (fromRecord : Z) (skipKeyViolators : bool) : M unit :=
  g <- self;;
  _populateTable (tableName (names g)) fromRecord true skipKeyViolators.

Definition prune_and_merge (skipKeyViolators : bool) : M unit :=
  g <- self;;
  let ns := names g in
  _createTable (incTableName ns);;
  log INFO "Populating temporary table...";;
  _populateTable (incTableName ns) 0 false skipKeyViolators;;
  log INFO "Creating merged table...";;
  _createUnionTable;;
  _dropTable (incTableName ns);;
  log INFO "Applying primary key constraints...";;
  _applyPrimaryKeyConstraints (unionTableName ns);;
  _renameAndDrop (unionTableName ns) (tableName ns).

(** The column check of [ingestIncremental], given the column count
    of the live table. *)
Definition check_columns (tableColCount : nat) : M unit :=
  g <- self;;
  let fileColCount := length (columnNames (parser g)) in
  (if (tableColCount <=? fileColCount)%nat then ret tt else raise AssertionError);;
  when (tableColCount <? fileColCount)%nat
    (warn "File contains additional columns not in the existing table. These will not be imported.";;
     update (λ g, set_parser g
       (set_columnNames (parser g) (take tableColCount (columnNames (parser g)))))).

(** The [try] block of [ingestIncremental]. *)
Definition incremental_try (fromRecord : Z) (skipKeyViolators : bool) : M unit :=
  g <- self;;
  if isPostgresql (names g) || (recordsExpected (parser g) <? 500000)
  then update_in_place fromRecord skipKeyViolators
  else prune_and_merge skipKeyViolators.

(** What surrounds the [try] block of [ingestIncremental]. *)
Definition incremental_frame (body : M unit) : M unit :=
  log INFO "incremental ingest";;
  t <- now;;
  update (λ g, set_startTime g (Some t));;
  try_except body abort_clause;;
  t' <- now;;
  update (λ g, set_endTime g (Some t'));;
  log INFO "Incremental ingest took".

Definition ingestIncremental (fromRecord : Z) (skipKeyViolators : bool) : M unit :=
  g <- self;;
  let ns := names g in
  ex <- tableExists (tableName ns) false;;
  (if negb ex then
     warn "Table does not exist in the database; skipping"
   else
     tableColCount <- columnCount "" false;;
     check_columns tableColCount;;
     incremental_frame (incremental_try fromRecord skipKeyViolators));;
  updateStatusDict.

Definition ingest (skipKeyViolators : bool) : M unit :=
  g <- self;;
  if bool_decide (exportMode (parser g) = Some "INCREMENTAL")
  then ingestIncremental 0 skipKeyViolators
  else ingestFull skipKeyViolators.

End Driver.

End EPFIngester.

(** ** Sample feeds *)

Module Samples.
Import EPFParser EPFIngester.

Definition SOH : string := String "001" "".
Definition EOR : string := String "002" (String "010" "").

Fixpoint zeros (n : nat) : string :=
  match n with
  | O => ""
  | S k => String "000" (zeros k)
  end.

Definition row (fields : list string) : string := Py.join SOH fields +:+ EOR.

(** One archive block, then the rows. *)
Definition feed (rows : list string) : string :=
  zeros TAR_HEADER_SIZE +:+ Py.join "" rows.

Definition column_row : string :=
  "#" +:+ row ["export_date"; "artist_id"; "name"; "release_date"].
Definition key_row : string := "#primaryKey:" +:+ row ["artist_id"].
Definition nokey_row : string := "#primaryKey:" +:+ row [""].
Definition types_row : string :=
  "#dbTypes:" +:+ row ["BIGINT"; "INTEGER"; "VARCHAR(1000)"; "DATETIME"].
Definition mode_row (mode : string) : string := "#exportMode:" +:+ row [mode].

Definition data_rows : list string :=
  [ row ["1"; "10"; "a"; "2009 06 21"];
    row ["1"; "11"; "b"; "09 06 21"];
    row ["1"; "12"; "c"; "2012"];
    row ["1"; "[13]"; "d"; ""];
    row ["1"; "<x>"; "e"; ""];
    row ["1"; "15"; ""; "2005-09-06-00:00:00-Etc/GMT"];
    row ["1"; "16"; "g"; "99 01 01"];
    row ["1"; "17"; "h"; ""];
    row ["1"; "18"; "i"; ""];
    row ["1"; "[19]"; "j"; "5 01 01"];
    row ["1"; "<UnknownKeyException>"; "k"; ""];
    row ["1"; "21"; "l"; "2012"] ].

(** Four header rows and twelve data rows. *)
Definition artist_feed (mode : string) : string :=
  feed ([column_row; key_row; types_row; mode_row mode] ++ data_rows).

(** A feed whose last column is plain text. *)
Definition notes_feed : string :=
  feed (["#" +:+ row ["export_date"; "artist_id"; "name"; "note"];
         key_row;
         "#dbTypes:" +:+ row ["BIGINT"; "INTEGER"; "VARCHAR(1000)"; "VARCHAR(1000)"];
         mode_row "INCREMENTAL"] ++ data_rows).

(** The same feed without a primary key. *)
Definition nokey_feed : string :=
  feed ([column_row; nokey_row; types_row; mode_row "FULL"] ++ data_rows).

(** A feed whose header is the column-name row alone. *)
Definition bare_feed : string := feed (column_row :: data_rows).

(** A feed whose numeric rows start right after the header. *)
Definition numeric_feed : string :=
  feed ([column_row; key_row; types_row; mode_row "FULL";
         "#a" +:+ EOR; "#b" +:+ EOR; "#c" +:+ EOR; "#d" +:+ EOR;
         "#e" +:+ EOR; "#f" +:+ EOR; "#g" +:+ EOR;
         row ["1"; "<x>"; "e"; ""];
         row ["1"; "[42]"; "f"; ""]]).


(** A feed closed by the zero padding of its archive. *)
Definition padded_feed : string := artist_feed "FULL" +:+ zeros 1024.

Definition quote (v : option string) : string :=
  match v with
  | None => "NULL"
  | Some s => "'" +:+ s +:+ "'"
  end.

Definition world0 (ts : gmap string Table) (fs : list Fault) : World :=
  {| tables := ts; faults := fs; clock := 100; today_year := 2026;
     submitted := []; logged := [] |}.

Abbreviation sample_parser content can_seek :=
  (EPFParser.init content can_seek 1000 mysql_typeMap EOR SOH).

Abbreviation sample_state type content can_seek size ts fs :=
  (EPFIngester.new "/epf/artist-x.tbz" None "epf" type EOR SOH content can_seek size
     (world0 ts fs)).

Definition live3 : Table :=
  NewTable [("export_date", "BIGINT"); ("artist_id", "INTEGER"); ("name", "VARCHAR(1000)")].
Definition live4 : Table :=
  NewTable [("export_date", "BIGINT"); ("artist_id", "INTEGER"); ("name", "VARCHAR(1000)");
            ("release_date", "DATETIME")].
Definition live5 : Table :=
  NewTable [("export_date", "BIGINT"); ("artist_id", "INTEGER"); ("name", "VARCHAR(1000)");
            ("release_date", "DATETIME"); ("extra", "INTEGER")].

End Samples.

(** ** Specification-side definitions

    The notions the statements below are phrased with. *)

Module Spec.
Import EPFParser EPFIngester.

(** Skipping one raw record, whatever it is: through the first line that
    ends with the record delimiter, or through a line that counts as the
    end of the data. *)
Fixpoint drop_record (rDelim : string) (ls : list string) : list string :=
  match ls with
  | [] => []
  | ln :: ls' =>
      if negb (Py.truthy ln) || first_byte_is "000" ln then ls'
      else if Py.endswith ln rDelim then ls'
      else drop_record rDelim ls'
  end.

(** The stream that starts after the first eleven raw records. *)
Definition after_header (content : string) (rDelim : string) : EFile :=
  {| raw := "";
     pending := Nat.iter 11 (drop_record rDelim)
                  (Py.readlines (Py.drop TAR_HEADER_SIZE content));
     seekable := false |}.

(** The parser with nothing of its stream kept but the lines still to
    be read. *)
Definition detach (p : Parser) : Parser :=
  set_eFile p {| raw := ""; pending := pending (eFile p); seekable := false |}.

(** The first row of the stream and the rows of the lookahead window. *)
Definition first_row (content : string) (rDelim : string) : option string :=
  (nextRowString rDelim false (open_stream content false)).1.

Definition lookahead (content : string) (rDelim : string) : list string :=
  (grabRows 10 rDelim (nextRowString rDelim false (open_stream content false)).2 []).1.

Definition no_row_with (tag : string) (rows : list string) : bool :=
  forallb (λ r, negb (Py.startswith r tag)) rows.




(** *** Frames

    [keeps R m]: every run of [m] relates the state it starts in to the
    state it ends in, whether it returns or raises. *)
Definition keeps {A} (R : relation St) (m : M A) : Prop :=
  ∀ st r st', m st = (r, st') → R st st'.

(** An attribute of the ingester that is the same before and after. *)
Definition unchanged {X} (f : Ingester → X) : relation St :=
  λ st st', f st'.1 = f st.1.

(** The part of the job state that says the run was aborted. *)
Definition abort_state (g : Ingester) : bool * option Z * gmap string StatusVal :=
  (didAbort g, abortTime g, statusDict g).

(** The first [n] backend calls to come meet no scripted fault. *)
Definition calm (n : nat) (w : World) : Prop :=
  Forall (λ f, f = NoFault) (take n (faults w)).

(** *** Notions of the further properties *)

(** The character [c] occurs in [s]. *)
Fixpoint has_char (c : ascii) (s : string) : bool :=
  match s with
  | "" => false
  | String a s' => Ascii.eqb a c || has_char c s'
  end.

(** A line of a stream whose records take one line each: well-formed
    text, not empty, not the padding of the archive, and either a
    comment or a line that ends with the record delimiter. *)
Definition one_line_record (rd ln : string) : Prop :=
  Py.utf8_valid ln = true ∧
  Py.truthy ln = true ∧ first_byte_is "000" ln = false ∧
  (first_byte_is "#" ln = false → Py.endswith ln rd = true).

(** The zero padding that closes an archive, as [readline()] returns
    it: a line that starts with a zero byte and holds no record
    delimiter. *)
Definition padding (rd ln : string) : Prop :=
  Py.utf8_valid ln = true ∧
  first_byte_is "000" ln = true ∧ Py.contains ln rd = false.

(** A stream whose records take one line each, up to the padding of the
    archive, which is its last line when it is there. *)
Fixpoint one_line_stream (rd : string) (ls : list string) : Prop :=
  match ls with
  | [] => True
  | ln :: ls' =>
      (one_line_record rd ln ∧ one_line_stream rd ls') ∨ (padding rd ln ∧ ls' = [])
  end.

(** The job state of an aborted run: the flag is set, the abort time is
    taken, and the status snapshot shows both. *)
Definition aborted (g : Ingester) : Prop :=
  didAbort g = true ∧
  statusDict g !! "didAbort" = Some (SBool true) ∧
  ∃ t, abortTime g = Some t ∧ statusDict g !! "abortTime" = Some (STime t).

(** Every table whose name is not in [l] is the same before and after. *)
Definition only_tables (l : list string) : relation St :=
  λ st st', ∀ x, x ∉ l → tables st'.2 !! x = tables st.2 !! x.

(** A statement that writes to no table outside [l]. *)
Definition writes_within (l : list string) (s : Stmt) : Prop :=
  ∀ ts a ts', run_stmt s ts = Ok (a, ts') → ∀ x, x ∉ l → ts' !! x = ts !! x.

(** The tables of an ingester: the live table, the staging table of a
    full ingest, the staging and the union table of an incremental ingest,
    and the name under which the swap parks the live table. *)
Definition own_tables (ns : Names) : list string :=
  [tableName ns; tmpTableName ns; incTableName ns; unionTableName ns;
   tableName ns +:+ "_old"].

(** [m], run by the ingester with the names [ns], writes to no table
    outside [l] and leaves the names as they are. *)
Definition named_within {A} (ns : Names) (l : list string) (m : M A) : Prop :=
  ∀ st r st', names st.1 = ns → m st = (r, st') →
    only_tables l st st' ∧ names st'.1 = ns.

(** *** Notions of the incremental strategies *)

(** A table with the primary-key constraint of the file, when the file
    declares a key. *)
Definition keyed (pk : list string) (t : Table) : Table :=
  match pk with
  | [] => t
  | _ => Constrained t pk
  end.

(** A table with the custom index [_createCustomIndexes] gives it: on
    PostgreSQL, for the three files that have one. *)
Definition custom_indexed (ns : Names) (t : Table) : Table :=
  if isPostgresql ns then
    match custom_indexes_sql (List.hd "" (Py.split_go "." (fileName ns) 0 "")) with
    | Some sql => Indexed t sql
    | None => t
    end
  else t.

(** The bulk statement [_populateTable] builds for the escaped rows
    [esc] of one batch. *)
Definition bulk_of (ns : Names) (isIncremental skipKeyViolators : bool) (p : Parser)
    (esc : list (list string)) : Bulk :=
  {| command := if isIncremental && isMysql ns then "REPLACE" else "INSERT";
     ignore := skipKeyViolators && negb isIncremental && isMysql ns;
     colNames := columnNames p;
     values := esc;
     conflict := if isPostgresql ns && skipKeyViolators
                 then Some (primaryKey p) else None |}.

Section Written.
Variable literal mogrify : option string → string.

(** The bulk statements of a whole file: the parser at [p] yields
    batches of at most 10000 records until one is empty, and every batch
    escapes to the rows of one statement. *)
Inductive written (ns : Names) (isIncremental skipKeyViolators : bool) (year : Z)
    : Parser → list Bulk → Prop :=
| written_nil p p' :
    nextRecords batchSize year p = (Ok [], p') →
    written ns isIncremental skipKeyViolators year p []
| written_cons p r recs p' esc bs :
    nextRecords batchSize year p = (Ok (r :: recs), p') →
    escape_loop literal mogrify (isMysql ns) (primaryKeyIndexes p') ∅ (r :: recs) [] = Ok esc →
    written ns isIncremental skipKeyViolators year p' bs →
    written ns isIncremental skipKeyViolators year p
      (bulk_of ns isIncremental skipKeyViolators p' esc :: bs).

End Written.

End Spec.

(** ** Properties of the parser *)

Module ParserFacts.
Import EPFParser Spec.

Lemma nextRowString_loop_rest rd fl lst ls :
  (nextRowString_loop rd false fl lst ls).2 = drop_record rd ls.
Proof.
  revert fl lst. induction ls as [|ln ls IH]; intros fl lst; simpl; [done|].
  destruct (negb (Py.truthy ln) || first_byte_is "000" ln); [done|].
  rewrite andb_false_r.
  destruct (Py.endswith ln rd); [done|]. apply IH.
Qed.

Lemma nextRowString_rest rd f :
  pending (nextRowString rd false f).2 = drop_record rd (pending f).
Proof.
  unfold nextRowString.
  pose proof (nextRowString_loop_rest rd true [] (pending f)) as H.
  destruct (nextRowString_loop rd false true [] (pending f)) as [lst ls'].
  simpl in *. by subst.
Qed.

Lemma grabRows_rest n rd f rows :
  pending (grabRows n rd f rows).2 = Nat.iter n (drop_record rd) (pending f).
Proof.
  revert f rows. induction n as [|n IH]; intros f rows; [done|].
  cbn [grabRows].
  pose proof (nextRowString_rest rd f) as H.
  destruct (nextRowString rd false f) as [r f']. simpl in H.
  rewrite IH, H. symmetry. apply Nat.iter_succ_r.
Qed.

(** A call of [nextRowString] never lengthens the stream, and shortens
    it when it collects a line. *)
Lemma nextRowString_loop_shrinks rd ic ls : ∀ fl lst lst' ls',
  nextRowString_loop rd ic fl lst ls = (lst', ls') →
  (length ls' ≤ length ls)%nat ∧
  (length lst ≤ length lst')%nat ∧
  ((length lst < length lst')%nat → (length ls' < length ls)%nat).
Proof.
  induction ls as [|ln ls IH]; intros fl lst lst' ls' H; simpl in H.
  - inversion H; subst. simpl. lia.
  - destruct (negb (Py.truthy ln) || first_byte_is "000" ln).
    { inversion H; subst. simpl. lia. }
    destruct (first_byte_is "#" ln && fl && ic).
    { apply IH in H. simpl. lia. }
    destruct (Py.endswith ln rd).
    { inversion H; subst. rewrite length_app. simpl. lia. }
    apply IH in H. rewrite length_app in H. simpl in *. lia.
Qed.

Lemma nextRowString_shrinks rd ic f r f' :
  nextRowString rd ic f = (r, f') →
  (length (pending f') ≤ length (pending f))%nat ∧
  (is_Some r → (length (pending f') < length (pending f))%nat).
Proof.
  unfold nextRowString.
  destruct (nextRowString_loop rd ic true [] (pending f)) as [lst ls'] eqn:E.
  apply nextRowString_loop_shrinks in E as (H1 & H2 & H3).
  intros H; inversion H; subst; clear H. simpl. split; [done|].
  intros [x Hx]. apply H3. destruct lst; [done|]. simpl. lia.
Qed.

(** *** Fuel of [nextRecord] *)

Lemma nextRecord_fuel_mono year n : ∀ p r m,
  nextRecord_fuel n year p = Some r → (n ≤ m)%nat →
  nextRecord_fuel m year p = Some r.
Proof.
  induction n as [|n IH]; intros p r m H Hle; [done|].
  destruct m as [|m]; [lia|]. simpl in *.
  destruct (nextRowString (recordDelim p) true (eFile p)) as [[rs|] f']; [|done].
  destruct (Py.truthy rs); [|done].
  destruct (decode year _ rs) as [[rec|]|e]; try done.
  apply IH; [done|lia].
Qed.

Lemma nextRecord_fuel_enough year n : ∀ p,
  (length (pending (eFile p)) < n)%nat →
  is_Some (nextRecord_fuel n year p).
Proof.
  induction n as [|n IH]; intros p Hlt; [lia|]. simpl.
  destruct (nextRowString (recordDelim p) true (eFile p)) as [[rs|] f'] eqn:E; [|done].
  destruct (Py.truthy rs); [|done].
  destruct (decode year _ rs) as [[rec|]|e]; try done.
  apply IH. simpl.
  apply nextRowString_shrinks in E as [_ E]. specialize (E (mk_is_Some _ _ eq_refl)). lia.
Qed.

Lemma nextRecord_eq year p n r :
  nextRecord_fuel n year p = Some r → nextRecord year p = r.
Proof.
  intros H. unfold nextRecord.
  destruct (nextRecord_fuel_enough year (S (length (pending (eFile p)))) p) as [r' Hr']; [lia|].
  rewrite Hr'.
  destruct (Nat.le_ge_cases n (S (length (pending (eFile p))))) as [Hle|Hle].
  - rewrite (nextRecord_fuel_mono _ _ _ _ _ H Hle) in Hr'. congruence.
  - rewrite (nextRecord_fuel_mono _ _ _ _ _ Hr' Hle) in H. congruence.
Qed.

(** [nextRecord] always returns: the fuel never runs out. *)
Lemma nextRecord_total year p :
  nextRecord_fuel (S (length (pending (eFile p)))) year p = Some (nextRecord year p).
Proof.
  destruct (nextRecord_fuel_enough year (S (length (pending (eFile p)))) p) as [r Hr]; [lia|].
  by rewrite (nextRecord_eq _ _ _ _ Hr).
Qed.

(** *** [nextRecord] under the recursion limit *)

Lemma nextRecord_depth_eq d year p :
  nextRecord_depth d year p =
  let '(rowString, f') := nextRowString (recordDelim p) true (eFile p) in
  let p1 := set_eFile p f' in
  match rowString with
  | Some rs =>
      if Py.truthy rs then
        let p2 := set_latestRecordNum p1 (latestRecordNum p1 + 1) in
        match decode year p2 rs with
        | Raise e => (Raise e, p2)
        | Ok (Some rec) => (Ok (Some rec), p2)
        | Ok None =>
            match d with
            | O => (Raise RecursionError, p2)
            | S d' => nextRecord_depth d' year p2
            end
        end
      else (Ok None, p1)
  | None => (Ok None, p1)
  end.
Proof. by destruct d. Qed.

Lemma nextRecord_depth_fuel year d : ∀ p,
  (length (pending (eFile p)) ≤ d)%nat →
  nextRecord_fuel (S d) year p = Some (nextRecord_depth d year p).
Proof.
  induction d as [|d IH]; intros p Hle; rewrite nextRecord_depth_eq;
    cbn [nextRecord_fuel];
    destruct (nextRowString (recordDelim p) true (eFile p)) as [[rs|] f'] eqn:E;
    try done;
    apply nextRowString_shrinks in E as [_ E]; specialize (E (mk_is_Some _ _ eq_refl)).
  - lia.
  - destruct (Py.truthy rs); [|done].
    destruct (decode year _ rs) as [[rec|]|e]; try done.
    apply IH. cbn. lia.
Qed.

(** A call that does not run into the limit is [nextRecord]. *)
Lemma nextRecord_depth_agrees year d : ∀ p,
  (nextRecord_depth d year p).1 ≠ Raise RecursionError →
  nextRecord_depth d year p = nextRecord year p.
Proof.
  intros p H. symmetry. apply (nextRecord_eq _ _ (S d)). revert p H.
  induction d as [|d IH]; intros p; rewrite nextRecord_depth_eq;
    cbn [nextRecord_fuel];
    destruct (nextRowString (recordDelim p) true (eFile p)) as [[rs|] f'];
    try done;
    (destruct (Py.truthy rs); [|done]);
    destruct (decode year _ rs) as [[rec|]|e]; try done.
  apply IH.
Qed.

(** A stack that admits one nested call per pending line is deep
    enough: the limit is not reached and the call is [nextRecord]. *)
Lemma nextRecord_depth_enough year d p :
  (length (pending (eFile p)) ≤ d)%nat →
  nextRecord_depth d year p = nextRecord year p.
Proof.
  intros Hle. symmetry. by eapply nextRecord_eq, nextRecord_depth_fuel.
Qed.

(** *** What a read depends on *)

Lemma nextRowString_view rd ic f :
  ∃ r ls, ∀ g, pending g = pending f →
    nextRowString rd ic g = (r, set_pending g ls).
Proof.
  unfold nextRowString.
  destruct (nextRowString_loop rd ic true [] (pending f)) as [lst ls'] eqn:E.
  eexists _, ls'. intros g ->. by rewrite E.
Qed.

Lemma nextRecord_fuel_detach year n : ∀ p,
  nextRecord_fuel n year (detach p) =
  (λ r, (r.1, detach r.2)) <$> nextRecord_fuel n year p.
Proof.
  induction n as [|n IH]; intros p; [done|]. simpl.
  destruct (nextRowString_view (recordDelim p) true (eFile p)) as (r & ls & H).
  rewrite (H (eFile p) eq_refl), (H {| raw := ""; pending := _; seekable := false |} eq_refl).
  destruct r as [rs|]; [|done].
  destruct (Py.truthy rs); [|done].
  change (decode year (set_latestRecordNum (set_eFile (detach p) ?f) ?k) rs)
    with (decode year (set_latestRecordNum (set_eFile p (set_pending (eFile p) ls)) k) rs).
  destruct (decode year _ rs) as [[rec|]|e]; try done.
  apply (IH (set_latestRecordNum (set_eFile p (set_pending (eFile p) ls)) _)).
Qed.

Lemma nextRecord_detach year p :
  nextRecord year (detach p) = ((nextRecord year p).1, detach (nextRecord year p).2).
Proof.
  apply (nextRecord_eq _ _ (S (length (pending (eFile p))))).
  by rewrite nextRecord_fuel_detach, nextRecord_total.
Qed.

Lemma nextRecords_loop_detach year n : ∀ p acc,
  nextRecords_loop n year (detach p) acc =
  ((nextRecords_loop n year p acc).1, detach (nextRecords_loop n year p acc).2).
Proof.
  induction n as [|n IH]; intros p acc; [done|]. simpl.
  rewrite nextRecord_detach.
  destruct (nextRecord year p) as [[[[|v rec]|]|e] p']; simpl; first [done | apply IH].
Qed.

(** *** Construction *)

(** What a successful construction went through. *)
Lemma init_inv content can_seek size types rd fd p :
  init content can_seek size types rd fd = Ok p →
  ∃ l cols pk dts ex pkIdx,
    let f1 := (nextRowString rd false (open_stream content can_seek)).2 in
    let rows := (grabRows 10 rd f1 []).1 in
    (nextRowString rd false (open_stream content can_seek)).1 = Some l ∧
    splitRow rd fd l (Some commentChar) = Ok cols ∧
    headerRows rd fd ([], [], None) rows = Ok (pk, dts, ex) ∧
    indexes_of cols pk = Ok pkIdx ∧
    columnNames p = cols ∧ primaryKey p = pk ∧ primaryKeyIndexes p = pkIdx ∧
    dataTypes p = mapType types <$> fixupDataTypes cols dts ∧
    exportMode p = ex ∧
    numberColumns p = columns_of_kind numberTypes 0 (fixupDataTypes cols dts) ∧
    dateColumns p = columns_of_kind dateTypes 0 (fixupDataTypes cols dts) ∧
    recordsExpected p = (if size <? 100000000 then 499999 else 500001) ∧
    fileSize p = size ∧ latestRecordNum p = 0 ∧
    recordDelim p = rd ∧ fieldDelim p = fd ∧
    eFile p = (grabRows 10 rd f1 []).2.
Proof.
  unfold init. intros H.
  destruct (nextRowString rd false (open_stream content can_seek)) as [line1 f1].
  destruct line1 as [l|]; [|done].
  destruct (splitRow rd fd l (Some commentChar)) as [cols|] eqn:Ec; [|done].
  unfold mbind, result_bind in H.
  destruct (grabRows 10 rd f1 []) as [rows f2] eqn:Eg.
  destruct (headerRows rd fd _ rows) as [[[pk dts] ex]|] eqn:Eh; [|done].
  destruct (indexes_of cols pk) as [pkIdx|] eqn:Ei; [|done].
  inversion H; subst; clear H.
  exists l, cols, pk, dts, ex, pkIdx. cbn [fst snd]. rewrite Eg. cbn [fst snd].
  by repeat split.
Qed.

Lemma init_stream content can_seek size types rd fd p :
  init content can_seek size types rd fd = Ok p →
  pending (eFile p) = pending (after_header content rd) ∧ latestRecordNum p = 0.
Proof.
  intros H. apply init_inv in H as (l & cols & pk & dts & ex & pkIdx & H).
  cbn zeta in H. destruct H as (_ & _ & _ & _ & _ & _ & _ & _ & _ & _ & _ & _ & _ & Hn & _ & _ & He).
  split; [|done]. rewrite He, grabRows_rest, nextRowString_rest.
  symmetry. apply (Nat.iter_succ_r 10).
Qed.

(** *** Header rows *)

Lemma partition_raises s sep e :
  Py.partition s sep = Raise e → e = ValueError ∧ Py.truthy sep = false.
Proof. unfold Py.partition. destruct (Py.truthy sep); by inversion 1. Qed.

Lemma split_raises s sep e :
  Py.split s sep = Raise e → e = ValueError ∧ Py.truthy sep = false.
Proof. unfold Py.split. destruct (Py.truthy sep); by inversion 1. Qed.

Lemma split_go_nonempty sep s : ∀ skip cur, Py.split_go sep s skip cur ≠ [].
Proof.
  induction s as [|c s IH]; intros skip cur; simpl; [done|].
  destruct skip; [|apply IH]. case_match; [done|apply IH].
Qed.

(** [splitRow] raises [SubstringNotFoundException] only for a row that
    lacks the required prefix; its other failure is the [ValueError] of
    an empty delimiter. *)
Lemma splitRow_raises rd fd row px e :
  splitRow rd fd row px = Raise e →
  (∃ pre, px = Some pre ∧ Py.startswith row pre = false ∧
          e = SubstringNotFoundException pre row) ∨
  (e = ValueError ∧ (Py.truthy rd = false ∨ Py.truthy fd = false)).
Proof.
  unfold splitRow. intros H.
  destruct px as [pre|].
  - destruct (Py.truthy pre) eqn:Et.
    + destruct (Py.startswith row pre) eqn:Es; simpl in H.
      * unfold Py.partition at 2 in H. rewrite Et in H. simpl in H.
        destruct (Py.partition _ rd) eqn:Ep; simpl in H.
        -- apply split_raises in H as [-> ?]. right. auto.
        -- inversion H; subst. apply partition_raises in Ep as [-> ?]. right. auto.
      * inversion H; subst. left. by exists pre.
    + simpl in H. destruct (Py.partition _ rd) eqn:Ep; simpl in H.
      * apply split_raises in H as [-> ?]. right. auto.
      * inversion H; subst. apply partition_raises in Ep as [-> ?]. right. auto.
  - simpl in H. destruct (Py.partition _ rd) eqn:Ep; simpl in H.
    + apply split_raises in H as [-> ?]. right. auto.
    + inversion H; subst. apply partition_raises in Ep as [-> ?]. right. auto.
Qed.

Lemma headerRow_raises rd fd h aRow e :
  headerRow rd fd h aRow = Raise e → e = ValueError.
Proof.
  unfold headerRow. destruct h as [[pk dts] ex]. intros H.
  destruct (Py.startswith aRow primStart) eqn:E1.
  { destruct (splitRow rd fd aRow (Some primStart)) eqn:Es; [done|].
    simpl in H. inversion H; subst.
    apply splitRow_raises in Es as [(pre & Hp & Hs & _)|[? _]]; [|done].
    inversion Hp; subst. congruence. }
  destruct (Py.startswith aRow dtStart) eqn:E2.
  { destruct (splitRow rd fd aRow (Some dtStart)) eqn:Es; [done|].
    simpl in H. inversion H; subst.
    apply splitRow_raises in Es as [(pre & Hp & Hs & _)|[? _]]; [|done].
    inversion Hp; subst. congruence. }
  destruct (Py.startswith aRow exStart) eqn:E3; [|done].
  destruct (splitRow rd fd aRow (Some exStart)) as [l|] eqn:Es.
  - simpl in H. destruct l; [|done].
    unfold splitRow in Es. rewrite E3 in Es. simpl in Es.
    destruct (Py.partition _ rd); simpl in Es; [|done].
    unfold Py.split in Es. destruct (Py.truthy fd); [|done].
    inversion Es as [Hs]. by apply split_go_nonempty in Hs.
  - simpl in H. inversion H; subst.
    apply splitRow_raises in Es as [(pre & Hp & Hs & _)|[? _]]; [|done].
    inversion Hp; subst. congruence.
Qed.

Lemma headerRows_raises rd fd rows : ∀ h e,
  headerRows rd fd h rows = Raise e → e = ValueError.
Proof.
  induction rows as [|r rows IH]; intros h e H; cbn [headerRows] in H; [done|].
  destruct (headerRow rd fd h r) as [h'|e'] eqn:E; cbn [mbind result_bind] in H.
  - by apply IH in H.
  - inversion H; subst. by apply headerRow_raises in E.
Qed.

(** A declaration that no row carries keeps the value it had. *)
Lemma headerRows_absent rd fd rows : ∀ pk dts ex pk' dts' ex',
  headerRows rd fd (pk, dts, ex) rows = Ok (pk', dts', ex') →
  (no_row_with primStart rows = true → pk' = pk) ∧
  (no_row_with dtStart rows = true → dts' = dts) ∧
  (no_row_with exStart rows = true → ex' = ex).
Proof.
  induction rows as [|r rows IH]; intros pk dts ex pk' dts' ex' H; cbn [headerRows] in H.
  { by inversion H. }
  destruct (headerRow rd fd (pk, dts, ex) r) as [[[pk1 dts1] ex1]|] eqn:E;
    cbn [mbind result_bind] in H; [|done].
  apply IH in H as (H1 & H2 & H3).
  unfold no_row_with in *. cbn [forallb].
  unfold headerRow in E.
  destruct (Py.startswith r primStart) eqn:E1.
  { destruct (splitRow rd fd r (Some primStart)); [|done]. simpl in E.
    inversion E; subst.
    repeat split; intros [Hr Hrest]%andb_true_iff; first [done | auto]. }
  destruct (Py.startswith r dtStart) eqn:E2.
  { destruct (splitRow rd fd r (Some dtStart)); [|done]. simpl in E.
    inversion E; subst.
    repeat split; intros [Hr Hrest]%andb_true_iff; first [done | auto]. }
  destruct (Py.startswith r exStart) eqn:E3.
  { destruct (splitRow rd fd r (Some exStart)) as [[|x l]|]; try done. simpl in E.
    inversion E; subst.
    repeat split; intros [Hr Hrest]%andb_true_iff; first [done | auto]. }
  inversion E; subst.
  repeat split; intros [Hr Hrest]%andb_true_iff; first [done | auto].
Qed.

Lemma list_index_raises l x e : Py.list_index l x = Raise e → e = ValueError.
Proof.
  induction l as [|y l IH]; simpl; [by inversion 1|].
  destruct (String.eqb y x); [done|].
  destruct (Py.list_index l x); simpl; [done|]. inversion 1; subst. by apply IH.
Qed.

Lemma indexes_of_raises cols pks e : indexes_of cols pks = Raise e → e = ValueError.
Proof.
  induction pks as [|pk pks IH]; simpl; [done|].
  destruct (Py.list_index cols pk) eqn:E; simpl.
  - destruct (indexes_of cols pks); simpl; [done|]. inversion 1; subst. by apply IH.
  - inversion 1; subst. by apply list_index_raises in E.
Qed.

Lemma indexes_of_length cols pks idx :
  indexes_of cols pks = Ok idx → length idx = length pks.
Proof.
  revert idx. induction pks as [|pk pks IH]; intros idx; simpl.
  { by inversion 1. }
  destruct (Py.list_index cols pk); [|done]. simpl.
  destruct (indexes_of cols pks); [|done]. simpl.
  inversion 1; subst. simpl. f_equal. by apply IH.
Qed.

(** *** Rows read are never empty *)

Lemma nextRowString_loop_truthy rd ic ls : ∀ fl lst lst' ls',
  nextRowString_loop rd ic fl lst ls = (lst', ls') →
  Forall (λ l, Py.truthy l = true) lst → Forall (λ l, Py.truthy l = true) lst'.
Proof.
  induction ls as [|ln ls IH]; intros fl lst lst' ls' H Hall; simpl in H.
  { by inversion H; subst. }
  destruct (Py.truthy ln) eqn:Et; simpl in H; [|by inversion H; subst].
  destruct (first_byte_is "000" ln); [by inversion H; subst|].
  destruct (first_byte_is "#" ln && fl && ic); [by eapply IH|].
  assert (Forall (λ l, Py.truthy l = true) (lst ++ [ln])).
  { apply Forall_app. split; [done|]. by constructor. }
  destruct (Py.endswith ln rd); [by inversion H; subst|]. by eapply IH.
Qed.

Lemma join_truthy x l : Py.truthy x = true → Py.truthy (Py.join "" (x :: l)) = true.
Proof. destruct x; [done|]. by destruct l. Qed.

Lemma nextRowString_truthy rd ic f rs f' :
  nextRowString rd ic f = (Some rs, f') → Py.truthy rs = true.
Proof.
  unfold nextRowString.
  destruct (nextRowString_loop rd ic true [] (pending f)) as [lst ls'] eqn:E.
  apply nextRowString_loop_truthy in E; [|constructor].
  destruct lst as [|x l]; [done|]. inversion 1; subst.
  apply join_truthy. by inversion E.
Qed.

(** *** The numeric clean-up *)




Lemma massage_numbers_cons j cols rec :
  massage_numbers (j :: cols) rec =
  match rec !! j with
  | None => Raise IndexError
  | Some (Some (String _ _ as s)) =>
      if negb (Py.head_isdigit s) then
        let s' := Py.sub_nonNumber s in
        if String.eqb s' "" then Ok None
        else massage_numbers cols (<[j := Some s']> rec)
      else massage_numbers cols rec
  | Some _ => massage_numbers cols rec
  end.
Proof. done. Qed.


(** *** The rows of the header do not depend on the kind of stream *)

Lemma grabRows_view n rd : ∀ f g rows,
  pending f = pending g →
  (grabRows n rd f rows).1 = (grabRows n rd g rows).1 ∧
  pending (grabRows n rd f rows).2 = pending (grabRows n rd g rows).2.
Proof.
  induction n as [|n IH]; intros f g rows Hp; [done|]. cbn [grabRows].
  destruct (nextRowString_view rd false f) as (r & ls & H).
  rewrite (H f eq_refl), (H g (eq_sym Hp)). by apply IH.
Qed.

Lemma first_row_eq content can_seek rd :
  (nextRowString rd false (open_stream content can_seek)).1 = first_row content rd.
Proof.
  unfold first_row.
  destruct (nextRowString_view rd false (open_stream content can_seek)) as (r & ls & H).
  by rewrite (H (open_stream content can_seek) eq_refl), (H (open_stream content false) eq_refl).
Qed.

Lemma lookahead_eq content can_seek rd :
  (grabRows 10 rd (nextRowString rd false (open_stream content can_seek)).2 []).1
  = lookahead content rd.
Proof.
  unfold lookahead. apply grabRows_view.
  destruct (nextRowString_view rd false (open_stream content can_seek)) as (r & ls & H).
  by rewrite (H (open_stream content can_seek) eq_refl), (H (open_stream content false) eq_refl).
Qed.

(** A construction that fails with [SubstringNotFoundException] failed
    on the column-name row. *)
Lemma init_substring_not_found content can_seek size types rd fd px row :
  init content can_seek size types rd fd = Raise (SubstringNotFoundException px row) →
  px = commentChar ∧ first_row content rd = Some row ∧
  Py.startswith row commentChar = false.
Proof.
  unfold init. intros H. rewrite <- (first_row_eq content can_seek rd).
  destruct (nextRowString rd false (open_stream content can_seek)) as [line1 f1].
  destruct line1 as [l|]; [|done].
  destruct (splitRow rd fd l (Some commentChar)) as [cols|e] eqn:Ec.
  - unfold mbind, result_bind in H.
    destruct (grabRows 10 rd f1 []) as [rows f2].
    destruct (headerRows rd fd _ rows) as [[[pk dts] ex]|e] eqn:Eh.
    + destruct (indexes_of cols pk) as [pkIdx|e] eqn:Ei; [done|].
      apply indexes_of_raises in Ei. congruence.
    + apply headerRows_raises in Eh. congruence.
  - unfold mbind, result_bind in H. inversion H; subst.
    apply splitRow_raises in Ec as [(pre & Hp & Hs & He)|[? _]]; [|done].
    inversion Hp; inversion He; subst. done.
Qed.

(** *** Strings *)

Lemma append_cons c s t : String c s +:+ t = String c (s +:+ t).
Proof. done. Qed.

Lemma append_nil_r s : s +:+ "" = s.
Proof. induction s as [|c s IH]; [done|]. by rewrite append_cons, IH. Qed.

Lemma append_assoc s t u : (s +:+ t) +:+ u = s +:+ (t +:+ u).
Proof. induction s as [|c s IH]; [done|]. by rewrite !append_cons, IH. Qed.

Lemma prefix_nil s : String.prefix "" s = true.
Proof. by destruct s. Qed.

Lemma prefix_append s t : String.prefix s (s +:+ t) = true.
Proof.
  induction s as [|c s IH]; [apply prefix_nil|].
  rewrite append_cons. simpl. by destruct (ascii_dec c c).
Qed.

Lemma prefix_single c s : String.prefix (String c "") (String c s) = true.
Proof. simpl. destruct (ascii_dec c c); [apply prefix_nil|done]. Qed.

Lemma prefix_other a b s t : a ≠ b → String.prefix (String a s) (String b t) = false.
Proof. intros H. simpl. by destruct (ascii_dec a b). Qed.

Lemma drop_length_append s t : Py.drop (String.length s) (s +:+ t) = t.
Proof. induction s as [|c s IH]; [by destruct t|]. by rewrite append_cons. Qed.

Lemma find_split_eq sep s :
  Py.find_split sep s =
  if String.prefix sep s then Some ("", Py.drop (String.length sep) s)
  else match s with
       | "" => None
       | String c s' =>
           match Py.find_split sep s' with
           | Some (b, a) => Some (String c b, a)
           | None => None
           end
       end.
Proof. by destruct s. Qed.

Lemma find_split_here sep t : Py.find_split sep (sep +:+ t) = Some ("", t).
Proof. by rewrite find_split_eq, prefix_append, drop_length_append. Qed.

Lemma has_char_append c s t : has_char c (s +:+ t) = has_char c s || has_char c t.
Proof.
  induction s as [|a s IH]; [done|]. rewrite append_cons. simpl.
  by rewrite IH, orb_assoc.
Qed.

(** The first occurrence of a delimiter whose first character is not in
    the text before it. *)
Lemma find_split_absent r rd body :
  has_char r body = false →
  Py.find_split (String r rd) (body +:+ String r rd) = Some (body, "").
Proof.
  induction body as [|a body IH]; intros H.
  - change ("" +:+ String r rd) with (String r rd).
    rewrite <- (append_nil_r (String r rd)) at 2. apply find_split_here.
  - simpl in H. apply orb_false_iff in H as [Ha Hb].
    change (String a body +:+ String r rd) with (String a (body +:+ String r rd)).
    rewrite find_split_eq, prefix_other, (IH Hb); [done|].
    intros ->. by rewrite Ascii.eqb_refl in Ha.
Qed.

Lemma split_go_field c x : ∀ rest cur,
  has_char c x = false →
  Py.split_go (String c "") (x +:+ rest) 0 cur = Py.split_go (String c "") rest 0 (cur +:+ x).
Proof.
  induction x as [|a x IH]; intros rest cur H.
  - by rewrite append_nil_r.
  - simpl in H. apply orb_false_iff in H as [Ha Hb].
    change (String a x +:+ rest) with (String a (x +:+ rest)).
    cbn [Py.split_go]. rewrite prefix_other.
    2:{ intros ->. by rewrite Ascii.eqb_refl in Ha. }
    rewrite (IH _ _ Hb), append_assoc. done.
Qed.

Lemma split_go_join c fields : ∀ cur,
  fields ≠ [] → Forall (λ f, has_char c f = false) fields →
  Py.split_go (String c "") (Py.join (String c "") fields) 0 cur
  = (cur +:+ hd "" fields) :: tl fields.
Proof.
  induction fields as [|x l IH]; intros cur Hne Hall; [done|].
  apply Forall_cons in Hall as [Hx Hl]. destruct l as [|y l].
  - cbn [Py.join hd tl]. rewrite <- (append_nil_r x) at 1.
    by rewrite split_go_field.
  - change (Py.join (String c "") (x :: y :: l))
      with (x +:+ String c "" +:+ Py.join (String c "") (y :: l)).
    rewrite split_go_field by done.
    change (String c "" +:+ ?s) with (String c s).
    cbn [Py.split_go]. rewrite prefix_single.
    cbn [String.length Nat.sub]. by rewrite IH.
Qed.

Lemma has_char_join r c fields :
  c ≠ r → Forall (λ f, has_char r f = false) fields →
  has_char r (Py.join (String c "") fields) = false.
Proof.
  intros Hne. induction fields as [|x l IH]; intros Hall; [done|].
  apply Forall_cons in Hall as [Hx Hl]. destruct l as [|y l]; [done|].
  change (Py.join (String c "") (x :: y :: l))
    with (x +:+ String c "" +:+ Py.join (String c "") (y :: l)).
  rewrite !has_char_append, Hx, (IH Hl). cbn.
  rewrite !orb_false_r. by apply Ascii.eqb_neq.
Qed.

(** *** Key indexes and column kinds *)

Lemma list_index_spec l x : ∀ n,
  Py.list_index l x = Ok n →
  l !! n = Some x ∧ ∀ m, (m < n)%nat → l !! m ≠ Some x.
Proof.
  induction l as [|y l IH]; intros n H; simpl in H; [done|].
  destruct (String.eqb y x) eqn:E.
  - inversion H; subst. apply String.eqb_eq in E as ->. split; [done|]. lia.
  - destruct (Py.list_index l x) as [k|] eqn:Ek; [|done]. simpl in H.
    inversion H; subst. destruct (IH k eq_refl) as [H1 H2]. split; [done|].
    intros [|m] Hm; simpl.
    + intros [= ->]. by rewrite String.eqb_refl in E.
    + apply H2. lia.
Qed.

Lemma indexes_of_spec cols pks : ∀ idx,
  indexes_of cols pks = Ok idx →
  ∀ i j, idx !! i = Some j →
    ∃ name, pks !! i = Some name ∧ cols !! j = Some name ∧
            ∀ m, (m < j)%nat → cols !! m ≠ Some name.
Proof.
  induction pks as [|pk pks IH]; intros idx H; simpl in H.
  { inversion H; subst. by intros i j. }
  destruct (Py.list_index cols pk) as [k|] eqn:Ek; [|done]. simpl in H.
  destruct (indexes_of cols pks) as [rest|] eqn:Er; [|done]. simpl in H.
  inversion H; subst. intros [|i] j Hj; simpl in Hj.
  - inversion Hj; subst. exists pk. split; [done|]. by apply list_index_spec.
  - by apply (IH rest).
Qed.

Lemma fixupDataTypes_length cols : ∀ dts,
  length (fixupDataTypes cols dts) = length dts.
Proof.
  induction cols as [|c cols IH]; intros [|d dts]; simpl; try done. by rewrite IH.
Qed.

Lemma fixupDataTypes_lookup cols : ∀ dts j c d,
  cols !! j = Some c → dts !! j = Some d →
  fixupDataTypes cols dts !! j = Some (fixup_one c d).
Proof.
  induction cols as [|c0 cols IH]; intros [|d0 dts] [|j] c d Hc Hd; simpl in *; try done.
  - by inversion Hc; inversion Hd; subst.
  - by apply IH.
Qed.

Lemma columns_of_kind_spec kinds dts : ∀ from j,
  j ∈ columns_of_kind kinds from dts ↔
  ∃ d, (from ≤ j)%nat ∧ dts !! (j - from)%nat = Some d ∧ str_in d kinds = true.
Proof.
  induction dts as [|d0 dts IH]; intros from j; simpl.
  { split; [by intros ?%elem_of_nil|]. by intros (d & _ & ? & _). }
  rewrite elem_of_app, IH. split.
  - intros [H|(d & Hle & Hd & Hk)].
    + destruct (str_in d0 kinds) eqn:E; [|by apply elem_of_nil in H].
      apply list_elem_of_singleton in H as ->. exists d0.
      rewrite Nat.sub_diag. done.
    + exists d. split; [lia|]. split; [|done].
      replace (j - from)%nat with (S (j - S from)) by lia. done.
  - intros (d & Hle & Hd & Hk). destruct (decide (j = from)) as [->|Hne].
    + left. rewrite Nat.sub_diag in Hd. simpl in Hd. inversion Hd; subst.
      rewrite Hk. by apply list_elem_of_singleton.
    + right. exists d. split; [lia|]. split; [|done].
      replace (j - from)%nat with (S (j - S from)) in Hd by lia. done.
Qed.

(** [dict(zip(keys, vals))] on keys without repetition. *)
Lemma dict_zip_lookup {V} (ks : list string) : ∀ (vs : list V) (m : gmap string V) j k,
  NoDup ks → ks !! j = Some k →
  foldl (λ m kv, <[kv.1 := kv.2]> m) m (zip ks vs) !! k
  = match vs !! j with Some v => Some v | None => m !! k end.
Proof.
  assert (Hout : ∀ (ks : list string) (vs : list V) (m : gmap string V) k, k ∉ ks →
            foldl (λ m kv, <[kv.1 := kv.2]> m) m (zip ks vs) !! k = m !! k).
  { clear. induction ks as [|k0 ks IH]; intros [|v vs] m k Hk; simpl; try done.
    rewrite IH by set_solver. apply lookup_insert_ne. set_solver. }
  induction ks as [|k0 ks IH]; intros vs m j k Hnd Hj; [done|].
  apply NoDup_cons in Hnd as [Hk0 Hnd].
  destruct j as [|j]; simpl in Hj.
  - inversion Hj; subst. destruct vs as [|v vs]; simpl; [done|].
    rewrite Hout by done. apply lookup_insert_eq.
  - destruct vs as [|v vs]; simpl; [done|].
    rewrite (IH vs _ j k Hnd Hj). destruct (vs !! j); [done|].
    apply lookup_insert_ne. intros ->. apply Hk0. by eapply list_elem_of_lookup_2.
Qed.

(** *** The shape of a decoded record *)

Lemma null_empty_length pk rec : length (null_empty pk rec) = length rec.
Proof. unfold null_empty. apply length_imap. Qed.

Lemma int_raises s e : Py.int s = Raise e → e = ValueError.
Proof.
  unfold Py.int. destruct (match Py.strip s with String "-" r => _ | _ => _ end) as [neg body].
  destruct (Py.int_digits body 0 false); by inversion 1.
Qed.

Lemma index_in_range s i : (i < String.length s)%nat → ∃ c, Py.index s i = Ok c.
Proof.
  unfold Py.index. revert i. induction s as [|a s IH]; intros i Hi; simpl in Hi; [lia|].
  destruct i as [|i]; simpl; [eauto|]. apply IH. lia.
Qed.

Lemma massage_date_raises year v e : massage_date year v = Raise e → e = ValueError.
Proof.
  unfold massage_date. intros H.
  destruct (3 <? String.length (Py.strip v))%nat eqn:E; cbn [mbind result_bind] in H; [|done].
  apply Nat.ltb_lt in E.
  destruct (index_in_range (Py.strip v) 2) as [c2 Hc2]; [lia|].
  destruct (index_in_range (Py.strip v) 1) as [c1 Hc1]; [lia|].
  rewrite Hc2 in H. cbn [mbind result_bind] in H.
  destruct (in_space_dash c2).
  - destruct (Py.int _) eqn:Ei; cbn [mbind result_bind] in H; [done|].
    inversion H; subst. by apply int_raises in Ei.
  - rewrite Hc1 in H. cbn [mbind result_bind] in H.
    destruct (in_space_dash c1); cbn [mbind result_bind] in H; [|done].
    destruct (Py.int _) eqn:Ei; cbn [mbind result_bind] in H; [done|].
    inversion H; subst. by apply int_raises in Ei.
Qed.

Lemma massage_dates_spec year cols : ∀ rec,
  match massage_dates year cols rec with
  | Ok rec' => length rec' = length rec ∧ ∀ j, j ∈ cols → (j < length rec)%nat
  | Raise e => e = ValueError ∨ e = IndexError
  end.
Proof.
  induction cols as [|j cols IH]; intros rec; cbn [massage_dates].
  { split; [done|]. by intros j ?%elem_of_nil. }
  destruct (rec !! j) as [v|] eqn:Ej; [|by right].
  apply lookup_lt_Some in Ej.
  assert (Hsame : match massage_dates year cols rec with
                  | Ok rec' => length rec' = length rec ∧
                               ∀ i, i ∈ j :: cols → (i < length rec)%nat
                  | Raise e => e = ValueError ∨ e = IndexError
                  end).
  { specialize (IH rec). destruct (massage_dates year cols rec); [|done].
    destruct IH as [H1 H2]. split; [done|]. by intros i [->|Hi]%elem_of_cons; auto. }
  destruct v as [s|]; [|done]. destruct (Py.truthy s); [|done].
  destruct (massage_date year s) as [s'|e] eqn:Es.
  - cbn [mbind result_bind]. specialize (IH (<[j := Some s']> rec)).
    destruct (massage_dates year cols _); [|done].
    rewrite length_insert in IH. destruct IH as [H1 H2]. split; [done|].
    by intros i [->|Hi]%elem_of_cons; auto.
  - cbn [mbind result_bind]. left. by eapply massage_date_raises.
Qed.

Lemma massage_numbers_shape cols : ∀ rec,
  match massage_numbers cols rec with
  | Ok (Some rec') => length rec' = length rec ∧ ∀ j, j ∈ cols → (j < length rec)%nat
  | Ok None => True
  | Raise e => e = IndexError
  end.
Proof.
  induction cols as [|j cols IH]; intros rec.
  { cbn. split; [done|]. by intros j ?%elem_of_nil. }
  rewrite massage_numbers_cons.
  destruct (rec !! j) as [v|] eqn:Ej; [|done].
  apply lookup_lt_Some in Ej.
  assert (Hsame : match massage_numbers cols rec with
                  | Ok (Some rec') => length rec' = length rec ∧
                                      ∀ i, i ∈ j :: cols → (i < length rec)%nat
                  | Ok None => True
                  | Raise e => e = IndexError
                  end).
  { specialize (IH rec). destruct (massage_numbers cols rec) as [[rec'|]|]; try done.
    destruct IH as [H1 H2]. split; [done|]. by intros i [->|Hi]%elem_of_cons; auto. }
  destruct v as [[|c s]|]; try done.
  destruct (negb (Py.head_isdigit (String c s))); [|done]. cbv zeta.
  destruct (String.eqb _ ""); [done|].
  specialize (IH (<[j := Some (Py.sub_nonNumber (String c s))]> rec)).
  destruct (massage_numbers cols _) as [[rec'|]|]; try done.
  rewrite length_insert in IH. destruct IH as [H1 H2]. split; [done|].
  by intros i [->|Hi]%elem_of_cons; auto.
Qed.

Lemma decode_shape year p rs :
  match decode year p rs with
  | Ok (Some rec) =>
      (length rec ≤ length (columnNames p))%nat ∧
      ∀ j, j ∈ dateColumns p ∨ j ∈ numberColumns p → (j < length rec)%nat
  | Ok None => True
  | Raise e => e = ValueError ∨ e = IndexError
  end.
Proof.
  unfold decode.
  destruct (splitRow _ _ rs None) as [fields|e] eqn:Es; cbn [mbind result_bind].
  2:{ apply splitRow_raises in Es as [(pre & ? & _)|[-> _]]; [done|by left]. }
  pose proof (massage_dates_spec year (dateColumns p)
                (null_empty (primaryKeyIndexes p) (take (length (columnNames p)) fields))) as Hd.
  destruct (massage_dates year _ _) as [rec3|e]; cbn [mbind result_bind]; [|done].
  rewrite null_empty_length, length_take in Hd. destruct Hd as [Hl Hd].
  pose proof (massage_numbers_shape (numberColumns p) rec3) as Hn.
  destruct (massage_numbers _ rec3) as [[rec|]|e]; [|done|by right].
  destruct Hn as [Hl' Hn]. split; [lia|].
  intros j [Hj|Hj]; [rewrite Hl', Hl; by apply Hd|rewrite Hl'; by apply Hn].
Qed.

Lemma nextRecord_fuel_spec year n : ∀ p r p',
  nextRecord_fuel n year p = Some (r, p') →
  set_latestRecordNum (set_eFile p' (eFile p)) (latestRecordNum p) = p ∧
  raw (eFile p') = raw (eFile p) ∧ seekable (eFile p') = seekable (eFile p) ∧
  latestRecordNum p ≤ latestRecordNum p' ∧
  match r with
  | Ok (Some rec) =>
      latestRecordNum p < latestRecordNum p' ∧
      (length rec ≤ length (columnNames p))%nat ∧
      ∀ j, j ∈ dateColumns p ∨ j ∈ numberColumns p → (j < length rec)%nat
  | Ok None => True
  | Raise e => latestRecordNum p < latestRecordNum p' ∧ (e = ValueError ∨ e = IndexError)
  end.
Proof.
  induction n as [|n IH]; intros p r p' H; [done|]. cbn [nextRecord_fuel] in H.
  unfold nextRowString in H.
  destruct (nextRowString_loop _ true true [] _) as [lst ls'].
  set (rs := match lst with [] => None | _ => Some (Py.join "" lst) end) in H.
  destruct rs as [s|].
  2:{ inversion H; subst. destruct p. cbn. repeat split; first [done | lia]. }
  destruct (Py.truthy s).
  2:{ inversion H; subst. destruct p. cbn. repeat split; first [done | lia]. }
  set (p2 := set_latestRecordNum _ _) in H.
  pose proof (decode_shape year p2 s) as Hd.
  destruct (decode year p2 s) as [[rec|]|e].
  - inversion H; subst. destruct p. cbn in *. repeat split; first [done | lia | apply Hd].
  - apply IH in H as (H1 & H2 & H3 & H4 & H5).
    assert (Hh : columnNames p2 = columnNames p ∧ dateColumns p2 = dateColumns p ∧
                 numberColumns p2 = numberColumns p) by done.
    destruct Hh as (Hc & Hdc & Hnc). rewrite Hc, Hdc, Hnc in H5.
    split; [|split; [done|split; [done|]]].
    + destruct p, p'. cbn in *. by inversion H1; subst.
    + subst p2. cbn in *. split; [lia|].
      destruct r as [[rec|]|e]; [|done|]; (split; [lia|apply H5]).
  - inversion H; subst. destruct p. cbn in *. repeat split; first [done | lia].
Qed.

(** What a call that raises has done by then. *)
Lemma nextRecord_depth_raises year d : ∀ p e p',
  nextRecord_depth d year p = (Raise e, p') →
  (e = ValueError ∨ e = IndexError ∨ e = RecursionError) ∧
  latestRecordNum p < latestRecordNum p' ∧
  (length (pending (eFile p')) < length (pending (eFile p)))%nat.
Proof.
  induction d as [|d IH]; intros p e p' H; rewrite nextRecord_depth_eq in H;
    destruct (nextRowString (recordDelim p) true (eFile p)) as [[rs|] f'] eqn:E;
    try done;
    apply nextRowString_shrinks in E as [_ E]; specialize (E (mk_is_Some _ _ eq_refl));
    (destruct (Py.truthy rs); [|done]); cbv zeta in H;
    match type of H with
    | context [decode ?y ?q ?r] =>
        pose proof (decode_shape y q r) as Hd; destruct (decode y q r) as [[rec|]|e']
    end; try done.
  - inversion H; subst. cbn. split; [tauto|]. split; [lia|done].
  - inversion H; subst. cbn. split; [tauto|]. split; [lia|done].
  - apply IH in H as (H1 & H2 & H3). cbn in *. split; [done|]. split; lia.
  - inversion H; subst. cbn. split; [tauto|]. split; [lia|done].
Qed.

Lemma nextRecord_spec year p r p' :
  nextRecord year p = (r, p') →
  set_latestRecordNum (set_eFile p' (eFile p)) (latestRecordNum p) = p ∧
  raw (eFile p') = raw (eFile p) ∧ seekable (eFile p') = seekable (eFile p) ∧
  latestRecordNum p ≤ latestRecordNum p' ∧
  match r with
  | Ok (Some rec) =>
      latestRecordNum p < latestRecordNum p' ∧
      (length rec ≤ length (columnNames p))%nat ∧
      ∀ j, j ∈ dateColumns p ∨ j ∈ numberColumns p → (j < length rec)%nat
  | Ok None => True
  | Raise e => latestRecordNum p < latestRecordNum p' ∧ (e = ValueError ∨ e = IndexError)
  end.
Proof.
  intros H. pose proof (nextRecord_total year p) as Ht. rewrite H in Ht.
  by apply nextRecord_fuel_spec in Ht.
Qed.

Lemma append_inj_l s a b : s +:+ a = s +:+ b → a = b.
Proof.
  induction s as [|c s IH]; [done|]. rewrite !append_cons. intros [= H]. by apply IH.
Qed.

Lemma append_suffix_ne s a b : a ≠ b → s +:+ a ≠ s +:+ b.
Proof. intros Hne H. by apply append_inj_l in H. Qed.

Lemma append_ne s a : a ≠ "" → s +:+ a ≠ s.
Proof.
  intros Hne H. rewrite <- (append_nil_r s) in H at 2. by apply append_inj_l in H.
Qed.

(** *** The null policy *)

Lemma massage_dates_none year cols : ∀ rec rec',
  massage_dates year cols rec = Ok rec' →
  ∀ i, rec' !! i = Some None ↔ rec !! i = Some None.
Proof.
  induction cols as [|j cols IH]; intros rec rec' H i; cbn [massage_dates] in H.
  { by inversion H. }
  destruct (rec !! j) as [[s|]|] eqn:Ej; [|by apply IH|done].
  destruct (Py.truthy s); [|by apply IH].
  destruct (massage_date year s) as [s'|]; [|done]. cbn [mbind result_bind] in H.
  rewrite (IH _ _ H i). destruct (decide (i = j)) as [->|Hne].
  - rewrite list_lookup_insert_eq by by eapply lookup_lt_Some. by rewrite Ej.
  - by rewrite list_lookup_insert_ne.
Qed.

Lemma massage_numbers_none cols : ∀ rec rec',
  massage_numbers cols rec = Ok (Some rec') →
  ∀ i, rec' !! i = Some None ↔ rec !! i = Some None.
Proof.
  induction cols as [|j cols IH]; intros rec rec' H i.
  { cbn in H. by inversion H. }
  rewrite massage_numbers_cons in H.
  destruct (rec !! j) as [[[|c s]|]|] eqn:Ej; [by apply IH| |by apply IH|done].
  destruct (negb (Py.head_isdigit _)); [|by apply IH]. cbv zeta in H.
  destruct (String.eqb _ ""); [done|].
  rewrite (IH _ _ H i). destruct (decide (i = j)) as [->|Hne].
  - rewrite list_lookup_insert_eq by by eapply lookup_lt_Some. by rewrite Ej.
  - by rewrite list_lookup_insert_ne.
Qed.

Lemma null_empty_none pk rec i :
  null_empty pk rec !! i = Some None ↔ rec !! i = Some "" ∧ i ∉ pk.
Proof.
  unfold null_empty. rewrite list_lookup_imap.
  destruct (rec !! i) as [v|]; cbn; [|by split; [|intros []]].
  destruct (String.eqb v "") eqn:E.
  - apply String.eqb_eq in E as ->. case_bool_decide; cbn; split; try done.
    by intros [_ ?].
  - cbn. split; [done|]. intros [[= ->] _]. by rewrite String.eqb_refl in E.
Qed.

Lemma decode_none year p rs fields rec :
  splitRow (recordDelim p) (fieldDelim p) rs None = Ok fields →
  decode year p rs = Ok (Some rec) →
  ∀ i, rec !! i = Some None ↔
       fields !! i = Some "" ∧ (i < length (columnNames p))%nat ∧ i ∉ primaryKeyIndexes p.
Proof.
  intros Hs H i. unfold decode in H. rewrite Hs in H. cbn [mbind result_bind] in H.
  destruct (massage_dates year _ _) as [rec3|] eqn:Ed; [|done]. cbn [mbind result_bind] in H.
  rewrite (massage_numbers_none _ _ _ H), (massage_dates_none _ _ _ _ Ed), null_empty_none.
  destruct (decide (i < length (columnNames p))%nat) as [Hlt|Hge].
  - rewrite lookup_take_lt by done. tauto.
  - rewrite lookup_take_ge by lia. split; [by intros []|]. intros (_ & ? & _). lia.
Qed.

Lemma dict_zip_absent {V} (ks : list string) : ∀ (vs : list V) (m : gmap string V) k,
  k ∉ ks → foldl (λ m kv, <[kv.1 := kv.2]> m) m (zip ks vs) !! k = m !! k.
Proof.
  induction ks as [|k0 ks IH]; intros [|v vs] m k Hk; simpl; try done.
  rewrite IH.
  - apply lookup_insert_ne. intros ->. apply Hk. by left.
  - intros Hin. apply Hk. by right.
Qed.

End ParserFacts.

Module IngesterFacts.
Import EPFParser EPFIngester Spec ParserFacts.

Section Escape.
Variable literal : option string → string.
Variable mogrify : option string → string.

Lemma escape_loop_spec mysql pk recs : ∀ keys acc out,
  escape_loop literal mogrify mysql pk keys recs acc = Ok out →
  (∀ r, r ∈ recs → ∃ m, marker_of pk r = Ok m) ∧
  ∃ kept : list nat,
    StronglySorted lt kept ∧
    out = acc ++ ((λ i, (if mysql then literal else mogrify) <$> default [] (recs !! i)) <$> kept) ∧
    ∀ i, i ∈ kept ↔
         ∃ r m, recs !! i = Some r ∧ marker_of pk r = Ok m ∧ keys !! m = None ∧
                ∀ j r', (j < i)%nat → recs !! j = Some r' → marker_of pk r' ≠ Ok m.
Proof.
  induction recs as [|r rs IH]; intros keys acc out H; cbn [escape_loop] in H.
  { inversion H; subst. split; [by intros r Hr%elem_of_nil|].
    exists []. split; [constructor|]. split; [by rewrite app_nil_r|].
    intros i. split; [by intros Hi%elem_of_nil|]. by intros (r & m & Hr & _). }
  destruct (marker_of pk r) as [m|] eqn:Em; [|done].
  destruct (keys !! m) as [v|] eqn:Ek.
  - apply IH in H as (Hall & kept & Hs & Hout & Hiff). split.
    { intros r0 [->|Hr]%elem_of_cons; eauto. }
    exists (S <$> kept). split.
    { clear -Hs. induction Hs as [|x l Hs IHs Hx]; [constructor|].
      cbn. constructor; [done|]. apply Forall_fmap. eapply Forall_impl; [done|].
      intros y Hy. cbn. lia. }
    split.
    { rewrite Hout. f_equal. rewrite <- list_fmap_compose. done. }
    intros i. rewrite list_elem_of_fmap. split.
    + intros (i' & -> & Hi'). apply Hiff in Hi' as (r1 & m1 & Hr1 & Hm1 & Hk1 & Hlt).
      exists r1, m1. repeat split; try done.
      intros [|j] r' Hj Hr'; cbn in Hr'.
      * inversion Hr'; subst. rewrite Em. intros [=->]. congruence.
      * apply (Hlt j); [lia|done].
    + intros (r1 & m1 & Hr1 & Hm1 & Hk1 & Hlt). destruct i as [|i'].
      * cbn in Hr1. inversion Hr1; subst. congruence.
      * exists i'. split; [done|]. apply Hiff. exists r1, m1. repeat split; try done.
        intros j r' Hj Hr'. apply (Hlt (S j)); [lia|done].
  - apply IH in H as (Hall & kept & Hs & Hout & Hiff). split.
    { intros r0 [->|Hr]%elem_of_cons; eauto. }
    exists (O :: (S <$> kept)). split.
    { constructor.
      - clear -Hs. induction Hs as [|x l Hs IHs Hx]; [constructor|].
        cbn. constructor; [done|]. apply Forall_fmap. eapply Forall_impl; [done|].
        intros y Hy. cbn. lia.
      - apply Forall_fmap, Forall_true. intros y. cbn. lia. }
    split.
    { rewrite Hout, <- app_assoc. f_equal. cbn. f_equal.
      rewrite <- list_fmap_compose. done. }
    intros i. rewrite elem_of_cons, list_elem_of_fmap. split.
    + intros [->|(i' & -> & Hi')].
      * exists r, m. repeat split; try done. intros j r' Hj. lia.
      * apply Hiff in Hi' as (r1 & m1 & Hr1 & Hm1 & Hk1 & Hlt).
        apply lookup_insert_None in Hk1 as [Hk1 Hne].
        exists r1, m1. repeat split; try done.
        intros [|j] r' Hj Hr'; cbn in Hr'.
        -- inversion Hr'; subst. rewrite Em. by intros [=->].
        -- apply (Hlt j); [lia|done].
    + intros (r1 & m1 & Hr1 & Hm1 & Hk1 & Hlt). destruct i as [|i']; [by left|].
      right. exists i'. split; [done|]. apply Hiff. exists r1, m1.
      repeat split; try done.
      * apply lookup_insert_None. split; [done|]. intros ->.
        apply (Hlt O r); [lia|done|done].
      * intros j r' Hj Hr'. apply (Hlt (S j)); [lia|done].
Qed.

(** With an empty primary key every row has the marker [()]. *)
Lemma escape_loop_no_key mysql recs : ∀ keys acc,
  keys !! [] = Some 1 →
  escape_loop literal mogrify mysql [] keys recs acc = Ok acc.
Proof.
  induction recs as [|r rs IH]; intros keys acc Hk; cbn; [done|].
  rewrite Hk. by apply IH.
Qed.

End Escape.

(** *** Running computations *)

Lemma bind_Ok {A B} (m : M A) (k : A → M B) st b st' :
  bind m k st = (Ok b, st') →
  ∃ a st1, m st = (Ok a, st1) ∧ k a st1 = (Ok b, st').
Proof.
  unfold bind. destruct (m st) as [[a|e] st1]; [eauto|done].
Qed.

Lemma bind_run {A B} (m : M A) (k : A → M B) st a st1 :
  m st = (Ok a, st1) → bind m k st = k a st1.
Proof. unfold bind. by intros ->. Qed.

Lemma self_run st : self st = (Ok st.1, st).
Proof. done. Qed.

(** A backend call leaves everything but the fault script as it is. *)
Lemma backend_call_run g w :
  backend_call (g, w) =
  (match head (faults w) with
   | Some (Fail k) => Raise (DbException k)
   | _ => Ok tt
   end, (g, set_faults w (tail (faults w)))).
Proof.
  unfold backend_call, bind, world, update_world. cbn [fst snd].
  by destruct (head (faults w)) as [[|k]|].
Qed.

(** *** What a computation leaves unchanged *)

#[global] Instance unchanged_refl {X} (f : Ingester → X) : Reflexive (unchanged f).
Proof. by intros st. Qed.
#[global] Instance unchanged_trans {X} (f : Ingester → X) : Transitive (unchanged f).
Proof. unfold unchanged. intros st1 st2 st3 H1 H2. congruence. Qed.

Section Keeps.
Context (R : relation St) `{!Reflexive R, !Transitive R}.

Lemma keeps_ret {A} (a : A) : keeps R (ret a).
Proof. intros st r st' [= <- <-]. reflexivity. Qed.

Lemma keeps_raise {A} e : keeps R (@raise A e).
Proof. intros st r st' [= <- <-]. reflexivity. Qed.

Lemma keeps_self : keeps R self.
Proof. intros st r st' [= <- <-]. reflexivity. Qed.

Lemma keeps_world : keeps R world.
Proof. intros st r st' [= <- <-]. reflexivity. Qed.

Lemma keeps_bind {A B} (m : M A) (k : A → M B) :
  keeps R m → (∀ a, keeps R (k a)) → keeps R (bind m k).
Proof.
  intros Hm Hk st r st'. unfold bind.
  destruct (m st) as [[a|e] st1] eqn:E; intros H.
  - etrans; [by eapply Hm|by eapply Hk].
  - inversion H; subst. by eapply Hm.
Qed.

Lemma keeps_try_except {A} (m : M A) h :
  keeps R m → (∀ e k, h e = Some k → keeps R k) → keeps R (try_except m h).
Proof.
  intros Hm Hh st r st'. unfold try_except.
  destruct (m st) as [[a|e] st1] eqn:E; intros H.
  - inversion H; subst. by eapply Hm.
  - destruct (h e) as [k|] eqn:Ee.
    + etrans; [by eapply Hm|by eapply Hh].
    + inversion H; subst. by eapply Hm.
Qed.

Lemma keeps_update f : (∀ g w, R (g, w) (f g, w)) → keeps R (update f).
Proof. intros Hf [g w] r st' [= <- <-]. apply Hf. Qed.

Lemma keeps_update_world f : (∀ g w, R (g, w) (g, f w)) → keeps R (update_world f).
Proof. intros Hf [g w] r st' [= <- <-]. apply Hf. Qed.

Lemma keeps_when b m : keeps R m → keeps R (when b m).
Proof. destruct b; [done|]. intros _. apply keeps_ret. Qed.

Lemma keeps_repeat_M n m : keeps R m → keeps R (repeat_M n m).
Proof.
  intros Hm. induction n as [|n IH]; cbn; [apply keeps_ret|].
  apply keeps_bind; [done|by intros _].
Qed.
End Keeps.

Ltac keeps_handler H :=
  cbv beta in H;
  repeat match type of H with
         | context [match ?x with _ => _ end] => destruct x
         | context [if ?b then _ else _] => destruct b
         end;
  try discriminate H; inversion H; subst; clear H.

Ltac keeps_step :=
  lazymatch goal with
  | |- Reflexive _ => tc_solve
  | |- Transitive _ => tc_solve
  | |- ∀ _ _, _ = Some _ → keeps _ _ =>
      let e := fresh "e" in let k := fresh "k" in let H := fresh "H" in
      intros e k H; unfold abort_clause, resume_clause in H; keeps_handler H
  | |- ∀ _, _ => intros ?
  | |- keeps _ (ret _) => apply keeps_ret
  | |- keeps _ (raise _) => apply keeps_raise
  | |- keeps _ (warn _) => apply keeps_raise
  | |- keeps _ self => apply keeps_self
  | |- keeps _ world => apply keeps_world
  | |- keeps _ (bind _ _) => apply keeps_bind
  | |- keeps _ (try_except _ _) => apply keeps_try_except
  | |- keeps _ (when _ _) => apply keeps_when
  | |- keeps _ (repeat_M _ _) => apply keeps_repeat_M
  | |- keeps _ (update _) => apply keeps_update; intros ? ?; unfold unchanged; reflexivity
  | |- keeps _ (update_world _) =>
      apply keeps_update_world; intros ? ?; unfold unchanged; reflexivity
  | |- keeps _ (if ?b then _ else _) => destruct b
  | |- keeps _ (match ?x with _ => _ end) => destruct x
  | |- keeps _ (let _ := _ in _) => cbv zeta
  end.

Ltac keeps_auto := repeat first [solve [auto 2] | keeps_step].

Section Frames.
Context {X : Type} (f : Ingester → X).

Lemma keeps_log l msg : keeps (unchanged f) (log l msg).
Proof. unfold log. keeps_auto. Qed.

Lemma keeps_now : keeps (unchanged f) now.
Proof. unfold now. keeps_auto. Qed.

Lemma keeps_backend_call : keeps (unchanged f) backend_call.
Proof. unfold backend_call. keeps_auto. Qed.

Lemma keeps_execute s : keeps (unchanged f) (execute s).
Proof. unfold execute. pose proof keeps_backend_call. keeps_auto. Qed.

Lemma keeps_tableExists tn c : keeps (unchanged f) (tableExists tn c).
Proof.
  unfold tableExists, default_table, connect.
  pose proof keeps_backend_call. pose proof keeps_execute. keeps_auto.
Qed.

Lemma keeps_rename g a b : keeps (unchanged f) (rename g a b).
Proof.
  unfold rename, commit. pose proof keeps_backend_call. pose proof keeps_execute.
  keeps_auto.
Qed.

Lemma keeps_renameAndDrop a b : keeps (unchanged f) (_renameAndDrop a b).
Proof.
  unfold _renameAndDrop, connect, commit.
  pose proof keeps_backend_call. pose proof keeps_execute. pose proof keeps_log.
  pose proof keeps_tableExists. pose proof keeps_rename.
  keeps_auto.
Qed.

Lemma keeps_createCustomIndexes file tn : keeps (unchanged f) (_createCustomIndexes file tn).
Proof.
  unfold _createCustomIndexes, connect, commit.
  pose proof keeps_backend_call. pose proof keeps_execute. pose proof keeps_log.
  keeps_auto.
Qed.

Lemma keeps_escapeRecords lit mog recs c : keeps (unchanged f) (_escapeRecords lit mog recs c).
Proof.
  unfold _escapeRecords, connect. pose proof keeps_backend_call. keeps_auto.
Qed.
End Frames.

Section Driver.
Variable literal : option string → string.
Variable mogrify : option string → string.

(** Writing a batch does not touch the parser. *)
Lemma keeps_parser_write_batch tn inc skip recs :
  keeps (unchanged parser) (write_batch literal mogrify tn inc skip recs).
Proof.
  unfold write_batch, _checkProgress.
  pose proof (keeps_backend_call parser). pose proof (keeps_execute parser).
  pose proof (keeps_log parser). pose proof (keeps_now parser).
  pose proof (keeps_escapeRecords parser literal mogrify).
  keeps_auto.
Qed.

(** *** Fuel of the batch loop *)

Lemma nextRecord_fuel_shrinks year n : ∀ p r p',
  nextRecord_fuel n year p = Some (r, p') →
  (length (pending (eFile p')) ≤ length (pending (eFile p)))%nat ∧
  (∀ rec, r = Ok (Some rec) →
          (length (pending (eFile p')) < length (pending (eFile p)))%nat).
Proof.
  induction n as [|n IH]; intros p r p' H; [done|]. cbn [nextRecord_fuel] in H.
  destruct (nextRowString (recordDelim p) true (eFile p)) as [[rs|] f'] eqn:E;
    apply nextRowString_shrinks in E as [E1 E2].
  2:{ inversion H; subst. cbn. split; [done|]. by intros rec. }
  specialize (E2 (mk_is_Some _ _ eq_refl)).
  destruct (Py.truthy rs).
  2:{ inversion H; subst. cbn. split; [lia|]. by intros rec. }
  destruct (decode year _ rs) as [[rec|]|e].
  - inversion H; subst. cbn. split; [lia|]. intros; lia.
  - apply IH in H as [H1 H2]. cbn in *. split; [lia|]. intros rec Hr.
    specialize (H2 rec Hr). lia.
  - inversion H; subst. cbn. split; [lia|]. intros; lia.
Qed.

Lemma nextRecord_shrinks year p r p' :
  nextRecord year p = (r, p') →
  (length (pending (eFile p')) ≤ length (pending (eFile p)))%nat ∧
  (∀ rec, r = Ok (Some rec) →
          (length (pending (eFile p')) < length (pending (eFile p)))%nat).
Proof.
  intros H. pose proof (nextRecord_total year p) as Ht. rewrite H in Ht.
  by apply nextRecord_fuel_shrinks in Ht.
Qed.

Lemma nextRecords_loop_shrinks year n : ∀ p acc recs p',
  nextRecords_loop n year p acc = (Ok recs, p') →
  (length (pending (eFile p')) ≤ length (pending (eFile p)))%nat ∧
  (length acc ≤ length recs)%nat ∧
  ((length acc < length recs)%nat →
   (length (pending (eFile p')) < length (pending (eFile p)))%nat).
Proof.
  induction n as [|n IH]; intros p acc recs p' H; cbn [nextRecords_loop] in H.
  { inversion H; subst. lia. }
  destruct (nextRecord year p) as [[[[|v rec]|]|e] p1] eqn:E;
    apply nextRecord_shrinks in E as [E1 E2]; try (inversion H; subst; lia).
  apply IH in H as (H1 & H2 & H3). rewrite length_app in *. cbn in *.
  specialize (E2 _ eq_refl). lia.
Qed.

Lemma populate_loop_enough tn inc skip fuel : ∀ st,
  (length (pending (eFile (parser st.1))) < fuel)%nat →
  is_Some (populate_loop literal mogrify fuel tn inc skip st).
Proof.
  induction fuel as [|fuel IH]; intros [g w] Hlt; [cbn in Hlt; lia|].
  cbn [populate_loop].
  destruct (nextRecords batchSize (today_year w) (parser g)) as [[[|r recs]|e] p'] eqn:E;
    [done| |done].
  apply nextRecords_loop_shrinks in E as (E1 & E2 & E3).
  destruct (write_batch _ _ _ _ _ _ _) as [[[]|e] st'] eqn:Ew; [|done].
  apply IH. apply keeps_parser_write_batch in Ew. unfold unchanged in Ew.
  rewrite Ew. cbn in *. specialize (E3 ltac:(lia)). lia.
Qed.

(** The batch loop always comes to an end: the fuel never runs out. *)
Lemma populate_batches_total tn inc skip st :
  populate_loop literal mogrify (S (length (pending (eFile (parser st.1))))) tn inc skip st
  = Some (populate_batches literal mogrify tn inc skip st).
Proof.
  unfold populate_batches.
  destruct (populate_loop_enough tn inc skip
              (S (length (pending (eFile (parser st.1))))) st) as [r ->]; [lia|done].
Qed.

End Driver.

Section DriverFrames.
Variable literal : option string → string.
Variable mogrify : option string → string.

(** *** What a resumed full ingest never touches *)

Lemma keeps_abort_write_batch tn inc skip recs :
  keeps (unchanged abort_state) (write_batch literal mogrify tn inc skip recs).
Proof.
  unfold write_batch, _checkProgress.
  pose proof (keeps_backend_call abort_state). pose proof (keeps_execute abort_state).
  pose proof (keeps_log abort_state). pose proof (keeps_now abort_state).
  pose proof (keeps_escapeRecords abort_state literal mogrify).
  keeps_auto.
Qed.

Lemma keeps_abort_populate_loop tn inc skip fuel : ∀ st r st',
  populate_loop literal mogrify fuel tn inc skip st = Some (r, st') →
  unchanged abort_state st st'.
Proof.
  induction fuel as [|fuel IH]; intros [g w] r st' H; [done|].
  cbn [populate_loop] in H.
  destruct (nextRecords batchSize (today_year w) (parser g)) as [[[|rec recs]|e] p'];
    try by inversion H.
  destruct (write_batch _ _ _ _ _ _ _) as [[[]|e] st1] eqn:Ew.
  - apply IH in H. apply keeps_abort_write_batch in Ew.
    unfold unchanged in *. by rewrite H, Ew.
  - inversion H; subst. by apply keeps_abort_write_batch in Ew.
Qed.

Lemma keeps_abort_populate_batches tn inc skip :
  keeps (unchanged abort_state) (populate_batches literal mogrify tn inc skip).
Proof.
  intros st r st' H. pose proof (populate_batches_total literal mogrify tn inc skip st) as Ht.
  rewrite H in Ht. by apply keeps_abort_populate_loop in Ht.
Qed.

Lemma keeps_abort_populateTable tn from inc skip :
  keeps (unchanged abort_state) (_populateTable literal mogrify tn from inc skip).
Proof.
  unfold _populateTable, connect, commit.
  pose proof (keeps_backend_call abort_state). pose proof (keeps_execute abort_state).
  pose proof (keeps_log abort_state).
  pose proof (keeps_createCustomIndexes abort_state).
  pose proof keeps_abort_populate_batches.
  keeps_auto.
Qed.

Lemma keeps_abort_ingestFullResume from skip :
  keeps (unchanged abort_state) (ingestFullResume literal mogrify from skip).
Proof.
  unfold ingestFullResume.
  pose proof (keeps_log abort_state). pose proof (keeps_now abort_state).
  pose proof (keeps_renameAndDrop abort_state).
  pose proof keeps_abort_populateTable.
  keeps_auto.
Qed.

End DriverFrames.

(** *** Running the store calls symbolically *)

Ltac run :=
  cbv beta iota zeta delta
    [bind ret raise self update world update_world try_except when log warn now
     backend_call connect commit execute tableExists columnCount default_table
     rename is_db_Error run_stmt
     fst snd head tail
     tables faults clock today_year submitted logged
     set_tables set_faults set_clock set_submitted set_logged].

Ltac maps :=
  repeat first [ rewrite lookup_insert_eq | rewrite lookup_delete_eq
               | rewrite lookup_insert_ne by done
               | rewrite lookup_delete_ne by done ].

Lemma length_append s t :
  String.length (s +:+ t) = (String.length s + String.length t)%nat.
Proof. induction s as [|c s IH]; simpl; [done|]. by rewrite IH. Qed.

Lemma append_old_ne s : s +:+ "_old" ≠ s.
Proof.
  intros H. apply (f_equal String.length) in H.
  rewrite length_append in H. cbn in H. lia.
Qed.

Lemma truthy_old s : Py.truthy (s +:+ "_old") = true.
Proof. by destruct s. Qed.

(** *** Construction of the ingester *)

Lemma new_inv path prefix db type rd fd content can_seek size w0 g w :
  new path prefix db type rd fd content can_seek size w0 = Ok (g, w) →
  ∃ ns p,
    new_names path prefix db type = Ok ns ∧
    EPFParser.init content can_seek size
      (if isPostgresql ns then postgresql_typeMap else mysql_typeMap) rd fd = Ok p ∧
    names g = ns ∧ parser g = p ∧
    isPostgresql ns = String.eqb type "postgresql" ∧
    isMysql ns = String.eqb type "mysql" ∧
    tables w = tables w0 ∧ faults w = faults w0.
Proof.
  unfold new. intros H.
  destruct (new_names path prefix db type) as [ns|] eqn:En; [|done].
  cbn [mbind result_bind] in H.
  destruct (EPFParser.init _ _ _ _ _ _) as [p|] eqn:Ep; [|done].
  cbn [mbind result_bind] in H.
  exists ns, p. split; [done|]. split; [done|].
  assert (isPostgresql ns = String.eqb type "postgresql" ∧
          isMysql ns = String.eqb type "mysql") as [H1 H2].
  { unfold new_names in En.
    destruct (if Py.contains _ "." then _ else _) as [sp|]; [|done].
    cbn [mbind result_bind] in En. by inversion En. }
  unfold bind, updateStatusDict, now, update, update_world, world, ret in H.
  cbn [fst snd] in H. inversion H; subst; clear H.
  by destruct w0.
Qed.

(** *** The column check of the incremental ingest *)

Lemma ingestIncremental_column_check literal mogrify fromRecord skip g w live :
  tables w !! tableName (names g) = Some live →
  calm 4 w →
  let n := table_columns live in
  let m := length (columnNames (parser g)) in
  ∃ w1,
    tables w1 = tables w ∧ logged w1 = logged w ∧
    ingestIncremental literal mogrify fromRecord skip (g, w) =
    if (n <=? m)%nat then
      if (n <? m)%nat then (Raise DeprecationWarning, (g, w1))
      else bind (incremental_frame (incremental_try literal mogrify fromRecord skip))
                (λ _, updateStatusDict) (g, w1)
    else (Raise AssertionError, (g, w1)).
Proof.
  intros Hlive Hcalm n m. unfold calm in Hcalm.
  destruct w as [ts fl ck yr sub lg]. cbn [tables faults logged] in *.
  unfold ingestIncremental, check_columns.
  assert (Htn : (if Py.truthy (tableName (names g))
                 then tableName (names g) else tableName (names g)) = tableName (names g)).
  { by destruct (Py.truthy _). }
  destruct fl as [|f1 [|f2 [|f3 [|f4 fl]]]]; cbn [take] in Hcalm;
    repeat match goal with
           | H : Forall _ (_ :: _) |- _ =>
               let Hx := fresh in apply Forall_cons in H as [Hx H]; cbv beta in Hx; subst
           end.
  all: destruct (isPostgresql (names g)) eqn:Hpg.
  all: eexists {| tables := ts; faults := _; clock := ck; today_year := yr;
                  submitted := _; logged := lg |};
       cbn [tables logged]; (split; [done|]); (split; [done|]).
  all: assert (Hte : Py.truthy "" = false) by done.
  all: repeat (run; cbv beta iota delta [negb]; rewrite ?Hte, ?Htn, ?Hpg, ?Hlive; fold n m).
  all: destruct (n <=? m)%nat eqn:Hle; [destruct (n <? m)%nat eqn:Hlt|].
  all: rewrite ?Hle, ?Hlt; run; reflexivity.
Qed.

Lemma nextRecord_fuel_raise_shrinks year n : ∀ p e p',
  nextRecord_fuel n year p = Some (Raise e, p') →
  (length (pending (eFile p')) < length (pending (eFile p)))%nat.
Proof.
  induction n as [|n IH]; intros p e p' H; [done|]. cbn [nextRecord_fuel] in H.
  destruct (nextRowString (recordDelim p) true (eFile p)) as [[rs|] f'] eqn:E;
    apply nextRowString_shrinks in E as [E1 E2]; [|done].
  specialize (E2 (mk_is_Some _ _ eq_refl)).
  destruct (Py.truthy rs); [|done].
  destruct (decode year _ rs) as [[rec|]|e'].
  - done.
  - apply IH in H. cbn in *. lia.
  - inversion H; subst. cbn. lia.
Qed.

Lemma nextRecords_loop_spec year n : ∀ p acc recs p',
  nextRecords_loop n year p acc = (Ok recs, p') →
  columnNames p' = columnNames p ∧
  ∃ new, recs = acc ++ new ∧ (length new ≤ n)%nat ∧
         Forall (λ rec, rec ≠ [] ∧ (length rec ≤ length (columnNames p))%nat) new ∧
         latestRecordNum p + Z.of_nat (length new) ≤ latestRecordNum p' ∧
         (length (pending (eFile p')) + length new ≤ length (pending (eFile p)))%nat.
Proof.
  induction n as [|n IH]; intros p acc recs p' H; cbn [nextRecords_loop] in H.
  { inversion H; subst. split; [done|]. exists []. rewrite app_nil_r.
    repeat split; first [done | cbn; lia | constructor]. }
  destruct (nextRecord year p) as [r p1] eqn:E.
  pose proof (nextRecord_spec _ _ _ _ E) as (Hf & _ & _ & Hle & Hr).
  pose proof (nextRecord_shrinks _ _ _ _ E) as [Hs1 Hs2].
  apply (f_equal columnNames) in Hf. cbn in Hf.
  destruct r as [[[|v rec]|]|e]; [| | |by inversion H].
  1,3: inversion H; subst; split; [done|]; exists [];
    rewrite app_nil_r; repeat split; first [done | cbn; lia | constructor].
  apply IH in H as (Hc & new & -> & Hn & Hall & Hl & Hp).
  destruct Hr as (Hlt & Hlen & _). specialize (Hs2 _ eq_refl).
  split; [congruence|]. exists ((v :: rec) :: new). rewrite <- app_assoc.
  split; [done|]. split; [cbn; lia|]. split.
  - constructor; [done|]. by rewrite <- Hf.
  - cbn [length]. lia.
Qed.

Lemma startswith_first_byte c s : Py.startswith s (String c "") = first_byte_is c s.
Proof.
  unfold Py.startswith. destruct s as [|a s]; [done|]. simpl.
  destruct (ascii_dec c a) as [->|Hne].
  - by rewrite Ascii.eqb_refl, prefix_nil.
  - symmetry. apply Ascii.eqb_neq. congruence.
Qed.

Lemma join_first_byte c x l :
  Py.truthy x = true → first_byte_is c (Py.join "" (x :: l)) = first_byte_is c x.
Proof. destruct x; [done|]. by destruct l. Qed.

Lemma nextRowString_loop_no_comment rd ls : ∀ fl lst lst' ls',
  nextRowString_loop rd true fl lst ls = (lst', ls') →
  (fl = false → lst ≠ []) →
  (∀ x l, lst = x :: l → Py.truthy x = true ∧ first_byte_is "#" x = false) →
  ∀ x l, lst' = x :: l → Py.truthy x = true ∧ first_byte_is "#" x = false.
Proof.
  induction ls as [|ln ls IH]; intros fl lst lst' ls' H Hfl Hgood; simpl in H.
  { by inversion H; subst. }
  destruct (Py.truthy ln) eqn:Et; simpl in H; [|by inversion H; subst].
  destruct (first_byte_is "000" ln); [by inversion H; subst|].
  rewrite andb_true_r in H.
  assert (Hnext : first_byte_is "#" ln && fl = false →
            ∀ x l, lst ++ [ln] = x :: l → Py.truthy x = true ∧ first_byte_is "#" x = false).
  { intros Hc x l Hx. destruct lst as [|y lst].
    - inversion Hx; subst. split; [done|].
      destruct fl; [by rewrite andb_true_r in Hc|]. by specialize (Hfl eq_refl).
    - inversion Hx; subst. by eapply Hgood. }
  destruct (first_byte_is "#" ln && fl) eqn:Ec.
  - by eapply IH.
  - destruct (Py.endswith ln rd).
    + inversion H; subst. by apply Hnext.
    + eapply IH; [done| |by apply Hnext]. intros _. by destruct lst.
Qed.

(** *** Positioning *)




Lemma frame_trans p q r :
  set_latestRecordNum (set_eFile q (eFile p)) (latestRecordNum p) = p →
  set_latestRecordNum (set_eFile r (eFile q)) (latestRecordNum q) = q →
  set_latestRecordNum (set_eFile r (eFile p)) (latestRecordNum p) = p.
Proof.
  destruct p, q, r. unfold set_latestRecordNum, set_eFile. cbn.
  intros [= -> -> -> -> -> -> -> -> -> -> -> -> ->] [= -> -> -> -> -> -> -> -> -> -> -> -> ->].
  done.
Qed.


(** *** [advanceToNextRecord] against [nextRowString] *)

Lemma contains_refl s : Py.contains s s = true.
Proof.
  unfold Py.contains. rewrite <- (append_nil_r s) at 2. by rewrite find_split_here.
Qed.

Lemma contains_drop sep m : ∀ s,
  Py.contains (Py.drop m s) sep = true → Py.contains s sep = true.
Proof.
  unfold Py.contains. induction m as [|m IH]; intros s H; [done|].
  destruct s as [|c s]; [done|]. cbn [Py.drop] in H. apply IH in H.
  rewrite find_split_eq. destruct (String.prefix sep (String c s)); [done|].
  by destruct (Py.find_split sep s) as [[b a]|].
Qed.

Lemma endswith_contains s suf : Py.endswith s suf = true → Py.contains s suf = true.
Proof.
  unfold Py.endswith. intros [_ H]%andb_true_iff. apply String.eqb_eq in H.
  apply (contains_drop suf (String.length s - String.length suf)).
  rewrite H. apply contains_refl.
Qed.

Lemma advance_loop_one_line rd ls :
  one_line_stream rd ls →
  advance_loop rd ls =
  (match (nextRowString_loop rd true true [] ls).1 with [] => false | _ => true end,
   (nextRowString_loop rd true true [] ls).2).
Proof.
  induction ls as [|ln ls IH]; intros Hall; [done|].
  destruct Hall as [[(_ & Ht & Hz & He) Hall]|[(_ & Hz & Hc) ->]];
    cbn [advance_loop nextRowString_loop]; unfold commentChar;
    rewrite startswith_first_byte.
  - rewrite Ht, Hz. cbn [negb orb]. rewrite !andb_true_r.
    destruct (first_byte_is "#" ln); [by apply IH|].
    rewrite (He eq_refl), (endswith_contains _ _ (He eq_refl)). done.
  - rewrite Hz, Hc, orb_true_r.
    destruct ln as [|a ln]; [done|]. cbn in Hz. apply Ascii.eqb_eq in Hz as ->. done.
Qed.

(** *** Frames of the table set-up *)

Section SetupFrames.
Context {X : Type} (f : Ingester → X).

Lemma keeps_applyPrimaryKeyConstraints tn :
  keeps (unchanged f) (_applyPrimaryKeyConstraints tn).
Proof.
  unfold _applyPrimaryKeyConstraints, connect, commit.
  pose proof (keeps_backend_call f). pose proof (keeps_execute f).
  keeps_auto.
Qed.

Lemma keeps_createTable tn : keeps (unchanged f) (_createTable tn).
Proof.
  unfold _createTable, connect, commit.
  pose proof (keeps_backend_call f). pose proof (keeps_execute f).
  pose proof keeps_applyPrimaryKeyConstraints.
  keeps_auto.
Qed.

Lemma keeps_dropTable tn : keeps (unchanged f) (_dropTable tn).
Proof.
  unfold _dropTable, connect, commit.
  pose proof (keeps_backend_call f). pose proof (keeps_execute f).
  keeps_auto.
Qed.

Lemma keeps_createUnionTable : keeps (unchanged f) _createUnionTable.
Proof.
  unfold _createUnionTable, connect, commit.
  pose proof (keeps_backend_call f). pose proof (keeps_execute f).
  keeps_auto.
Qed.
End SetupFrames.

Section StrategyFrames.
Variable literal : option string → string.
Variable mogrify : option string → string.

Lemma keeps_abort_full_body skip tmp target :
  keeps (unchanged abort_state)
    (_createTable tmp;;
     _populateTable literal mogrify tmp 0 false skip;;
     _renameAndDrop tmp target).
Proof.
  pose proof (keeps_createTable abort_state).
  pose proof (keeps_renameAndDrop abort_state).
  pose proof (keeps_abort_populateTable literal mogrify).
  keeps_auto.
Qed.

Lemma keeps_abort_incremental_try from skip :
  keeps (unchanged abort_state) (incremental_try literal mogrify from skip).
Proof.
  unfold incremental_try, update_in_place, prune_and_merge.
  pose proof (keeps_createTable abort_state).
  pose proof (keeps_dropTable abort_state).
  pose proof (keeps_createUnionTable abort_state).
  pose proof (keeps_applyPrimaryKeyConstraints abort_state).
  pose proof (keeps_renameAndDrop abort_state).
  pose proof (keeps_log abort_state).
  pose proof (keeps_abort_populateTable literal mogrify).
  keeps_auto.
Qed.

End StrategyFrames.

(** What the [try ... except (MySQLdb.Error, psycopg2.Error)] of
    [ingestFull] and [ingestIncremental] makes of its body. *)
Lemma abort_clause_spec (body : M unit) st r st' :
  keeps (unchanged abort_state) body →
  try_except body abort_clause st = (r, st') →
  match r with
  | Ok _ => abort_state st'.1 = abort_state st.1
  | Raise e =>
      if is_db_Error e
      then aborted st'.1
      else abort_state st'.1 = abort_state st.1
  end.
Proof.
  intros Hk. unfold try_except.
  destruct (body st) as [[[]|e] [g1 w1]] eqn:E; apply Hk in E; unfold unchanged in E.
  { intros [= <- <-]. done. }
  unfold abort_clause. destruct (is_db_Error e) eqn:Ee.
  - unfold bind, log, now, update, update_world, world, ret, raise, updateStatusDict.
    cbn [fst snd]. intros [= <- <-]. rewrite Ee. unfold aborted. cbn.
    split; [done|]. split; [by rewrite lookup_insert_eq|].
    eexists. split; [done|].
    rewrite lookup_insert_ne by done. by rewrite lookup_insert_eq.
  - intros [= <- <-]. by rewrite Ee.
Qed.

Lemma bind_inv {A B} (m : M A) (k : A → M B) st r st' :
  bind m k st = (r, st') →
  (∃ e, m st = (Raise e, st') ∧ r = Raise e) ∨
  (∃ a st1, m st = (Ok a, st1) ∧ k a st1 = (r, st')).
Proof.
  unfold bind. destruct (m st) as [[a|e] st1]; [by eauto|].
  intros [= <- <-]. left. by eauto.
Qed.

Lemma keeps_columnCount {X} (f : Ingester → X) tn c : keeps (unchanged f) (columnCount tn c).
Proof.
  unfold columnCount, default_table, connect.
  pose proof (keeps_backend_call f). pose proof (keeps_execute f). keeps_auto.
Qed.

(** The column check changes nothing: it returns when the two counts
    are equal and raises otherwise, the trim after the warning is never
    reached. *)
Lemma check_columns_spec n st r st' :
  check_columns n st = (r, st') →
  st' = st ∧
  r = (let m := length (columnNames (parser st.1)) in
       if (n <=? m)%nat
       then (if (n <? m)%nat then Raise DeprecationWarning else Ok tt)
       else Raise AssertionError).
Proof.
  destruct st as [g w].
  unfold check_columns, bind, self, when, ret, raise, warn, update, update_world.
  cbn [fst snd].
  destruct (n <=? _)%nat; [destruct (n <? _)%nat|]; by intros [= <- <-].
Qed.

(** What [incremental_frame] makes of its body. *)
Lemma incremental_frame_spec (body : M unit) st r st' :
  keeps (unchanged abort_state) body →
  incremental_frame body st = (r, st') →
  match r with
  | Ok _ => abort_state st'.1 = abort_state st.1
  | Raise e => if is_db_Error e then aborted st'.1 else abort_state st'.1 = abort_state st.1
  end.
Proof.
  intros Hk. destruct st as [g w]. unfold incremental_frame.
  unfold bind at 1, log at 1, update_world at 1. cbn [fst snd].
  unfold bind at 1, now at 1, bind at 1, world at 1. cbn [fst snd].
  unfold bind at 1, update_world at 1, ret at 1. cbn [fst snd].
  unfold bind at 1, update at 1. cbn [fst snd].
  unfold bind at 1.
  destruct (try_except _ abort_clause _) as [[[]|e] [g2 w2]] eqn:E;
    apply abort_clause_spec in E; try done.
  - unfold bind, now, update, update_world, world, ret, log.
    cbn [fst snd]. intros [= <- <-]. cbn in *. done.
  - intros [= <- <-]. done.
Qed.

Lemma seekToRecord_pipe p k :
  0 < k → seekable (eFile p) = false → seekToRecord p k = Raise OSError.
Proof.
  intros H Hs. unfold seekToRecord. rewrite (proj2 (Z.leb_gt _ _) H).
  unfold getSeekPos, tell. by rewrite Hs.
Qed.

(** *** Replacing one character by another *)

Lemma join_cons sep x l : l ≠ [] → Py.join sep (x :: l) = x +:+ sep +:+ Py.join sep l.
Proof. by destruct l. Qed.

Lemma replace_char_go c d s : ∀ cur,
  c ≠ d →
  let r := Py.join (String d "") (Py.split_go (String c "") s 0 cur) in
  has_char c r = has_char c cur ∧
  String.length r = (String.length cur + String.length s)%nat.
Proof.
  induction s as [|a s IH]; intros cur Hne; cbv zeta.
  { cbn. split; [done|lia]. }
  cbn [Py.split_go]. destruct (decide (a = c)) as [->|Hac].
  - rewrite prefix_single. cbn [String.length Nat.sub].
    rewrite join_cons by apply split_go_nonempty.
    destruct (IH "" Hne) as [H1 H2]. cbv zeta in H1, H2.
    rewrite !has_char_append, !length_append, H1, H2. cbn.
    rewrite (proj2 (Ascii.eqb_neq d c)) by done. cbn.
    split; [by rewrite orb_false_r|lia].
  - rewrite prefix_other by done.
    destruct (IH (cur +:+ String a "") Hne) as [H1 H2]. cbv zeta in H1, H2.
    rewrite H1, H2, has_char_append, length_append. cbn.
    rewrite (proj2 (Ascii.eqb_neq a c)) by done. cbn.
    split; [by rewrite orb_false_r|lia].
Qed.

Lemma length_take n s : (String.length (Py.take n s) ≤ n)%nat.
Proof.
  revert s. induction n as [|n IH]; intros [|c s]; cbn; try lia.
  specialize (IH s). lia.
Qed.

(** *** Rows too short for the key *)

Lemma marker_of_spec pk r :
  match marker_of pk r with
  | Ok m => ∀ i, i ∈ pk → (i < length r)%nat
  | Raise e => e = IndexError ∧ ∃ i, i ∈ pk ∧ (length r ≤ i)%nat
  end.
Proof.
  induction pk as [|i pk IH]; cbn [marker_of].
  { by intros i ?%elem_of_nil. }
  destruct (r !! i) as [v|] eqn:Ei.
  - apply lookup_lt_Some in Ei. destruct (marker_of pk r) as [m|e]; cbn [mbind result_bind].
    + intros j [->|Hj]%elem_of_cons; auto.
    + destruct IH as [-> (j & Hj & Hle)]. split; [done|]. exists j. split; [by right|done].
  - apply lookup_ge_None in Ei. split; [done|]. exists i. split; [by left|done].
Qed.

Section EscapeErrors.
Variable literal : option string → string.
Variable mogrify : option string → string.

Lemma escape_loop_raises mysql pk recs : ∀ keys acc,
  match escape_loop literal mogrify mysql pk keys recs acc with
  | Ok _ => ∀ r, r ∈ recs → ∀ i, i ∈ pk → (i < length r)%nat
  | Raise e => e = IndexError ∧ ∃ r i, r ∈ recs ∧ i ∈ pk ∧ (length r ≤ i)%nat
  end.
Proof.
  induction recs as [|r recs IH]; intros keys acc; cbn [escape_loop].
  { by intros r ?%elem_of_nil. }
  pose proof (marker_of_spec pk r) as Hm.
  destruct (marker_of pk r) as [m|e].
  - assert (Hgo : ∀ keys' acc',
      match escape_loop literal mogrify mysql pk keys' recs acc' with
      | Ok _ => ∀ r0, r0 ∈ r :: recs → ∀ i, i ∈ pk → (i < length r0)%nat
      | Raise e => e = IndexError ∧ ∃ r0 i, r0 ∈ r :: recs ∧ i ∈ pk ∧ (length r0 ≤ i)%nat
      end).
    { intros keys' acc'. specialize (IH keys' acc').
      destruct (escape_loop literal mogrify mysql pk keys' recs acc').
      - intros r0 [->|Hr]%elem_of_cons; auto.
      - destruct IH as [-> (r0 & i & Hr & Hi & Hle)]. split; [done|].
        exists r0, i. split; [by right|done]. }
    destruct (keys !! m); apply Hgo.
  - destruct Hm as [-> (i & Hi & Hle)]. split; [done|]. exists r, i. split; [by left|done].
Qed.

End EscapeErrors.

(** *** The tables a computation writes to *)

#[global] Instance only_tables_refl l : Reflexive (only_tables l).
Proof. by intros st x Hx. Qed.
#[global] Instance only_tables_trans l : Transitive (only_tables l).
Proof. intros st1 st2 st3 H1 H2 x Hx. by rewrite H2, H1. Qed.

Ltac only_step :=
  lazymatch goal with
  | |- Reflexive _ => tc_solve
  | |- Transitive _ => tc_solve
  | |- ∀ _ _, _ = Some _ → keeps _ _ =>
      let e := fresh "e" in let k := fresh "k" in let H := fresh "H" in
      intros e k H; unfold abort_clause, resume_clause in H; keeps_handler H
  | |- ∀ _, _ => intros ?
  | |- keeps _ (ret _) => apply keeps_ret
  | |- keeps _ (raise _) => apply keeps_raise
  | |- keeps _ (warn _) => apply keeps_raise
  | |- keeps _ self => apply keeps_self
  | |- keeps _ world => apply keeps_world
  | |- keeps _ (bind _ _) => apply keeps_bind
  | |- keeps _ (try_except _ _) => apply keeps_try_except
  | |- keeps _ (when _ _) => apply keeps_when
  | |- keeps _ (repeat_M _ _) => apply keeps_repeat_M
  | |- keeps _ (update _) => apply keeps_update; intros ? ? ? ?; reflexivity
  | |- keeps _ (update_world _) => apply keeps_update_world; intros ? ? ? ?; reflexivity
  | |- keeps _ (if ?b then _ else _) => destruct b
  | |- keeps _ (match ?x with _ => _ end) => destruct x
  | |- keeps _ (let _ := _ in _) => cbv zeta
  end.

Ltac only_auto := repeat first [solve [auto 2] | only_step].

Ltac writes_within_tac :=
  let ts := fresh "ts" in let a := fresh "a" in let ts' := fresh "ts'" in
  let H := fresh "H" in let x := fresh "x" in let Hx := fresh "Hx" in
  intros ts a ts' H x Hx; cbn in H; repeat case_match; inversion H; subst;
  repeat first [ rewrite lookup_insert_ne by (intros ->; by apply Hx)
               | rewrite lookup_delete_ne by (intros ->; by apply Hx) ];
  done.

Section Within.
Variable l : list string.

Lemma writes_within_drop t : t ∈ l → writes_within l (DropTableIfExists t).
Proof. intros Ht. writes_within_tac. Qed.
Lemma writes_within_create t cols : t ∈ l → writes_within l (CreateTable t cols).
Proof. intros Ht. writes_within_tac. Qed.
Lemma writes_within_key t pk : t ∈ l → writes_within l (AddPrimaryKey t pk).
Proof. intros Ht. writes_within_tac. Qed.
Lemma writes_within_bulk t b : t ∈ l → writes_within l (BulkWrite t b).
Proof. intros Ht. writes_within_tac. Qed.
Lemma writes_within_index t expr : t ∈ l → writes_within l (CreateIndex t expr).
Proof. intros Ht. writes_within_tac. Qed.
Lemma writes_within_rename a b : a ∈ l → b ∈ l → writes_within l (RenameTable a b).
Proof. intros Ha Hb. writes_within_tac. Qed.
Lemma writes_within_union un inc live pk :
  un ∈ l → writes_within l (CreateUnionTable un inc live pk).
Proof. intros Hu. writes_within_tac. Qed.
Lemma writes_within_rename_index a b : writes_within l (RenameIndex a b).
Proof. writes_within_tac. Qed.
Lemma writes_within_analyze t : writes_within l (Analyze t).
Proof. writes_within_tac. Qed.
Lemma writes_within_exists db t : writes_within l (SelectTableExists db t).
Proof. writes_within_tac. Qed.
Lemma writes_within_show t : writes_within l (ShowColumns t).
Proof. writes_within_tac. Qed.
Lemma writes_within_columns t : writes_within l (SelectColumns t).
Proof. writes_within_tac. Qed.

Lemma within_log lv msg : keeps (only_tables l) (log lv msg).
Proof. unfold log. only_auto. Qed.

Lemma within_now : keeps (only_tables l) now.
Proof. unfold now. only_auto. Qed.

Lemma within_backend_call : keeps (only_tables l) backend_call.
Proof. unfold backend_call. only_auto. Qed.

Lemma within_execute s : writes_within l s → keeps (only_tables l) (execute s).
Proof.
  intros Hs. unfold execute. pose proof within_backend_call as Hb.
  apply keeps_bind; [tc_solve|only_auto|]. intros _.
  apply keeps_bind; [tc_solve|only_auto|]. intros _.
  intros [g w] r st' H. unfold bind, world in H. cbn [fst snd] in H.
  destruct (run_stmt s (tables w)) as [[a ts]|e] eqn:E.
  - unfold update_world, ret in H. inversion H; subst. intros x Hx. cbn.
    by eapply Hs.
  - inversion H; subst. reflexivity.
Qed.

Lemma within_tableExists tn c : keeps (only_tables l) (tableExists tn c).
Proof.
  unfold tableExists, default_table, connect.
  pose proof within_backend_call.
  assert (∀ db t, keeps (only_tables l) (execute (SelectTableExists db t))).
  { intros db t. apply within_execute, writes_within_exists. }
  only_auto.
Qed.

Lemma within_columnCount tn c : keeps (only_tables l) (columnCount tn c).
Proof.
  unfold columnCount, default_table, connect.
  pose proof within_backend_call.
  assert (∀ (b : bool) t,
            keeps (only_tables l) (execute (if b then SelectColumns t else ShowColumns t))).
  { intros [] t; apply within_execute; [apply writes_within_columns|apply writes_within_show]. }
  only_auto.
Qed.

Lemma within_applyPrimaryKeyConstraints tn :
  tn ∈ l → keeps (only_tables l) (_applyPrimaryKeyConstraints tn).
Proof.
  intros Ht. unfold _applyPrimaryKeyConstraints, connect, commit.
  pose proof within_backend_call.
  assert (∀ pk, keeps (only_tables l) (execute (AddPrimaryKey tn pk))).
  { intros pk. by apply within_execute, writes_within_key. }
  only_auto.
Qed.

Lemma within_createTable tn : tn ∈ l → keeps (only_tables l) (_createTable tn).
Proof.
  intros Ht. unfold _createTable, connect, commit.
  pose proof within_backend_call. pose proof (within_applyPrimaryKeyConstraints tn Ht).
  assert (keeps (only_tables l) (execute (DropTableIfExists tn))).
  { by apply within_execute, writes_within_drop. }
  assert (∀ cols, keeps (only_tables l) (execute (CreateTable tn cols))).
  { intros cols. by apply within_execute, writes_within_create. }
  only_auto.
Qed.

Lemma within_dropTable tn : tn ∈ l → keeps (only_tables l) (_dropTable tn).
Proof.
  intros Ht. unfold _dropTable, connect, commit.
  pose proof within_backend_call.
  assert (keeps (only_tables l) (execute (DropTableIfExists tn))).
  { by apply within_execute, writes_within_drop. }
  only_auto.
Qed.

Lemma within_createCustomIndexes file tn :
  tn ∈ l → keeps (only_tables l) (_createCustomIndexes file tn).
Proof.
  intros Ht. unfold _createCustomIndexes, connect, commit.
  pose proof within_backend_call. pose proof within_log.
  assert (∀ e, keeps (only_tables l) (execute (CreateIndex tn e))).
  { intros e. by apply within_execute, writes_within_index. }
  only_auto.
Qed.

Lemma within_rename g a b : a ∈ l → b ∈ l → keeps (only_tables l) (rename g a b).
Proof.
  intros Ha Hb. unfold rename, commit.
  pose proof within_backend_call.
  assert (keeps (only_tables l) (execute (RenameTable a b))).
  { by apply within_execute, writes_within_rename. }
  assert (∀ x y, keeps (only_tables l) (execute (RenameIndex x y))).
  { intros x y. apply within_execute, writes_within_rename_index. }
  only_auto.
Qed.

Lemma within_renameAndDrop a b :
  a ∈ l → b ∈ l → b +:+ "_old" ∈ l → keeps (only_tables l) (_renameAndDrop a b).
Proof.
  intros Ha Hb Ho. unfold _renameAndDrop, connect, commit.
  pose proof within_backend_call. pose proof within_log. pose proof within_tableExists.
  assert (∀ g, keeps (only_tables l) (rename g b (b +:+ "_old"))).
  { intros g. by apply within_rename. }
  assert (∀ g, keeps (only_tables l) (rename g a b)).
  { intros g. by apply within_rename. }
  assert (∀ g, keeps (only_tables l) (rename g (b +:+ "_old") b)).
  { intros g. by apply within_rename. }
  assert (keeps (only_tables l) (execute (DropTableIfExists (b +:+ "_old")))).
  { by apply within_execute, writes_within_drop. }
  only_auto.
Qed.

Variable literal : option string → string.
Variable mogrify : option string → string.

Lemma within_write_batch tn inc skip recs :
  tn ∈ l → keeps (only_tables l) (write_batch literal mogrify tn inc skip recs).
Proof.
  intros Ht. unfold write_batch, _checkProgress, _escapeRecords, connect.
  pose proof within_backend_call. pose proof within_log. pose proof within_now.
  assert (∀ b, keeps (only_tables l) (execute (BulkWrite tn b))).
  { intros b. by apply within_execute, writes_within_bulk. }
  only_auto.
Qed.

Lemma within_populate_loop tn inc skip fuel :
  tn ∈ l → ∀ st r st',
  populate_loop literal mogrify fuel tn inc skip st = Some (r, st') →
  only_tables l st st'.
Proof.
  intros Ht. induction fuel as [|fuel IH]; intros [g w] r st' H; [done|].
  cbn [populate_loop] in H.
  destruct (nextRecords batchSize (today_year w) (parser g)) as [[[|rec recs]|e] p'];
    try by (inversion H; subst; intros x Hx).
  destruct (write_batch _ _ _ _ _ _ _) as [[[]|e] st1] eqn:Ew.
  - apply IH in H. apply within_write_batch in Ew; [|done]. intros x Hx.
    rewrite (H x Hx). by apply Ew.
  - inversion H; subst. by apply within_write_batch in Ew.
Qed.

Lemma within_populate_batches tn inc skip :
  tn ∈ l → keeps (only_tables l) (populate_batches literal mogrify tn inc skip).
Proof.
  intros Ht st r st' H.
  pose proof (populate_batches_total literal mogrify tn inc skip st) as Htot.
  rewrite H in Htot. by apply within_populate_loop in Htot.
Qed.

Lemma within_populateTable tn from inc skip :
  tn ∈ l → keeps (only_tables l) (_populateTable literal mogrify tn from inc skip).
Proof.
  intros Ht. unfold _populateTable, connect, commit.
  pose proof within_backend_call. pose proof within_log.
  pose proof (λ file, within_createCustomIndexes file tn Ht).
  pose proof (within_populate_batches tn inc skip Ht).
  assert (keeps (only_tables l) (execute (Analyze tn))).
  { apply within_execute, writes_within_analyze. }
  only_auto.
Qed.

End Within.

(** *** The names never change *)

Section NamesFrames.
Variable literal : option string → string.
Variable mogrify : option string → string.

Lemma keeps_names_write_batch tn inc skip recs :
  keeps (unchanged names) (write_batch literal mogrify tn inc skip recs).
Proof.
  unfold write_batch, _checkProgress.
  pose proof (keeps_backend_call names). pose proof (keeps_execute names).
  pose proof (keeps_log names). pose proof (keeps_now names).
  pose proof (keeps_escapeRecords names literal mogrify).
  keeps_auto.
Qed.

Lemma keeps_names_populate_loop tn inc skip fuel : ∀ st r st',
  populate_loop literal mogrify fuel tn inc skip st = Some (r, st') →
  unchanged names st st'.
Proof.
  induction fuel as [|fuel IH]; intros [g w] r st' H; [done|].
  cbn [populate_loop] in H.
  destruct (nextRecords batchSize (today_year w) (parser g)) as [[[|rec recs]|e] p'];
    try by inversion H.
  destruct (write_batch _ _ _ _ _ _ _) as [[[]|e] st1] eqn:Ew.
  - apply IH in H. apply keeps_names_write_batch in Ew.
    unfold unchanged in *. by rewrite H, Ew.
  - inversion H; subst. by apply keeps_names_write_batch in Ew.
Qed.

Lemma keeps_names_populate_batches tn inc skip :
  keeps (unchanged names) (populate_batches literal mogrify tn inc skip).
Proof.
  intros st r st' H. pose proof (populate_batches_total literal mogrify tn inc skip st) as Ht.
  rewrite H in Ht. by apply keeps_names_populate_loop in Ht.
Qed.

Lemma keeps_names_populateTable tn from inc skip :
  keeps (unchanged names) (_populateTable literal mogrify tn from inc skip).
Proof.
  unfold _populateTable, connect, commit.
  pose proof (keeps_backend_call names). pose proof (keeps_execute names).
  pose proof (keeps_log names).
  pose proof (keeps_createCustomIndexes names).
  pose proof keeps_names_populate_batches.
  keeps_auto.
Qed.

End NamesFrames.

Lemma keeps_names_check_columns n : keeps (unchanged names) (check_columns n).
Proof. unfold check_columns. keeps_auto. Qed.

Lemma within_check_columns l n : keeps (only_tables l) (check_columns n).
Proof. unfold check_columns. only_auto. Qed.

(** *** The tables of an ingest *)

Lemma elem_of_own_tables ns :
  tableName ns ∈ own_tables ns ∧ tmpTableName ns ∈ own_tables ns ∧
  incTableName ns ∈ own_tables ns ∧ unionTableName ns ∈ own_tables ns ∧
  tableName ns +:+ "_old" ∈ own_tables ns.
Proof. unfold own_tables. rewrite !elem_of_cons. tauto. Qed.

Section Named.
Variable ns : Names.
Variable l : list string.

Lemma named_of_keeps {A} (m : M A) :
  keeps (only_tables l) m → keeps (unchanged names) m → named_within ns l m.
Proof.
  intros H1 H2 st r st' Hn H. split; [by eapply H1|].
  apply H2 in H. unfold unchanged in H. congruence.
Qed.

Lemma named_bind {A B} (m : M A) (k : A → M B) :
  named_within ns l m → (∀ a, named_within ns l (k a)) → named_within ns l (bind m k).
Proof.
  intros Hm Hk st r st' Hn H.
  apply bind_inv in H as [(e & H & ->)|(a & st1 & H1 & H)].
  - by eapply Hm.
  - destruct (Hm _ _ _ Hn H1) as [R1 N1]. destruct (Hk a _ _ _ N1 H) as [R2 N2].
    split; [by etrans|done].
Qed.

Lemma named_self {B} (k : Ingester → M B) :
  (∀ g, names g = ns → named_within ns l (k g)) → named_within ns l (bind self k).
Proof.
  intros Hk st r st' Hn H. rewrite (bind_run _ _ _ _ _ (self_run st)) in H.
  by eapply Hk.
Qed.

Lemma named_try_except {A} (m : M A) h :
  named_within ns l m → (∀ e k, h e = Some k → named_within ns l k) →
  named_within ns l (try_except m h).
Proof.
  intros Hm Hh st r st' Hn. unfold try_except.
  destruct (m st) as [[a|e] st1] eqn:E; intros H.
  - inversion H; subst. by eapply Hm.
  - destruct (Hm _ _ _ Hn E) as [R1 N1]. destruct (h e) as [k|] eqn:Ee.
    + destruct (Hh e k Ee _ _ _ N1 H) as [R2 N2]. split; [by etrans|done].
    + by inversion H; subst.
Qed.

Lemma named_step (f : Ingester → Ingester) :
  (∀ g, names (f g) = names g) → named_within ns l (update f).
Proof.
  intros Hf [g w] r st' Hn [= <- <-]. split; [done|]. cbn in *. by rewrite Hf.
Qed.

Lemma named_log lv msg : named_within ns l (log lv msg).
Proof. apply named_of_keeps; [apply within_log|apply keeps_log]. Qed.

Lemma named_warn msg : named_within ns l (warn msg).
Proof. by apply named_of_keeps; [apply keeps_raise|apply keeps_raise]. Qed.

Lemma named_now : named_within ns l now.
Proof. apply named_of_keeps; [apply within_now|apply keeps_now]. Qed.

Lemma named_updateStatusDict : named_within ns l updateStatusDict.
Proof. by apply named_step. Qed.

Lemma named_abort_clause e k : abort_clause e = Some k → named_within ns l k.
Proof.
  unfold abort_clause. destruct (is_db_Error e); [|done]. intros [= <-].
  pose proof named_log. pose proof named_now. pose proof named_updateStatusDict.
  repeat first [ done | by apply named_step
               | by apply named_of_keeps; [apply keeps_raise|apply keeps_raise]
               | apply named_bind; [|intros ?] ].
Qed.

Lemma named_resume_clause e k : resume_clause e = Some k → named_within ns l k.
Proof.
  unfold resume_clause. destruct (is_db_Error e); [|done]. intros [= <-].
  pose proof named_log.
  repeat first [ done
               | by apply named_of_keeps; [apply keeps_raise|apply keeps_raise]
               | apply named_bind; [|intros ?] ].
Qed.

Hypothesis Hown : ∀ x, x ∈ own_tables ns → x ∈ l.

Lemma named_createTable tn : tn ∈ own_tables ns → named_within ns l (_createTable tn).
Proof.
  intros Ht. apply named_of_keeps; [by apply within_createTable, Hown|apply keeps_createTable].
Qed.

Lemma named_dropTable tn : tn ∈ own_tables ns → named_within ns l (_dropTable tn).
Proof.
  intros Ht. apply named_of_keeps; [by apply within_dropTable, Hown|apply keeps_dropTable].
Qed.

Lemma named_applyPrimaryKeyConstraints tn :
  tn ∈ own_tables ns → named_within ns l (_applyPrimaryKeyConstraints tn).
Proof.
  intros Ht. apply named_of_keeps;
    [by apply within_applyPrimaryKeyConstraints, Hown|apply keeps_applyPrimaryKeyConstraints].
Qed.

Lemma named_renameAndDrop a :
  a ∈ own_tables ns → named_within ns l (_renameAndDrop a (tableName ns)).
Proof.
  intros Ha. destruct (elem_of_own_tables ns) as (H1 & _ & _ & _ & H5).
  apply named_of_keeps; [by apply within_renameAndDrop; apply Hown|apply keeps_renameAndDrop].
Qed.

Lemma named_createUnionTable : named_within ns l _createUnionTable.
Proof.
  destruct (elem_of_own_tables ns) as (_ & _ & _ & H4 & _).
  unfold _createUnionTable. apply named_self. intros g ->.
  apply named_of_keeps.
  - unfold connect, commit. pose proof (within_backend_call l).
    assert (keeps (only_tables l) (execute (DropTableIfExists (unionTableName ns)))).
    { by apply within_execute, writes_within_drop, Hown. }
    assert (∀ i t pk, keeps (only_tables l)
              (execute (CreateUnionTable (unionTableName ns) i t pk))).
    { intros i t pk. by apply within_execute, writes_within_union, Hown. }
    only_auto.
  - unfold connect, commit. pose proof (keeps_backend_call names).
    pose proof (keeps_execute names). keeps_auto.
Qed.

Variable literal : option string → string.
Variable mogrify : option string → string.

Lemma named_populateTable tn from inc skip :
  tn ∈ own_tables ns → named_within ns l (_populateTable literal mogrify tn from inc skip).
Proof.
  intros Ht. apply named_of_keeps;
    [by apply within_populateTable, Hown|apply keeps_names_populateTable].
Qed.

Lemma named_ingestFull skip : named_within ns l (ingestFull literal mogrify skip).
Proof.
  destruct (elem_of_own_tables ns) as (H1 & H2 & H3 & H4 & H5).
  unfold ingestFull. apply named_self. intros g ->.
  pose proof named_log. pose proof named_now. pose proof named_updateStatusDict.
  pose proof named_abort_clause.
  pose proof (named_createTable _ H2). pose proof (λ f i s, named_populateTable _ f i s H2).
  pose proof (named_renameAndDrop _ H2).
  repeat first [ done | by apply named_step | apply named_try_except
               | apply named_bind; [|intros ?] ].
Qed.

Lemma named_ingestFullResume from skip :
  named_within ns l (ingestFullResume literal mogrify from skip).
Proof.
  destruct (elem_of_own_tables ns) as (H1 & H2 & H3 & H4 & H5).
  unfold ingestFullResume. apply named_self. intros g ->.
  pose proof named_log. pose proof named_now.
  pose proof named_resume_clause.
  pose proof (λ f i s, named_populateTable _ f i s H2).
  pose proof (named_renameAndDrop _ H2).
  repeat first [ done | by apply named_step | apply named_try_except
               | apply named_bind; [|intros ?] ].
Qed.

Lemma named_incremental_try from skip :
  named_within ns l (incremental_try literal mogrify from skip).
Proof.
  destruct (elem_of_own_tables ns) as (H1 & H2 & H3 & H4 & H5).
  pose proof named_log.
  pose proof (named_createTable _ H3). pose proof (named_dropTable _ H3).
  pose proof (named_applyPrimaryKeyConstraints _ H4).
  pose proof (named_renameAndDrop _ H4). pose proof named_createUnionTable.
  pose proof (λ f i s, named_populateTable _ f i s H3).
  pose proof (λ f i s, named_populateTable _ f i s H1).
  unfold incremental_try. apply named_self. intros g Hg.
  destruct (_ || _).
  - unfold update_in_place. apply named_self. intros g' ->. done.
  - unfold prune_and_merge. apply named_self. intros g' ->.
    repeat first [ done | apply named_bind; [|intros ?] ].
Qed.

Lemma named_ingestIncremental from skip :
  named_within ns l (ingestIncremental literal mogrify from skip).
Proof.
  pose proof named_log. pose proof named_now. pose proof named_updateStatusDict.
  pose proof named_abort_clause. pose proof named_incremental_try.
  unfold ingestIncremental. apply named_self. intros g ->.
  apply named_bind.
  { apply named_of_keeps; [apply within_tableExists|apply keeps_tableExists]. }
  intros ex. apply named_bind; [|intros ?; done].
  destruct (negb ex); [apply named_warn|].
  apply named_bind.
  { apply named_of_keeps; [apply within_columnCount|apply keeps_columnCount]. }
  intros n. apply named_bind.
  { apply named_of_keeps; [apply within_check_columns|apply keeps_names_check_columns]. }
  intros ?. unfold incremental_frame.
  repeat first [ done | by apply named_step | apply named_try_except
               | apply named_bind; [|intros ?] ].
Qed.

End Named.

(** *** The ingest when no backend call fails *)

Lemma nextRecords_loop_frame year n : ∀ p acc r p',
  nextRecords_loop n year p acc = (r, p') →
  set_latestRecordNum (set_eFile p' (eFile p)) (latestRecordNum p) = p.
Proof.
  induction n as [|n IH]; intros p acc r p' H; cbn [nextRecords_loop] in H.
  { inversion H; subst. by destruct p'. }
  destruct (nextRecord year p) as [r1 p1] eqn:E.
  pose proof (nextRecord_spec _ _ _ _ E) as (Hf & _).
  destruct r1 as [[[|x rec]|]|e]; try by inversion H; subst.
  apply IH in H. by eapply frame_trans.
Qed.

Ltac run_in H :=
  cbv beta iota zeta delta
    [bind ret raise self update world update_world try_except when log warn now
     backend_call connect commit execute tableExists columnCount default_table
     rename is_db_Error run_stmt
     fst snd head tail
     tables faults clock today_year submitted logged
     set_tables set_faults set_clock set_submitted set_logged] in H.

Ltac maps_in H :=
  repeat first [ rewrite lookup_insert_eq in H | rewrite lookup_delete_eq in H
               | rewrite lookup_insert_ne in H by done
               | rewrite lookup_delete_ne in H by done ].

Section Clean.
Variable literal mogrify : option string → string.

Lemma write_batch_clean tn inc skip recs g w st' :
  faults w = [] →
  write_batch literal mogrify tn inc skip recs (g, w) = (Ok tt, st') →
  ∃ esc t0,
    escape_loop literal mogrify (isMysql (names g)) (primaryKeyIndexes (parser g)) ∅ recs []
    = Ok esc ∧
    tables w !! tn = Some t0 ∧
    tables st'.2 = <[tn := Loaded t0 (bulk_of (names g) inc skip (parser g) esc)]> (tables w) ∧
    faults st'.2 = [] ∧ today_year st'.2 = today_year w ∧
    names st'.1 = names g ∧ parser st'.1 = parser g.
Proof.
  destruct w as [ts fl ck yr sub lg]. cbn [faults tables today_year]. intros -> H.
  unfold write_batch, _escapeRecords, _checkProgress in H.
  run_in H.
  destruct (escape_loop _ _ _ _ _ _ _) as [esc|e] eqn:Ee; run_in H; [|done].
  change (Build_Bulk _ _ _ esc _) with (bulk_of (names g) inc skip (parser g) esc) in H.
  destruct (isPostgresql (names g)) eqn:Hpg; [|destruct (isMysql (names g)) eqn:Hmy];
    run_in H; try done.
  all: destruct (ts !! tn) as [t0|] eqn:Et; run_in H; try done.
  all: repeat match type of H with
              | context [if ?b then _ else _] => destruct b eqn:?; run_in H
              end.
  all: injection H as <-; exists esc, t0; done.
Qed.

Lemma foldl_loaded_insert tn (t0 : Table) b bs (ts : gmap string Table) :
  <[tn := foldl Loaded (Loaded t0 b) bs]> (<[tn := Loaded t0 b]> ts)
  = <[tn := foldl Loaded t0 (b :: bs)]> ts.
Proof. by rewrite insert_insert_eq. Qed.

Lemma populate_loop_clean tn inc skip fuel : ∀ st st' t0,
  faults st.2 = [] →
  tables st.2 !! tn = Some t0 →
  populate_loop literal mogrify fuel tn inc skip st = Some (Ok tt, st') →
  ∃ bs,
    written literal mogrify (names st.1) inc skip (today_year st.2) (parser st.1) bs ∧
    tables st'.2 = <[tn := foldl Loaded t0 bs]> (tables st.2) ∧
    faults st'.2 = [] ∧ today_year st'.2 = today_year st.2 ∧
    names st'.1 = names st.1 ∧
    set_latestRecordNum (set_eFile (parser st'.1) (eFile (parser st.1)))
      (latestRecordNum (parser st.1)) = parser st.1.
Proof.
  induction fuel as [|fuel IH]; intros [g w] st' t0 Hf Ht H; [done|].
  cbn [populate_loop] in H. cbn [fst snd] in *.
  destruct (nextRecords batchSize (today_year w) (parser g)) as [[[|r recs]|e] p'] eqn:E;
    [| |done].
  - injection H as <-. exists []. cbn [fst snd foldl].
    split; [by eapply written_nil|]. split; [by rewrite insert_id|].
    split; [done|]. split; [done|]. split; [done|].
    by apply nextRecords_loop_frame in E.
  - destruct (write_batch _ _ _ _ _ _ _) as [[[]|e] st1] eqn:Ew; [|done].
    apply write_batch_clean in Ew as (esc & t0' & He & Ht' & Hts & Hf1 & Hy & Hn & Hp);
      [|done].
    cbn [names parser set_parser] in *.
    rewrite Ht in Ht'. injection Ht' as <-.
    apply (IH st1 st' (Loaded t0 (bulk_of (names g) inc skip p' esc))) in H;
      [|done|by rewrite Hts, lookup_insert_eq].
    destruct H as (bs & Hw & Hts' & Hf' & Hy' & Hn' & Hp').
    rewrite Hn, Hp, Hy in *.
    exists (bulk_of (names g) inc skip p' esc :: bs).
    split; [by eapply written_cons|].
    split; [by rewrite Hts', Hts, foldl_loaded_insert|].
    split; [done|]. split; [congruence|]. split; [congruence|].
    apply nextRecords_loop_frame in E. by eapply frame_trans.
Qed.

Lemma populateTable_clean tn from inc skip st st' t0 :
  faults st.2 = [] →
  tables st.2 !! tn = Some t0 →
  _populateTable literal mogrify tn from inc skip st = (Ok tt, st') →
  ∃ p0 bs,
    seekToRecord (parser st.1) from = Ok p0 ∧
    written literal mogrify (names st.1) inc skip (today_year st.2) p0 bs ∧
    tables st'.2 = <[tn := custom_indexed (names st.1) (foldl Loaded t0 bs)]> (tables st.2) ∧
    faults st'.2 = [] ∧ today_year st'.2 = today_year st.2 ∧
    names st'.1 = names st.1 ∧
    set_latestRecordNum (set_eFile (parser st'.1) (eFile p0)) (latestRecordNum p0) = p0.
Proof.
  destruct st as [g [ts fl ck yr sub lg]]. cbn [fst snd faults tables today_year].
  intros -> Ht H. unfold _populateTable in H.
  rewrite (bind_run _ _ _ _ _ (self_run _)) in H. cbn [fst] in H.
  destruct (seekToRecord (parser g) from) as [p0|e] eqn:Es; [|done].
  exists p0.
  apply bind_Ok in H as ([] & s1 & H1 & H). injection H1 as <-. cbn [fst snd] in H.
  apply bind_Ok in H as ([] & s2 & H2 & H).
  assert (s2 = (set_parser g p0,
                {| tables := ts; faults := []; clock := ck; today_year := yr;
                   submitted := sub; logged := lg |})) as ->.
  { destruct (isPostgresql (names g)); cbn [repeat_M] in H2; run_in H2; by injection H2. }
  apply bind_Ok in H as ([] & [g1 w1] & H3 & H).
  match type of H3 with
  | populate_batches _ _ _ _ _ ?st = _ =>
      pose proof (populate_batches_total literal mogrify tn inc skip st) as Hb
  end.
  rewrite H3 in Hb.
  apply (populate_loop_clean _ _ _ _ _ _ t0) in Hb; [|done|done].
  cbn [fst snd names parser set_parser tables faults today_year] in Hb.
  destruct Hb as (bs & Hw & Hts & Hf & Hy & Hn & Hp).
  destruct w1 as [ts1 fl1 ck1 yr1 sub1 lg1]; cbn [tables faults today_year] in *.
  subst ts1 fl1 yr1.
  exists bs. split; [done|]. split; [done|].
  unfold _createCustomIndexes, custom_indexed in *.
  destruct (isPostgresql (names g)) eqn:Hpg; cbn [repeat_M] in H; run_in H;
    rewrite ?Hn, ?Hpg in H.
  - destruct (custom_indexes_sql _) as [sql|]; run_in H;
      rewrite ?lookup_insert_eq in H; run_in H;
      rewrite ?lookup_insert_eq in H; run_in H.
    all: injection H as <-; cbn [fst snd tables faults today_year names parser].
    all: rewrite ?insert_insert_eq; done.
  - rewrite ?lookup_insert_eq in H; run_in H.
    injection H as <-; cbn [fst snd tables faults today_year names parser]. done.
Qed.

Lemma header_frame p p' :
  set_latestRecordNum (set_eFile p' (eFile p)) (latestRecordNum p) = p →
  columnNames p' = columnNames p ∧ primaryKey p' = primaryKey p ∧
  dataTypes p' = dataTypes p ∧ recordsExpected p' = recordsExpected p.
Proof. intros <-. by destruct p'. Qed.

Lemma prune_and_merge_clean skip st st' live :
  let ns := names st.1 in
  let pk := primaryKey (parser st.1) in
  let cols := zip (columnNames (parser st.1)) (dataTypes (parser st.1)) in
  NoDup [tableName ns; incTableName ns; unionTableName ns; tableName ns +:+ "_old"] →
  isPostgresql ns = false →
  faults st.2 = [] →
  tables st.2 !! tableName ns = Some live →
  prune_and_merge literal mogrify skip st = (Ok tt, st') →
  ∃ bs,
    written literal mogrify ns false skip (today_year st.2) (parser st.1) bs ∧
    tables st'.2 !! tableName ns
    = Some (keyed pk (UnionAll (foldl Loaded (keyed pk (NewTable cols)) bs) live pk)) ∧
    tables st'.2 !! incTableName ns = None ∧
    tables st'.2 !! unionTableName ns = None ∧
    tables st'.2 !! (tableName ns +:+ "_old") = None ∧
    ∀ x, x ∉ [tableName ns; incTableName ns; unionTableName ns; tableName ns +:+ "_old"] →
         tables st'.2 !! x = tables st.2 !! x.
Proof.
  destruct st as [g [ts fl ck yr sub lg]]. cbn [fst snd faults tables today_year].
  intros Hnd Hpg -> Hlive H.
  assert (tableName (names g) ≠ incTableName (names g) ∧
          tableName (names g) ≠ unionTableName (names g) ∧
          tableName (names g) ≠ tableName (names g) +:+ "_old" ∧
          incTableName (names g) ≠ unionTableName (names g) ∧
          incTableName (names g) ≠ tableName (names g) +:+ "_old" ∧
          unionTableName (names g) ≠ tableName (names g) +:+ "_old")
    as (N1 & N2 & N3 & N4 & N5 & N6).
  { rewrite !NoDup_cons, !elem_of_cons, elem_of_nil in Hnd. tauto. }
  assert (N1' : incTableName (names g) ≠ tableName (names g)) by done.
  assert (N2' : unionTableName (names g) ≠ tableName (names g)) by done.
  assert (N3' : tableName (names g) +:+ "_old" ≠ tableName (names g)) by done.
  assert (N4' : unionTableName (names g) ≠ incTableName (names g)) by done.
  assert (N5' : tableName (names g) +:+ "_old" ≠ incTableName (names g)) by done.
  assert (N6' : tableName (names g) +:+ "_old" ≠ unionTableName (names g)) by done.
  assert (Htn : (if Py.truthy (tableName (names g))
                 then tableName (names g) else tableName (names g))
                = tableName (names g)).
  { by destruct (Py.truthy _). }
  unfold prune_and_merge in H.
  rewrite (bind_run _ _ _ _ _ (self_run _)) in H. cbn [fst] in H.
  apply bind_Ok in H as ([] & s1 & H1 & H).
  apply bind_Ok in H as ([] & s2 & H2 & H).
  apply bind_Ok in H as ([] & [g3 w3] & H3 & H).
  assert (∃ sub1 lg1 ck1,
            s2 = (g, {| tables := <[incTableName (names g) :=
                                      keyed (primaryKey (parser g))
                                        (NewTable (zip (columnNames (parser g))
                                                       (dataTypes (parser g))))]> ts;
                        faults := []; clock := ck1; today_year := yr;
                        submitted := sub1; logged := lg1 |})) as (sub1 & lg1 & ck1 & ->).
  { unfold _createTable, _applyPrimaryKeyConstraints in H1. run_in H1.
    rewrite Hpg in H1. run_in H1. rewrite lookup_delete_eq in H1. run_in H1.
    destruct (primaryKey (parser g)) as [|k pk'];
      run_in H1; rewrite ?lookup_insert_eq, ?Hpg in H1; run_in H1.
    all: injection H1 as <-; run_in H2; injection H2 as <-.
    all: eexists _, _, _; cbn [keyed]; rewrite ?insert_insert_eq, ?insert_delete_eq; done. }
  apply (populateTable_clean _ _ _ _ _ _
           (keyed (primaryKey (parser g))
              (NewTable (zip (columnNames (parser g)) (dataTypes (parser g)))))) in H3;
    [|done|by cbn; rewrite lookup_insert_eq].
  cbn [fst snd names parser tables faults today_year] in H3.
  destruct H3 as (p0 & bs & Hs & Hw & Hts & Hf & Hy & Hn & Hp).
  injection Hs as <-. apply header_frame in Hp as (Hc & Hk & Hd & _).
  destruct w3 as [ts3 fl3 ck3 yr3 sub3 lg3]; cbn [tables faults today_year] in *.
  subst ts3 fl3 yr3. exists bs. split; [done|].
  unfold custom_indexed in H. rewrite Hpg in H.
  unfold _createUnionTable, _dropTable, _applyPrimaryKeyConstraints, _renameAndDrop in H.
  run_in H. rewrite ?Hn, ?Hk, ?Hpg in H.
  destruct (primaryKey (parser g)) as [|k pk'] eqn:Epk; cbn [keyed] in *.
  all: repeat (progress (run_in H; maps_in H;
                         rewrite ?Hn, ?Hk, ?Hpg, ?Htn, ?truthy_old, ?Hlive in H)).
  all: injection H as <-; cbn [fst snd tables].
  all: split; [by maps|]; split; [by maps|]; split; [by maps|]; split; [by maps|].
  all: intros x Hx; rewrite !not_elem_of_cons in Hx; destruct Hx as (X1 & X2 & X3 & X4 & _).
  all: by maps.
Qed.

End Clean.

Lemma new_names_distinct path tablePrefix db type ns :
  new_names path tablePrefix db type = Ok ns →
  NoDup [tableName ns; incTableName ns; unionTableName ns; tableName ns +:+ "_old"].
Proof.
  unfold new_names. intros H.
  destruct (if Py.contains _ "." then _ else _) as [sp|]; [|done].
  cbn [mbind result_bind] in H. inversion H; subst; clear H.
  cbn [tableName incTableName unionTableName].
  set (name := sp.2 +:+ _).
  repeat (apply NoDup_cons; split).
  all: rewrite ?elem_of_cons, ?elem_of_nil.
  all: try apply NoDup_nil_2.
  all: intros H; repeat destruct H as [H|H]; try done.
  all: first [ by apply append_inj_l in H
             | symmetry in H; by apply append_ne in H
             | by apply append_ne in H ].
Qed.

End IngesterFacts.

(** ** The claims *)

Import EPFParser EPFIngester Spec Samples ParserFacts IngesterFacts.

Import EPFParser EPFIngester Spec Samples ParserFacts.

(** C10. [Parser.__init__] reads the column-name record and then ten more
    records, whatever they are: on success the stream stands after the
    first eleven raw records, comment or data alike, the record counter is
    still 0, and what [nextRecords] then returns is what it returns on the
    stream that begins after those eleven records, so that the first
    record decoded by a run that never seeks is the twelfth. *)
Theorem C10_init_consumes_eleven_records content can_seek size types rd fd p :
  init content can_seek size types rd fd = Ok p →
  pending (eFile p)
  = Nat.iter 11 (drop_record rd) (Py.readlines (Py.drop TAR_HEADER_SIZE content)) ∧
  latestRecordNum p = 0 ∧
  ∀ n year,
    (nextRecords n year p).1
    = (nextRecords n year (set_eFile p (after_header content rd))).1.
Proof.
  intros H. destruct (init_stream _ _ _ _ _ _ _ H) as [Hp Hn].
  split; [done|]. split; [done|]. intros n year. unfold nextRecords.
  pose proof (nextRecords_loop_detach year n p []) as H1.
  pose proof (nextRecords_loop_detach year n (set_eFile p (after_header content rd)) []) as H2.
  assert (Hd : detach p = detach (set_eFile p (after_header content rd))).
  { unfold detach. cbn. by rewrite Hp. }
  rewrite <- Hd, H1 in H2. by inversion H2.
Qed.

Lemma C10_witness :
  ∃ p, sample_parser (artist_feed "FULL") false = Ok p ∧
       pending (eFile p) = drop 7 data_rows ∧
       latestRecordNum p = 0 ∧
       (nextRecords 100 2026 p).1
       = Ok [[Some "1"; Some "17"; Some "h"; None];
             [Some "1"; Some "18"; Some "i"; None];
             [Some "1"; Some "19"; Some "j"; Some "2005 01 01"];
             [Some "1"; Some "21"; Some "l"; Some "2012-01-01"]].
Proof.
  eexists. split; [vm_compute; reflexivity|].
  match goal with
  | |- context [pending (eFile ?p)] =>
      destruct (C10_init_consumes_eleven_records
                  (artist_feed "FULL") false 1000 mysql_typeMap EOR SOH p)
        as (H1 & H2 & H3); [vm_compute; reflexivity|]
  end.
  split; [rewrite H1; vm_compute; reflexivity|].
  split; [exact H2|].
  rewrite H3. vm_compute. reflexivity.
Defined.

(** C2 (as the code has it). Header extraction reads a declaration only
    from a lookahead row that carries its prefix.  The one
    [SubstringNotFoundException] construction can raise is for a first row
    without the comment prefix; a declaration that no lookahead row
    carries raises nothing and leaves the default in place: an empty
    primary key, an empty type list, no export mode. *)
Theorem C2_absent_tag_keeps_default content can_seek size types rd fd :
  (∀ px row,
     init content can_seek size types rd fd = Raise (SubstringNotFoundException px row) →
     px = commentChar ∧ first_row content rd = Some row ∧
     Py.startswith row commentChar = false) ∧
  (∀ p,
     init content can_seek size types rd fd = Ok p →
     (no_row_with primStart (lookahead content rd) = true → primaryKey p = []) ∧
     (no_row_with dtStart (lookahead content rd) = true → dataTypes p = []) ∧
     (no_row_with exStart (lookahead content rd) = true → exportMode p = None)).
Proof.
  split; [intros px row; apply init_substring_not_found|].
  intros p H. apply init_inv in H as (l & cols & pk & dts & ex & pkIdx & H).
  cbn zeta in H.
  destruct H as (_ & _ & Hh & _ & _ & Hpk & _ & Hdt & Hex & _).
  rewrite lookahead_eq in Hh.
  apply headerRows_absent in Hh as (H1 & H2 & H3).
  rewrite Hpk, Hdt, Hex. repeat split; intros Hno.
  - by apply H1.
  - rewrite (H2 Hno). by destruct cols.
  - by apply H3.
Qed.

Lemma C2_witness :
  ∃ p, sample_parser bare_feed false = Ok p ∧
       primaryKey p = [] ∧ dataTypes p = [] ∧ exportMode p = None.
Proof.
  eexists. split; [vm_compute; reflexivity|].
  match goal with
  | |- primaryKey ?p = [] ∧ _ =>
      destruct (C2_absent_tag_keeps_default bare_feed false 1000 mysql_typeMap EOR SOH)
        as [_ H];
      destruct (H p) as (H1 & H2 & H3); [vm_compute; reflexivity|]
  end.
  split; [apply H1; vm_compute; reflexivity|].
  split; [apply H2; vm_compute; reflexivity|].
  apply H3; vm_compute; reflexivity.
Defined.

(** C2, as stated, fails: in [bare_feed] no lookahead row carries any of
    the three prefixes, and the parser is built all the same. *)
Lemma C2_counterexample :
  no_row_with primStart (lookahead bare_feed EOR) = true ∧
  no_row_with dtStart (lookahead bare_feed EOR) = true ∧
  no_row_with exStart (lookahead bare_feed EOR) = true ∧
  is_Ok (init bare_feed false 1000 mysql_typeMap EOR SOH) = true.
Proof. vm_compute. done. Qed.




(** C1 (as the code has it). Batch deduplication is first-writer-wins.
    When [_escapeRecords] returns, the rows it returns are the escaped
    rows of the batch at the positions [kept], in batch order, and a
    position is kept exactly when no earlier row of the batch has the same
    primary-key tuple: of the rows that share a key tuple the first is
    retained and every later one is dropped. *)
Theorem C1_first_writer_wins literal mogrify recs has_conn st out st' :
  _escapeRecords literal mogrify recs has_conn st = (Ok out, st') →
  let pk := primaryKeyIndexes (parser st.1) in
  let esc := if isMysql (names st.1) then literal else mogrify in
  ∃ kept : list nat,
    StronglySorted lt kept ∧
    out = (λ i, esc <$> default [] (recs !! i)) <$> kept ∧
    ∀ i, i ∈ kept ↔
         ∃ r, recs !! i = Some r ∧
              ∀ j r', (j < i)%nat → recs !! j = Some r' → marker_of pk r' ≠ marker_of pk r.
Proof.
  intros H pk esc.
  assert (He : escape_loop literal mogrify (isMysql (names st.1)) pk ∅ recs [] = Ok out).
  { unfold _escapeRecords in H.
    apply bind_Ok in H as (g & st1 & Hg & H). inversion Hg; subst; clear Hg.
    apply bind_Ok in H as ([] & st2 & _ & H). fold pk in H.
    destruct (escape_loop literal mogrify _ pk ∅ recs []); by inversion H. }
  apply escape_loop_spec in He as (Hall & kept & Hs & Hout & Hiff).
  exists kept. split; [done|]. split; [done|].
  intros i. rewrite Hiff. split.
  - intros (r & m & Hr & Hm & _ & Hlt). exists r. split; [done|].
    intros j r' Hj Hr'. rewrite Hm. by apply (Hlt j).
  - intros (r & Hr & Hlt).
    destruct (Hall r) as [m Hm]; [by eapply list_elem_of_lookup_2|].
    exists r, m. repeat split; try done.
    intros j r' Hj Hr'. rewrite <- Hm. by apply (Hlt j).
Qed.

Lemma C1_witness :
  ∃ st out st',
    sample_state "mysql" (artist_feed "FULL") false 1000 ∅ [] = Ok st ∧
    let recs := [[Some "1"; Some "17"; Some "first"; None];
                 [Some "2"; Some "17"; Some "second"; None];
                 [Some "3"; Some "18"; Some "third"; None]] in
    _escapeRecords quote quote recs false st = (Ok out, st') ∧
    out = [["'1'"; "'17'"; "'first'"; "NULL"]; ["'3'"; "'18'"; "'third'"; "NULL"]] ∧
    let pk := primaryKeyIndexes (parser st.1) in
    let esc := if isMysql (names st.1) then quote else quote in
    ∃ kept : list nat,
      StronglySorted lt kept ∧
      out = (λ i, esc <$> default [] (recs !! i)) <$> kept ∧
      ∀ i, i ∈ kept ↔
           ∃ r, recs !! i = Some r ∧
                ∀ j r', (j < i)%nat → recs !! j = Some r' → marker_of pk r' ≠ marker_of pk r.
Proof.
  eexists _, _, _. split; [vm_compute; reflexivity|].
  cbv zeta. split; [vm_compute; reflexivity|]. split; [reflexivity|].
  eapply (C1_first_writer_wins quote quote _ false). vm_compute. reflexivity.
Defined.

(** C1, as stated, fails: of two rows with the same primary key the one
    that is written is the first, not the last. *)
Lemma C1_counterexample :
  ∃ st st',
    sample_state "mysql" (artist_feed "FULL") false 1000 ∅ [] = Ok st ∧
    let first := [Some "1"; Some "17"; Some "first"; None] in
    let last := [Some "2"; Some "17"; Some "second"; None] in
    marker_of (primaryKeyIndexes (parser st.1)) first
    = marker_of (primaryKeyIndexes (parser st.1)) last ∧
    _escapeRecords quote quote [first; last] false st = (Ok [quote <$> first], st') ∧
    [quote <$> first] ≠ [quote <$> last].
Proof.
  eexists _, _. split; [vm_compute; reflexivity|].
  cbv zeta. split; [vm_compute; reflexivity|]. split; [vm_compute; reflexivity|].
  vm_compute. intros [=].
Qed.

(** C9. With an empty primary key the parser has no key index, every row
    of a batch gets the same empty marker, and [_escapeRecords], once
    connected, returns the first row of the batch escaped and nothing
    else: the other rows are dropped without a word. *)
Theorem C9_empty_key_keeps_one_row literal mogrify
    content can_seek size types rd fd p st r recs has_conn :
  init content can_seek size types rd fd = Ok p →
  primaryKey p = [] →
  primaryKeyIndexes (parser st.1) = primaryKeyIndexes p →
  primaryKeyIndexes p = [] ∧
  _escapeRecords literal mogrify (r :: recs) has_conn st
  = bind (if has_conn then ret tt else connect)
         (λ _, ret [(if isMysql (names st.1) then literal else mogrify) <$> r]) st.
Proof.
  intros Hinit Hpk Hst.
  assert (Hidx : primaryKeyIndexes p = []).
  { apply init_inv in Hinit as (l & cols & pk & dts & ex & pkIdx & H). cbn zeta in H.
    destruct H as (_ & _ & _ & Hi & _ & Hp & Hx & _). subst.
    apply indexes_of_length in Hi. rewrite Hpk in Hi. by destruct (primaryKeyIndexes p). }
  split; [done|].
  unfold _escapeRecords. rewrite (bind_run _ _ _ _ _ (self_run st)).
  rewrite Hst, Hidx. cbn [escape_loop marker_of].
  rewrite lookup_empty, escape_loop_no_key; [done|].
  apply lookup_insert_eq.
Qed.

Lemma C9_witness :
  ∃ p st,
    sample_parser nokey_feed false = Ok p ∧
    sample_state "mysql" nokey_feed false 1000 ∅ [] = Ok st ∧
    primaryKeyIndexes p = [] ∧
    _escapeRecords quote quote
      [[Some "1"; Some "17"; Some "h"; None]; [Some "1"; Some "18"; Some "i"; None]] false st
    = bind (if false then ret tt else connect)
        (λ _, ret [(if isMysql (names st.1) then quote else quote)
                     <$> [Some "1"; Some "17"; Some "h"; None]]) st.
Proof.
  eexists _, _. split; [vm_compute; reflexivity|]. split; [vm_compute; reflexivity|].
  eapply (C9_empty_key_keeps_one_row quote quote nokey_feed false 1000 mysql_typeMap EOR SOH);
    vm_compute; reflexivity.
Defined.

(** C4 (where the code departs from it). [ingestFullResume] never enters
    the aborted state: however it ends, and so also when a fatal backend
    error is re-raised, the aborted flag, the abort time and the status
    snapshot are what they were before the call. *)
Theorem C4_resume_never_marks_abort literal mogrify fromRecord skip st r st' :
  ingestFullResume literal mogrify fromRecord skip st = (r, st') →
  didAbort st'.1 = didAbort st.1 ∧
  abortTime st'.1 = abortTime st.1 ∧
  statusDict st'.1 = statusDict st.1.
Proof.
  intros H. apply keeps_abort_ingestFullResume in H.
  unfold unchanged, abort_state in H. by inversion H.
Qed.

(** The failing input: the store refuses the first connection.  The
    resumed full ingest re-raises the error with the job state not
    aborted; the full ingest, on the same input, aborts. *)
Lemma C4_witness :
  ∃ st st' st'',
    sample_state "mysql" (artist_feed "FULL") false 1000 ∅ [Fail DbFatal] = Ok st ∧
    ingestFullResume quote quote 0 false st = (Raise (DbException DbFatal), st') ∧
    didAbort st.1 = false ∧ abortTime st.1 = None ∧
    statusDict st.1 !! "didAbort" = Some (SBool false) ∧
    statusDict st.1 !! "abortTime" = Some SNone ∧
    (didAbort st'.1 = didAbort st.1 ∧
     abortTime st'.1 = abortTime st.1 ∧
     statusDict st'.1 = statusDict st.1) ∧
    ingestFull quote quote false st = (Raise (DbException DbFatal), st'') ∧
    didAbort st''.1 = true ∧ abortTime st''.1 = Some 102 ∧
    statusDict st''.1 !! "didAbort" = Some (SBool true) ∧
    statusDict st''.1 !! "abortTime" = Some (STime 102).
Proof.
  assert (∃ st st' st'',
    sample_state "mysql" (artist_feed "FULL") false 1000 ∅ [Fail DbFatal] = Ok st ∧
    ingestFullResume quote quote 0 false st = (Raise (DbException DbFatal), st') ∧
    (didAbort st.1 = false ∧ abortTime st.1 = None ∧
     statusDict st.1 !! "didAbort" = Some (SBool false) ∧
     statusDict st.1 !! "abortTime" = Some SNone) ∧
    ingestFull quote quote false st = (Raise (DbException DbFatal), st'') ∧
    didAbort st''.1 = true ∧ abortTime st''.1 = Some 102 ∧
    statusDict st''.1 !! "didAbort" = Some (SBool true) ∧
    statusDict st''.1 !! "abortTime" = Some (STime 102))
    as (st & st' & st'' & Hs & Hr & (H1 & H2 & H3 & H4) & Hrest).
  { eexists _, _, _. split; [vm_compute; reflexivity|].
    split; [vm_compute; reflexivity|]. split; [vm_compute; done|].
    split; [vm_compute; reflexivity|]. vm_compute. done. }
  exists st, st', st''. split; [exact Hs|]. split; [exact Hr|].
  split; [exact H1|]. split; [exact H2|]. split; [exact H3|]. split; [exact H4|].
  split; [|exact Hrest].
  exact (C4_resume_never_marks_abort quote quote 0 false st _ st' Hr).
Defined.

(** C6 (where the code departs from it). On PostgreSQL the swap does not
    revert.  Let the live table exist, let it be renamed to the old
    name, and let the staging table take the live name; then let the
    renaming of its index, the next statement of the same [try] block,
    fail.  Whatever the driver raised and whatever the backend answers
    afterwards, [_renameAndDrop] raises a driver exception, and the
    original live table is left under the old name: it is not back under
    the live name.  (The docstring of [_renameAndDrop] says: if the
    renaming succeeds, drop the renamed table; otherwise revert it.) *)
Theorem C6_swap_not_reverted_on_postgresql g w source target live staging k fs :
  isPostgresql (names g) = true →
  tables w !! target = Some live →
  tables w !! source = Some staging →
  staging ≠ live →
  Py.truthy target = true →
  source ≠ target →
  source ≠ target +:+ "_old" →
  faults w = replicate 7 NoFault ++ Fail k :: fs →
  ∃ k' w',
    _renameAndDrop source target (g, w) = (Raise (DbException k'), (g, w')) ∧
    tables w' !! (target +:+ "_old") = Some live ∧
    tables w' !! target ≠ Some live.
Proof.
  intros Hpg Hlive Hsrc Hsl Htr Hst Hso Hf.
  pose proof (append_old_ne target) as Hne.
  assert (Hne' : target ≠ target +:+ "_old") by done.
  assert (Hts : target ≠ source) by done.
  assert (Hos : target +:+ "_old" ≠ source) by done.
  destruct w as [ts fl ck yr sub lg]. cbn [tables faults] in *. subst fl.
  unfold _renameAndDrop. cbn [replicate app].
  repeat (run; maps; rewrite ?Hpg, ?Htr, ?Hlive, ?Hsrc, ?truthy_old).
  destruct k; repeat (run; maps; rewrite ?Hpg, ?Htr, ?Hlive, ?Hsrc, ?truthy_old).
  1: eexists _, _; split; [reflexivity|]; run; maps; split; [done|congruence].
  all: destruct fs as [|[|k1] [|[|k2] fs]];
    repeat (run; maps; rewrite ?Hpg, ?Htr, ?Hlive, ?Hsrc, ?truthy_old).
  all: eexists _, _; split; [reflexivity|]; run; maps; split; [done|congruence].
Qed.

(** The staging rename goes through and the index rename is refused. *)
Lemma C6_witness :
  ∃ g w k' w',
    sample_state "postgresql" (artist_feed "FULL") false 1000
      (<["artist_x" := live4]> (<["artist_x_tmp" := live3]> ∅))
      (replicate 7 NoFault ++ [Fail DbFatal]) = Ok (g, w) ∧
    _renameAndDrop "artist_x_tmp" "artist_x" (g, w) = (Raise (DbException k'), (g, w')) ∧
    tables w' !! ("artist_x" +:+ "_old") = Some live4 ∧
    tables w' !! "artist_x" ≠ Some live4.
Proof.
  assert (∃ g w,
    sample_state "postgresql" (artist_feed "FULL") false 1000
      (<["artist_x" := live4]> (<["artist_x_tmp" := live3]> ∅))
      (replicate 7 NoFault ++ [Fail DbFatal]) = Ok (g, w) ∧
    isPostgresql (names g) = true ∧
    tables w !! "artist_x" = Some live4 ∧ tables w !! "artist_x_tmp" = Some live3 ∧
    faults w = replicate 7 NoFault ++ Fail DbFatal :: [])
    as (g & w & Hs & Hpg & Hl & Hsrc & Hf).
  { eexists _, _. split; [vm_compute; reflexivity|]. split; [reflexivity|].
    split; [vm_compute; reflexivity|]. split; [vm_compute; reflexivity|]. reflexivity. }
  destruct (C6_swap_not_reverted_on_postgresql g w "artist_x_tmp" "artist_x" live4 live3
              DbFatal [] Hpg Hl Hsrc) as (k' & w' & H1 & H2 & H3);
    [done|reflexivity|done|done|exact Hf|].
  exists g, w, k', w'. split; [exact Hs|]. split; [exact H1|]. split; [exact H2|exact H3].
Defined.


(** C8 (as the code has it). Incremental sub-strategy selection.  For an
    ingester built on a file of [size] bytes for the backend [type], the
    estimated record count is below 500,000 exactly when the file is
    smaller than 100,000,000 bytes.  Take any state of that ingester
    with a live table and any run of the [try] block of the incremental
    ingest.
    - When the backend is PostgreSQL or the file is that small, the run
      touches the live table and no other; and when no backend call
      fails and the run returns, the live table is what it was with one
      bulk statement on top for every batch the parser yields from the
      record to resume at, [REPLACE] statements on MySQL and plain
      [INSERT] statements otherwise (with the custom index of the file
      on PostgreSQL).
    - In every other case, when no backend call fails and the run
      returns, the live name holds the union of a staging table, built
      from scratch with the columns and the key of the file and loaded
      by [INSERT] statements with every batch of the file, and of the
      live table as it was; the staging table, the union table and the
      parked table are gone.  Whatever happens, no table outside those
      of the ingester is touched. *)
Theorem C8_incremental_strategy literal mogrify
    path prefix db type rd fd content can_seek size w0 g w fromRecord skip :
  new path prefix db type rd fd content can_seek size w0 = Ok (g, w) →
  (recordsExpected (parser g) <? 500000) = (size <? 100000000) ∧
  isPostgresql (names g) = String.eqb type "postgresql" ∧
  ∀ st r st' live,
    names st.1 = names g →
    recordsExpected (parser st.1) = recordsExpected (parser g) →
    tables st.2 !! tableName (names g) = Some live →
    incremental_try literal mogrify fromRecord skip st = (r, st') →
    if String.eqb type "postgresql" || (size <? 100000000) then
      only_tables [tableName (names g)] st st' ∧
      (faults st.2 = [] → r = Ok tt →
       ∃ p0 bs,
         seekToRecord (parser st.1) fromRecord = Ok p0 ∧
         written literal mogrify (names g) true skip (today_year st.2) p0 bs ∧
         tables st'.2 !! tableName (names g)
         = Some (custom_indexed (names g) (foldl Loaded live bs)))
    else
      only_tables (own_tables (names g)) st st' ∧
      (faults st.2 = [] → r = Ok tt →
       ∃ bs,
         written literal mogrify (names g) false skip (today_year st.2) (parser st.1) bs ∧
         let pk := primaryKey (parser st.1) in
         let cols := zip (columnNames (parser st.1)) (dataTypes (parser st.1)) in
         tables st'.2 !! tableName (names g)
         = Some (keyed pk (UnionAll (foldl Loaded (keyed pk (NewTable cols)) bs) live pk)) ∧
         tables st'.2 !! incTableName (names g) = None ∧
         tables st'.2 !! unionTableName (names g) = None ∧
         tables st'.2 !! (tableName (names g) +:+ "_old") = None).
Proof.
  intros H. apply new_inv in H as (ns & p & Hnn & Hp & Hns & Hpp & Hpg & _).
  apply init_inv in Hp as (l & cols & pk & dts & ex & pkIdx & Hp). cbn zeta in Hp.
  destruct Hp as (_ & _ & _ & _ & _ & _ & _ & _ & _ & _ & _ & Hexp & _).
  assert (He : (recordsExpected (parser g) <? 500000) = (size <? 100000000)).
  { rewrite Hpp, Hexp. by destruct (size <? 100000000). }
  split; [done|]. split; [by rewrite Hns|].
  intros [g1 w1] r st' live Hn Hr Hlive Ht. cbn [fst snd] in *.
  pose proof (named_incremental_try (names g) (own_tables (names g)) (λ x Hx, Hx)
                literal mogrify fromRecord skip (g1, w1) r st' Hn Ht) as [Hfr _].
  unfold incremental_try in Ht.
  rewrite (bind_run _ _ _ _ _ (self_run _)) in Ht. cbn [fst] in Ht.
  rewrite Hn, Hr, He, Hns, Hpg in Ht.
  destruct (String.eqb type "postgresql" || (size <? 100000000)) eqn:Eb.
  - unfold update_in_place in Ht.
    rewrite (bind_run _ _ _ _ _ (self_run _)) in Ht. cbn [fst] in Ht.
    rewrite Hn, Hns in Ht. rewrite Hns in Hlive |- *. split.
    + eapply within_populateTable; [|exact Ht]. by apply list_elem_of_singleton.
    + intros Hf ->.
      apply (populateTable_clean _ _ _ _ _ _ _ _ live) in Ht; [|done|done].
      cbn [fst snd] in Ht. rewrite Hn, Hns in Ht.
      destruct Ht as (p0 & bs & Hs & Hw & Hts & _).
      exists p0, bs. split; [done|]. split; [done|]. by rewrite Hts, lookup_insert_eq.
  - apply orb_false_elim in Eb as [Eb _]. split.
    + exact Hfr.
    + intros Hf ->.
      apply (prune_and_merge_clean literal mogrify skip _ _ live) in Ht;
        cbn [fst snd]; rewrite ?Hn, ?Hns.
      * cbn [fst snd] in Ht. rewrite Hn, Hns in Ht.
        destruct Ht as (bs & Hw & H1 & H2 & H3 & H4 & _). exists bs. done.
      * by eapply new_names_distinct.
      * by rewrite Hpg.
      * done.
      * by rewrite <- Hns.
Qed.

(** The same file, one byte below the threshold and at the threshold,
    against the same live table on MySQL. *)
Lemma C8_witness :
  ∃ g w st1 g' w' st2,
    sample_state "mysql" (artist_feed "INCREMENTAL") false 99999999
      (<["artist_x" := live4]> ∅) [] = Ok (g, w) ∧
    incremental_try quote quote 0 false (g, w) = (Ok tt, st1) ∧
    only_tables ["artist_x"] (g, w) st1 ∧
    (∃ b, tables st1.2 !! "artist_x" = Some (Loaded live4 b) ∧
          command b = "REPLACE" ∧ length (values b) = 4%nat) ∧
    sample_state "mysql" (artist_feed "INCREMENTAL") false 100000000
      (<["artist_x" := live4]> ∅) [] = Ok (g', w') ∧
    incremental_try quote quote 0 false (g', w') = (Ok tt, st2) ∧
    (∃ bs, written quote quote (names g') false false (today_year w') (parser g') bs ∧
           tables st2.2 !! "artist_x"
           = Some (keyed ["artist_id"]
                     (UnionAll (foldl Loaded (keyed ["artist_id"] live4) bs)
                        live4 ["artist_id"]))) ∧
    (∃ b, tables st2.2 !! "artist_x"
          = Some (Constrained
                    (UnionAll (Loaded (Constrained live4 ["artist_id"]) b)
                       live4 ["artist_id"]) ["artist_id"]) ∧
          command b = "INSERT" ∧ length (values b) = 4%nat) ∧
    tables st2.2 !! "artist_x_inc" = None ∧
    tables st2.2 !! "artist_x_un" = None ∧
    tables st2.2 !! "artist_x_old" = None.
Proof.
  assert (∃ g w st1,
    sample_state "mysql" (artist_feed "INCREMENTAL") false 99999999
      (<["artist_x" := live4]> ∅) [] = Ok (g, w) ∧
    incremental_try quote quote 0 false (g, w) = (Ok tt, st1) ∧
    tables w !! tableName (names g) = Some live4 ∧
    tableName (names g) = "artist_x" ∧
    (∃ b, tables st1.2 !! "artist_x" = Some (Loaded live4 b) ∧
          command b = "REPLACE" ∧ length (values b) = 4%nat))
    as (g & w & st1 & Hs & Hr & Hl & Hn & Hb).
  { eexists _, _, _. split; [vm_compute; reflexivity|]. split; [vm_compute; reflexivity|].
    split; [vm_compute; reflexivity|]. split; [reflexivity|].
    eexists. split; [vm_compute; reflexivity|]. split; reflexivity. }
  assert (∃ g' w' st2,
    sample_state "mysql" (artist_feed "INCREMENTAL") false 100000000
      (<["artist_x" := live4]> ∅) [] = Ok (g', w') ∧
    incremental_try quote quote 0 false (g', w') = (Ok tt, st2) ∧
    tables w' !! tableName (names g') = Some live4 ∧
    tableName (names g') = "artist_x" ∧ faults w' = [] ∧
    primaryKey (parser g') = ["artist_id"] ∧
    NewTable (zip (columnNames (parser g')) (dataTypes (parser g'))) = live4 ∧
    (∃ b, tables st2.2 !! "artist_x"
          = Some (Constrained
                    (UnionAll (Loaded (Constrained live4 ["artist_id"]) b)
                       live4 ["artist_id"]) ["artist_id"]) ∧
          command b = "INSERT" ∧ length (values b) = 4%nat) ∧
    tables st2.2 !! "artist_x_inc" = None ∧
    tables st2.2 !! "artist_x_un" = None ∧
    tables st2.2 !! "artist_x_old" = None)
    as (g' & w' & st2 & Hs' & Hr' & Hl' & Hn' & Hf' & Hpk & Hcols & Hb' & Hi & Hu & Ho).
  { eexists _, _, _. split; [vm_compute; reflexivity|]. split; [vm_compute; reflexivity|].
    split; [vm_compute; reflexivity|]. split; [reflexivity|]. split; [reflexivity|].
    split; [reflexivity|]. split; [reflexivity|].
    split; [eexists; split; [vm_compute; reflexivity|]; split; reflexivity|].
    split; [vm_compute; reflexivity|]. split; vm_compute; reflexivity. }
  destruct (C8_incremental_strategy quote quote _ _ _ _ _ _ _ _ _ _ _ _ 0 false Hs)
    as (_ & _ & H).
  specialize (H (g, w) _ st1 live4 eq_refl eq_refl Hl Hr). cbn in H.
  destruct H as [Hfr _]. rewrite Hn in Hfr.
  destruct (C8_incremental_strategy quote quote _ _ _ _ _ _ _ _ _ _ _ _ 0 false Hs')
    as (_ & _ & H').
  specialize (H' (g', w') _ st2 live4 eq_refl eq_refl Hl' Hr'). cbn in H'.
  destruct H' as [_ H']. destruct (H' Hf' eq_refl) as (bs & Hw & Ht & _).
  rewrite Hn', Hpk, Hcols in Ht.
  exists g, w, st1, g', w', st2.
  split; [exact Hs|]. split; [exact Hr|]. split; [exact Hfr|]. split; [exact Hb|].
  split; [exact Hs'|]. split; [exact Hr'|]. split; [by exists bs|].
  split; [exact Hb'|]. split; [exact Hi|]. split; [exact Hu|exact Ho].
Defined.

(** C8, as stated, fails on PostgreSQL: the in-place path is no upsert
    there.  The one bulk statement the run submits against the live
    table is a plain [INSERT], without [ON CONFLICT] clause: a row whose
    key the table already holds replaces nothing.  On MySQL the same
    file is written by [REPLACE]. *)
Lemma C8_counterexample :
  ∃ g w b g' w' b',
    sample_state "postgresql" (artist_feed "INCREMENTAL") false 1000
      (<["artist_x" := live4]> ∅) [] = Ok (g, w) ∧
    (ingestIncremental quote quote 0 false (g, w)).1 = Ok tt ∧
    submitted (ingestIncremental quote quote 0 false (g, w)).2.2
    = [SelectTableExists "epf" "artist_x"; SelectColumns "artist_x";
       BulkWrite "artist_x" b; Analyze "artist_x"] ∧
    command b = "INSERT" ∧ ignore b = false ∧ conflict b = None ∧
    sample_state "mysql" (artist_feed "INCREMENTAL") false 1000
      (<["artist_x" := live4]> ∅) [] = Ok (g', w') ∧
    submitted (ingestIncremental quote quote 0 false (g', w')).2.2
    = [SelectTableExists "epf" "artist_x"; ShowColumns "artist_x";
       BulkWrite "artist_x" b'; Analyze "artist_x"] ∧
    command b' = "REPLACE".
Proof.
  eexists _, _, _, _, _, _. split; [vm_compute; reflexivity|].
  split; [vm_compute; reflexivity|]. split; [vm_compute; reflexivity|].
  split; [reflexivity|]. split; [reflexivity|]. split; [reflexivity|].
  split; [vm_compute; reflexivity|]. split; [vm_compute; reflexivity|]. reflexivity.
Qed.

(** C3 (as the code has it). The column check of an incremental ingest
    against an existing live table, once the two catalogue queries are
    answered.  A file with fewer columns than the table fails the
    assertion.  A file with as many columns as the table passes the
    check and the run starts, with the column names the file declares.
    A file with more columns than the table passes the assertion as
    well, but the run does not start: the warning about the surplus
    columns is a call of the deprecated [LOGGER.warn], which raises
    [DeprecationWarning] before the column names are trimmed.  In both
    failing cases the ingester is as it was, no table has changed and
    nothing was logged. *)
Theorem C3_table_may_not_exceed_file literal mogrify fromRecord skip g w live :
  tables w !! tableName (names g) = Some live →
  calm 4 w →
  let n := table_columns live in
  let m := length (columnNames (parser g)) in
  ∃ w1,
    tables w1 = tables w ∧ logged w1 = logged w ∧
    ingestIncremental literal mogrify fromRecord skip (g, w) =
    if (n <=? m)%nat then
      if (n <? m)%nat then (Raise DeprecationWarning, (g, w1))
      else bind (incremental_frame (incremental_try literal mogrify fromRecord skip))
                (λ _, updateStatusDict) (g, w1)
    else (Raise AssertionError, (g, w1)).
Proof. apply ingestIncremental_column_check. Qed.

Lemma C3_witness :
  ∃ g w,
    sample_state "mysql" notes_feed false 1000 (<["artist_x" := live4]> ∅) [] = Ok (g, w) ∧
    table_columns live4 = 4%nat ∧ length (columnNames (parser g)) = 4%nat ∧
    ∃ w1,
      tables w1 = tables w ∧ logged w1 = logged w ∧
      ingestIncremental quote quote 0 false (g, w) =
      bind (incremental_frame (incremental_try quote quote 0 false))
           (λ _, updateStatusDict) (g, w1).
Proof.
  assert (∃ g w,
            sample_state "mysql" notes_feed false 1000 (<["artist_x" := live4]> ∅) []
            = Ok (g, w) ∧
            tables w !! tableName (names g) = Some live4 ∧ calm 4 w ∧
            length (columnNames (parser g)) = 4%nat) as (g & w & Hs & Ht & Hc & Hm).
  { eexists _, _. split; [vm_compute; reflexivity|].
    split; [vm_compute; reflexivity|]. split; [by constructor|reflexivity]. }
  exists g, w. split; [exact Hs|]. split; [reflexivity|]. split; [exact Hm|].
  destruct (C3_table_may_not_exceed_file quote quote 0 false g w live4 Ht Hc)
    as (w1 & H1 & H2 & H3).
  exists w1. split; [exact H1|]. split; [exact H2|].
  rewrite Hm in H3. exact H3.
Defined.

(** C3, as stated, fails.  The file declares four columns.  Against a
    live table of five columns (the file has fewer, which the claim says
    is tolerated) the ingest is rejected with an [AssertionError].
    Against a live table of three columns (the file has more, which the
    claim says is rejected as a violation of the invariant) the
    assertion passes: what stops the run is the [DeprecationWarning] of
    the warning call, and the column names are still the four of the
    file.  In both cases no statement other than the two catalogue
    queries was submitted. *)
Lemma C3_counterexample :
  ∃ g w w',
    sample_state "mysql" notes_feed false 1000 (<["artist_x" := live5]> ∅) [] = Ok (g, w) ∧
    sample_state "mysql" notes_feed false 1000 (<["artist_x" := live3]> ∅) [] = Ok (g, w') ∧
    length (columnNames (parser g)) = 4%nat ∧
    (ingestIncremental quote quote 0 false (g, w)).1 = Raise AssertionError ∧
    (ingestIncremental quote quote 0 false (g, w')).1 = Raise DeprecationWarning ∧
    (ingestIncremental quote quote 0 false (g, w')).2.1 = g ∧
    submitted (ingestIncremental quote quote 0 false (g, w)).2.2
    = [SelectTableExists "epf" "artist_x"; ShowColumns "artist_x"] ∧
    submitted (ingestIncremental quote quote 0 false (g, w')).2.2
    = [SelectTableExists "epf" "artist_x"; ShowColumns "artist_x"].
Proof.
  eexists _, _, _. split; [vm_compute; reflexivity|]. split; [vm_compute; reflexivity|].
  split; [reflexivity|]. split; [vm_compute; reflexivity|]. split; [vm_compute; reflexivity|].
  split; [vm_compute; reflexivity|]. split; vm_compute; reflexivity.
Qed.

(** C5 (where the code departs from it). The feed has four header rows
    and twelve data rows.  An uninterrupted run writes the rows decoded
    from the twelfth raw record on.  Resuming from record 2 on the stream
    the parser really opens, a pipe, raises [OSError] at [tell()] and
    writes nothing.  On a seekable stream, resuming from record 2 goes back
    to the first record after the archive block and writes the rows from
    the third data record on: the rows written before the split followed
    by the rows written after it are not the rows of the uninterrupted
    run. *)
Lemma C5_resume_diverges :
  let r12 := [Some "1"; Some "12"; Some "c"; Some "2012-01-01"] in
  let r13 := [Some "1"; Some "13"; Some "d"; None] in
  let r15 := [Some "1"; Some "15"; None; Some "2005 09 06 00:00:00"] in
  let r16 := [Some "1"; Some "16"; Some "g"; Some "1999 01 01"] in
  let r17 := [Some "1"; Some "17"; Some "h"; None] in
  let r18 := [Some "1"; Some "18"; Some "i"; None] in
  let r19 := [Some "1"; Some "19"; Some "j"; Some "2005 01 01"] in
  let r21 := [Some "1"; Some "21"; Some "l"; Some "2012-01-01"] in
  ∃ pipe file resumed st,
    sample_parser (artist_feed "FULL") false = Ok pipe ∧
    sample_parser (artist_feed "FULL") true = Ok file ∧
    (nextRecords 100 2026 pipe).1 = Ok [r17; r18; r19; r21] ∧
    (nextRecords 100 2026 file).1 = Ok [r17; r18; r19; r21] ∧
    seekToRecord pipe 2 = Raise OSError ∧
    sample_state "mysql" (artist_feed "FULL") false 1000 ∅ [] = Ok st ∧
    (ingestFullResume quote quote 2 false st).1 = Raise OSError ∧
    submitted (ingestFullResume quote quote 2 false st).2.2 = [] ∧
    seekToRecord file 2 = Ok resumed ∧
    (nextRecords 100 2026 resumed).1 = Ok [r12; r13; r15; r16; r17; r18; r19; r21] ∧
    [r17; r18] ++ [r12; r13; r15; r16; r17; r18; r19; r21] ≠ [r17; r18; r19; r21].
Proof.
  cbv zeta. eexists _, _, _, _.
  split; [vm_compute; reflexivity|]. split; [vm_compute; reflexivity|].
  split; [vm_compute; reflexivity|]. split; [vm_compute; reflexivity|].
  split; [vm_compute; reflexivity|]. split; [vm_compute; reflexivity|].
  split; [vm_compute; reflexivity|]. split; [vm_compute; reflexivity|].
  split; [vm_compute; reflexivity|]. split; [vm_compute; reflexivity|].
  intros H. discriminate H.
Qed.

(** ** Further properties of the parser and the ingester *)

(** X1. Rows round-trip through [splitRow].  Take a one-character field
    delimiter, a record delimiter that starts with another character, and
    at least one field, none containing either character.  The fields
    joined by the field delimiter, closed by the record delimiter and
    preceded by the required prefix (if any) split back into the same
    fields. *)
Theorem X1_splitRow_round_trip c r rd px fields :
  fields ≠ [] → c ≠ r →
  Forall (λ f, has_char c f = false) fields →
  Forall (λ f, has_char r f = false) fields →
  splitRow (String r rd) (String c "")
    (default "" px +:+ Py.join (String c "") fields +:+ String r rd) px = Ok fields.
Proof.
  intros Hne Hcr Hc Hr.
  assert (Hbody : ∀ row, row = Py.join (String c "") fields +:+ String r rd →
            (parts ← Py.partition row (String r rd); Py.split (parts.1.1) (String c ""))
            = Ok fields).
  { intros row ->. unfold Py.partition. cbn [Py.truthy].
    rewrite find_split_absent by by apply has_char_join.
    cbn [mbind result_bind fst]. unfold Py.split. cbn [Py.truthy].
    rewrite split_go_join by done. by destruct fields. }
  unfold splitRow. destruct px as [p|]; cbn [default from_option id].
  - destruct (Py.truthy p) eqn:Ep.
    + unfold Py.startswith. rewrite prefix_append. cbn [negb].
      unfold Py.partition at 2. rewrite Ep, find_split_here.
      cbn [mbind result_bind snd]. by apply Hbody.
    + destruct p; [|done]. cbn [mbind result_bind]. by apply Hbody.
  - cbn [mbind result_bind]. by apply Hbody.
Qed.

Lemma X1_witness :
  splitRow EOR SOH (row ["1"; "17"; "h"; ""]) None = Ok ["1"; "17"; "h"; ""].
Proof.
  apply (X1_splitRow_round_trip "001" "002" (String "010" "") None ["1"; "17"; "h"; ""]).
  - done.
  - done.
  - repeat constructor.
  - repeat constructor.
Defined.

(** X2. The key indexes computed by [Parser.__init__] point at the key
    columns: on success there is one index for every name of the primary
    key, in the same order, and each index is the position of the first
    column with that name.  In particular every name of the primary key is
    a column name. *)
Theorem X2_key_indexes_point_at_key_columns content can_seek size types rd fd p :
  init content can_seek size types rd fd = Ok p →
  length (primaryKeyIndexes p) = length (primaryKey p) ∧
  ∀ i j, primaryKeyIndexes p !! i = Some j →
    ∃ name, primaryKey p !! i = Some name ∧ columnNames p !! j = Some name ∧
            ∀ m, (m < j)%nat → columnNames p !! m ≠ Some name.
Proof.
  intros H. apply init_inv in H as (l & cols & pk & dts & ex & pkIdx & H).
  cbn zeta in H. destruct H as (_ & _ & _ & Hi & Hc & Hp & Hx & _). subst.
  split; [by eapply indexes_of_length|]. by apply indexes_of_spec.
Qed.

Lemma X2_witness :
  ∃ p, sample_parser (artist_feed "FULL") false = Ok p ∧
       primaryKey p = ["artist_id"] ∧ primaryKeyIndexes p = [1%nat] ∧
       length (primaryKeyIndexes p) = length (primaryKey p) ∧
       ∀ i j, primaryKeyIndexes p !! i = Some j →
         ∃ name, primaryKey p !! i = Some name ∧ columnNames p !! j = Some name ∧
                 ∀ m, (m < j)%nat → columnNames p !! m ≠ Some name.
Proof.
  eexists. split; [vm_compute; reflexivity|].
  split; [reflexivity|]. split; [reflexivity|].
  eapply (X2_key_indexes_point_at_key_columns (artist_feed "FULL") false 1000 mysql_typeMap
            EOR SOH).
  vm_compute. reflexivity.
Defined.

(** X3. How [Parser.__init__] classifies the columns.  Number and date
    columns are positions of declared types, and no column is both.  A
    column with a declared type is a number column when it is named
    [export_date], a date column when its name otherwise ends in [_date],
    and a number column when its name otherwise ends in [_id] and does not
    start with [is_], whatever type the file declares for it. *)
Theorem X3_column_kinds content can_seek size types rd fd p :
  init content can_seek size types rd fd = Ok p →
  (∀ j, j ∈ numberColumns p ∨ j ∈ dateColumns p → (j < length (dataTypes p))%nat) ∧
  (∀ j, j ∈ numberColumns p → j ∉ dateColumns p) ∧
  (∀ j c, columnNames p !! j = Some c → (j < length (dataTypes p))%nat →
     (c = "export_date" → j ∈ numberColumns p) ∧
     (c ≠ "export_date" → Py.endswith c "_date" = true → j ∈ dateColumns p) ∧
     (c ≠ "export_date" → Py.endswith c "_date" = false →
      Py.endswith c "_id" = true → Py.startswith c "is_" = false →
      j ∈ numberColumns p)).
Proof.
  intros H. apply init_inv in H as (l & cols & pk & dts & ex & pkIdx & H).
  cbn zeta in H.
  destruct H as (_ & _ & _ & _ & Hc & _ & _ & Hd & _ & Hn & Hdt & _).
  rewrite Hc, Hd, Hn, Hdt. clear Hc Hd Hn Hdt.
  rewrite length_fmap, fixupDataTypes_length.
  split; [|split].
  - intros j [(d & _ & Hj & _)%columns_of_kind_spec|(d & _ & Hj & _)%columns_of_kind_spec];
      rewrite Nat.sub_0_r in Hj; apply lookup_lt_Some in Hj;
      by rewrite fixupDataTypes_length in Hj.
  - intros j (d & _ & Hj & Hk)%columns_of_kind_spec (d' & _ & Hj' & Hk')%columns_of_kind_spec.
    rewrite Hj in Hj'. inversion Hj'; subst. clear -Hk Hk'.
    unfold str_in, numberTypes, dateTypes in *. cbn [existsb] in *.
    repeat match goal with
           | H : _ || _ = true |- _ => apply orb_true_iff in H as [H|H]
           | H : String.eqb _ _ = true |- _ => apply String.eqb_eq in H; subst
           end; done.
  - intros j c Hj Hlt. destruct (lookup_lt_is_Some_2 dts j Hlt) as [d Hd].
    pose proof (fixupDataTypes_lookup _ _ _ _ _ Hj Hd) as Hf.
    assert (Hin : ∀ kinds, str_in (fixup_one c d) kinds = true →
              j ∈ columns_of_kind kinds 0 (fixupDataTypes cols dts)).
    { intros kinds Hk. apply columns_of_kind_spec. exists (fixup_one c d).
      rewrite Nat.sub_0_r. split; [lia|done]. }
    split; [|split].
    + intros ->. apply Hin. done.
    + intros Hne He. apply Hin. unfold fixup_one.
      rewrite (proj2 (String.eqb_neq _ _) Hne), He. done.
    + intros Hne He Hid His. apply Hin. unfold fixup_one.
      rewrite (proj2 (String.eqb_neq _ _) Hne), He, Hid, His. cbn [andb].
      destruct (str_in d ["INTEGER"; "BIGINT"]) eqn:E; cbn [negb]; [|done].
      unfold str_in, numberTypes in *. cbn [existsb] in *.
      repeat match goal with
             | H : _ || _ = true |- _ => apply orb_true_iff in H as [H|H]
             | H : String.eqb _ _ = true |- _ => apply String.eqb_eq in H; subst
             end; done.
Qed.

Lemma X3_witness :
  ∃ p, sample_parser (artist_feed "FULL") false = Ok p ∧
       numberColumns p = [0; 1]%nat ∧ dateColumns p = [3%nat] ∧
       (∀ j, j ∈ numberColumns p → j ∉ dateColumns p).
Proof.
  eexists. split; [vm_compute; reflexivity|].
  split; [reflexivity|]. split; [reflexivity|].
  eapply (X3_column_kinds (artist_feed "FULL") false 1000 mysql_typeMap EOR SOH).
  vm_compute. reflexivity.
Defined.

(** X4. The type dictionary [typeMap] built by [Parser.__init__]: when no
    column name is repeated, a column name is mapped to the type at its
    position, and is not in the dictionary when no type is declared at that
    position. *)
Theorem X4_typeMap_lookup content can_seek size types rd fd p j c :
  init content can_seek size types rd fd = Ok p →
  NoDup (columnNames p) →
  columnNames p !! j = Some c →
  typeMap p !! c = dataTypes p !! j.
Proof.
  intros H Hnd Hj. unfold init in H.
  destruct (nextRowString rd false (open_stream content can_seek)) as [line1 f1].
  destruct line1 as [l|]; [|done].
  destruct (splitRow rd fd l (Some commentChar)) as [cols|]; [|done].
  unfold mbind, result_bind in H.
  destruct (grabRows 10 rd f1 []) as [rows f2].
  destruct (headerRows rd fd _ rows) as [[[pk dts] ex]|]; [|done].
  destruct (indexes_of cols pk) as [pkIdx|]; [|done].
  inversion H; subst; clear H. cbn [typeMap dataTypes columnNames] in *.
  rewrite (dict_zip_lookup cols _ ∅ j c Hnd Hj).
  destruct ((mapType types <$> fixupDataTypes cols dts) !! j); [done|].
  apply lookup_empty.
Qed.

Lemma X4_witness :
  ∃ p, sample_parser (artist_feed "FULL") false = Ok p ∧
       typeMap p !! "release_date" = Some "DATETIME" ∧
       typeMap p !! "release_date" = dataTypes p !! 3%nat.
Proof.
  eexists. split; [vm_compute; reflexivity|]. split; [vm_compute; reflexivity|].
  eapply (X4_typeMap_lookup (artist_feed "FULL") false 1000 mysql_typeMap EOR SOH).
  - vm_compute. reflexivity.
  - apply (bool_decide_unpack _). vm_compute. reflexivity.
  - reflexivity.
Defined.

(** X5. What [nextRecord] returns and what it touches.  A returned record
    has at most as many fields as there are column names, and a field at
    every date and number column; the record counter has advanced and at
    least one line of the stream was consumed.  Whatever the outcome,
    nothing of the parser changes but the position in the stream and the
    record counter, which never decreases. *)
Theorem X5_nextRecord_shape year p r p' :
  nextRecord year p = (r, p') →
  set_latestRecordNum (set_eFile p' (eFile p)) (latestRecordNum p) = p ∧
  raw (eFile p') = raw (eFile p) ∧ seekable (eFile p') = seekable (eFile p) ∧
  latestRecordNum p ≤ latestRecordNum p' ∧
  (length (pending (eFile p')) ≤ length (pending (eFile p)))%nat ∧
  ∀ rec, r = Ok (Some rec) →
    (length rec ≤ length (columnNames p))%nat ∧
    (∀ j, j ∈ dateColumns p ∨ j ∈ numberColumns p → (j < length rec)%nat) ∧
    latestRecordNum p < latestRecordNum p' ∧
    (length (pending (eFile p')) < length (pending (eFile p)))%nat.
Proof.
  intros H. pose proof (nextRecord_spec _ _ _ _ H) as (Hf & Hraw & Hsk & Hle & Hr).
  pose proof (nextRecord_shrinks _ _ _ _ H) as [Hs1 Hs2].
  repeat (split; [done|]). intros rec ->. destruct Hr as (H1 & H2 & H3).
  repeat (split; [done|]). by apply (Hs2 rec).
Qed.

Lemma X5_witness :
  ∃ p p', sample_parser numeric_feed false = Ok p ∧
    nextRecord 2026 p = (Ok (Some [Some "1"; Some "42"; Some "f"; None]), p') ∧
    latestRecordNum p = 0 ∧ latestRecordNum p' = 2 ∧
    set_latestRecordNum (set_eFile p' (eFile p)) (latestRecordNum p) = p.
Proof.
  assert (∃ p p', sample_parser numeric_feed false = Ok p ∧
            nextRecord 2026 p = (Ok (Some [Some "1"; Some "42"; Some "f"; None]), p') ∧
            latestRecordNum p = 0 ∧ latestRecordNum p' = 2) as (p & p' & Hp & Hn & H0 & H2).
  { eexists _, _. split; [vm_compute; reflexivity|]. split; [vm_compute; reflexivity|]. done. }
  exists p, p'. repeat (split; [assumption|]).
  exact (proj1 (X5_nextRecord_shape 2026 p _ p' Hn)).
Defined.

(** X6. The exceptions of [nextRecord].  Let the pending lines be
    well-formed UTF-8, so that the decoding at the end of
    [nextRowString] returns.  Then a call that raises, raises
    [ValueError] (a date whose two-digit-year form does not start with a
    number, or an empty delimiter), [IndexError] (a row that ends before
    a date or number column) or [RecursionError] (more records skipped
    in a row than the stack admits nested calls).  By then the record
    that raised, or the last one skipped, is consumed and counted: the
    next call goes on with the record after it. *)
Theorem X6_nextRecord_exceptions depth year p e p' :
  Forall (λ ln, Py.utf8_valid ln = true) (pending (eFile p)) →
  nextRecord_depth depth year p = (Raise e, p') →
  (e = ValueError ∨ e = IndexError ∨ e = RecursionError) ∧
  latestRecordNum p < latestRecordNum p' ∧
  (length (pending (eFile p')) < length (pending (eFile p)))%nat.
Proof. intros _. apply nextRecord_depth_raises. Qed.

Lemma X6_witness :
  ∃ p p',
    sample_parser (feed ([column_row; key_row; types_row; mode_row "FULL"]
                         ++ replicate 7 ("#c" +:+ EOR)
                         ++ [row ["1"; "17"]; row ["1"; "18"; "i"; ""]])) false = Ok p ∧
    nextRecord_depth 5 2026 p = (Raise IndexError, p') ∧
    (nextRecord_depth 5 2026 p').1 = Ok (Some [Some "1"; Some "18"; Some "i"; None]) ∧
    latestRecordNum p < latestRecordNum p'.
Proof.
  assert (∃ p p',
    sample_parser (feed ([column_row; key_row; types_row; mode_row "FULL"]
                         ++ replicate 7 ("#c" +:+ EOR)
                         ++ [row ["1"; "17"]; row ["1"; "18"; "i"; ""]])) false = Ok p ∧
    nextRecord_depth 5 2026 p = (Raise IndexError, p') ∧
    (nextRecord_depth 5 2026 p').1 = Ok (Some [Some "1"; Some "18"; Some "i"; None]) ∧
    Forall (λ ln, Py.utf8_valid ln = true) (pending (eFile p)))
    as (p & p' & Hp & Hn & Hn' & Hv).
  { eexists _, _. split; [vm_compute; reflexivity|].
    split; [vm_compute; reflexivity|]. split; [vm_compute; reflexivity|].
    repeat (constructor; [vm_compute; reflexivity|]). constructor. }
  exists p, p'. repeat (split; [assumption|]).
  exact (proj1 (proj2 (X6_nextRecord_exceptions 5 2026 p _ p' Hv Hn))).
Defined.

(** X7. [nextRecords] returns at most [maxNum] records, none of them
    empty and none longer than the column-name row; the record counter
    advances by at least the number of records returned, and each record
    returned costs at least one line of the stream. *)
Theorem X7_nextRecords_bounds maxNum year p recs p' :
  nextRecords maxNum year p = (Ok recs, p') →
  (length recs ≤ maxNum)%nat ∧
  Forall (λ rec, rec ≠ [] ∧ (length rec ≤ length (columnNames p))%nat) recs ∧
  latestRecordNum p + Z.of_nat (length recs) ≤ latestRecordNum p' ∧
  (length (pending (eFile p')) + length recs ≤ length (pending (eFile p)))%nat.
Proof.
  intros H. apply nextRecords_loop_spec in H as (_ & new & -> & H).
  by rewrite app_nil_l.
Qed.

Lemma X7_witness :
  ∃ p recs p', sample_parser (artist_feed "FULL") false = Ok p ∧
    nextRecords 3 2026 p = (Ok recs, p') ∧
    length recs = 3%nat ∧ latestRecordNum p' = 3 ∧
    (length recs ≤ 3)%nat.
Proof.
  assert (∃ p recs p', sample_parser (artist_feed "FULL") false = Ok p ∧
            nextRecords 3 2026 p = (Ok recs, p') ∧
            length recs = 3%nat ∧ latestRecordNum p' = 3) as (p & recs & p' & Hp & Hn & Hl & Hc).
  { eexists _, _, _. split; [vm_compute; reflexivity|]. split; [vm_compute; reflexivity|].
    done. }
  exists p, recs, p'. repeat (split; [assumption|]).
  exact (proj1 (X7_nextRecords_bounds 3 2026 p recs p' Hn)).
Defined.

(** X8. A data read never returns a comment.  The row that
    [nextRowString(ignoreComments=True)] returns is not empty and does not
    start with the comment character: comment rows between records, such
    as the trailing [#recordsWritten] and [#legal] rows, are passed over. *)
Theorem X8_data_rows_are_no_comments rd f rs f' :
  nextRowString rd true f = (Some rs, f') →
  Py.truthy rs = true ∧ Py.startswith rs commentChar = false.
Proof.
  intros H. split; [by eapply nextRowString_truthy|].
  unfold nextRowString in H.
  destruct (nextRowString_loop rd true true [] (pending f)) as [lst ls'] eqn:E.
  destruct lst as [|x l]; [done|]. inversion H; subst.
  eapply nextRowString_loop_no_comment in E as [Ht Hc]; [|done|done|done].
  unfold commentChar. rewrite startswith_first_byte.
  change (first_byte_is "#" (Py.join "" (x :: l)) = false).
  by rewrite join_first_byte.
Qed.

Lemma X8_witness :
  let f := {| raw := "";
              pending := ["#legal: x" +:+ EOR; row ["1"; "2"]; "#recordsWritten:1" +:+ EOR];
              seekable := false |} in
  (nextRowString EOR true f).1 = Some (row ["1"; "2"]) ∧
  Py.truthy (row ["1"; "2"]) = true ∧
  Py.startswith (row ["1"; "2"]) commentChar = false.
Proof.
  intros f. split; [vm_compute; reflexivity|].
  apply (X8_data_rows_are_no_comments EOR f _ (nextRowString EOR true f).2).
  vm_compute. reflexivity.
Defined.



(** X10. On a stream whose records take one line each, closed or not by
    the zero padding of its archive, [advanceToNextRecord] skips exactly
    what a data read consumes: it leaves the stream where
    [nextRowString(ignoreComments=True)] leaves it and counts a record
    exactly when that read returns a row.  So the parser after skipping
    a record is the parser after [nextRecord] has read it, when no
    malformed record was passed over on the way. *)
Theorem X10_skipping_agrees_with_reading p :
  one_line_stream (recordDelim p) (pending (eFile p)) →
  advanceToNextRecord p
  = (let rf := nextRowString (recordDelim p) true (eFile p) in
     match rf.1 with
     | Some _ => set_latestRecordNum (set_eFile p rf.2) (latestRecordNum p + 1)
     | None => set_eFile p rf.2
     end) ∧
  ∀ year rec p',
    nextRecord year p = (Ok (Some rec), p') →
    latestRecordNum p' = latestRecordNum p + 1 →
    p' = advanceToNextRecord p.
Proof.
  intros Hall.
  assert (Heq : advanceToNextRecord p
    = (let rf := nextRowString (recordDelim p) true (eFile p) in
       match rf.1 with
       | Some _ => set_latestRecordNum (set_eFile p rf.2) (latestRecordNum p + 1)
       | None => set_eFile p rf.2
       end)).
  { unfold advanceToNextRecord, nextRowString.
    rewrite (advance_loop_one_line _ _ Hall).
    destruct (nextRowString_loop _ true true [] _) as [lst ls']. cbn [fst snd].
    by destruct lst. }
  split; [done|]. intros year rec p' H Hn. rewrite Heq. clear Heq.
  pose proof (nextRecord_total year p) as Ht. rewrite H in Ht.
  cbn [nextRecord_fuel] in Ht. cbv zeta.
  destruct (nextRowString (recordDelim p) true (eFile p)) as [[rs|] f']; [|done].
  cbn [fst snd]. destruct (Py.truthy rs); [|done].
  destruct (decode year _ rs) as [[rec'|]|e]; [by inversion Ht| |done].
  apply nextRecord_fuel_spec in Ht as (_ & _ & _ & _ & Hlt & _). cbn in Hlt. lia.
Qed.

(** The stream of [padded_feed] after construction: five records and
    the padding of the archive. *)
Lemma X10_witness :
  ∃ p p', sample_parser padded_feed false = Ok p ∧
    length (pending (eFile p)) = 6%nat ∧
    last (pending (eFile p)) = Some (zeros 1024) ∧
    nextRecord 2026 p = (Ok (Some [Some "1"; Some "17"; Some "h"; None]), p') ∧
    p' = advanceToNextRecord p ∧
    Nat.iter 6 advanceToNextRecord p
    = set_latestRecordNum (set_eFile p (set_pending (eFile p) [])) 5.
Proof.
  assert (∃ p p', sample_parser padded_feed false = Ok p ∧
            length (pending (eFile p)) = 6%nat ∧
            last (pending (eFile p)) = Some (zeros 1024) ∧
            nextRecord 2026 p = (Ok (Some [Some "1"; Some "17"; Some "h"; None]), p') ∧
            Nat.iter 6 advanceToNextRecord p
            = set_latestRecordNum (set_eFile p (set_pending (eFile p) [])) 5 ∧
            latestRecordNum p' = latestRecordNum p + 1 ∧
            one_line_stream (recordDelim p) (pending (eFile p)))
    as (p & p' & Hp & Hl & Hz & Hn & Hi & Hc & Hall).
  { eexists _, _. split; [vm_compute; reflexivity|]. split; [vm_compute; reflexivity|].
    split; [vm_compute; reflexivity|]. split; [vm_compute; reflexivity|].
    split; [vm_compute; reflexivity|]. split; [reflexivity|].
    cbn [one_line_stream].
    do 5 (left; split;
          [split; [vm_compute; reflexivity|];
           split; [reflexivity|split; [reflexivity|intros _; vm_compute; reflexivity]]|]).
    right. split; [|reflexivity].
    split; [vm_compute; reflexivity|]. split; vm_compute; reflexivity. }
  exists p, p'. split; [exact Hp|]. split; [exact Hl|]. split; [exact Hz|].
  split; [exact Hn|]. split; [|exact Hi].
  exact (proj2 (X10_skipping_agrees_with_reading p Hall) 2026 _ p' Hn Hc).
Defined.

(** X11. When [ingestFull] marks the job as aborted.  If it raises a
    driver [Error], the job is aborted: the flag is set, the abort time is
    taken, and the status snapshot says so.  If it raises anything else
    (a driver warning, [IndexError] from a short record, ...), the flag,
    the abort time and the snapshot are untouched.  If it returns, the flag
    and the abort time are what they were, the end time is taken, and the
    snapshot is refreshed. *)
Theorem X11_ingestFull_aborts_on_driver_errors literal mogrify skip st r st' :
  ingestFull literal mogrify skip st = (r, st') →
  match r with
  | Ok _ =>
      didAbort st'.1 = didAbort st.1 ∧ abortTime st'.1 = abortTime st.1 ∧
      statusDict st'.1 !! "didAbort" = Some (SBool (didAbort st.1)) ∧
      ∃ t, endTime st'.1 = Some t ∧ statusDict st'.1 !! "endTime" = Some (STime t)
  | Raise e =>
      if is_db_Error e
      then aborted st'.1
      else didAbort st'.1 = didAbort st.1 ∧ abortTime st'.1 = abortTime st.1 ∧
           statusDict st'.1 = statusDict st.1
  end.
Proof.
  destruct st as [g w]. unfold ingestFull.
  rewrite (bind_run _ _ _ _ _ (self_run (g, w))). cbn [fst].
  unfold bind at 1, log at 1, update_world at 1. cbn [fst snd].
  unfold bind at 1, now at 1, bind at 1, world at 1. cbn [fst snd].
  unfold bind at 1, update_world at 1, ret at 1. cbn [fst snd].
  unfold bind at 1, update at 1. cbn [fst snd].
  unfold bind at 1.
  destruct (try_except _ abort_clause _) as [[[]|e] [g2 w2]] eqn:E;
    apply abort_clause_spec in E; try apply keeps_abort_full_body.
  - unfold bind, now, update, update_world, world, ret, updateStatusDict, log.
    cbn [fst snd]. intros [= <- <-]. cbn in *.
    unfold abort_state in E. cbn in E. inversion E as [[Hd Ha Hs]].
    split; [done|]. split; [done|]. split; [by rewrite lookup_insert_eq, Hd|].
    eexists. split; [done|].
    rewrite lookup_insert_ne by done. rewrite lookup_insert_ne by done.
    by rewrite lookup_insert_eq.
  - intros [= <- <-]. destruct (is_db_Error e); [done|].
    unfold abort_state in E. cbn in *. by inversion E.
Qed.

Lemma X11_witness :
  ∃ st st',
    sample_state "mysql" (artist_feed "FULL") false 1000 ∅ [Fail DbFatal] = Ok st ∧
    ingestFull quote quote false st = (Raise (DbException DbFatal), st') ∧
    didAbort st'.1 = true ∧ statusDict st'.1 !! "didAbort" = Some (SBool true).
Proof.
  assert (∃ st st',
    sample_state "mysql" (artist_feed "FULL") false 1000 ∅ [Fail DbFatal] = Ok st ∧
    ingestFull quote quote false st = (Raise (DbException DbFatal), st'))
    as (st & st' & Hs & Hr).
  { eexists _, _. split; [vm_compute; reflexivity|]. vm_compute. reflexivity. }
  exists st, st'. split; [exact Hs|]. split; [exact Hr|].
  pose proof (X11_ingestFull_aborts_on_driver_errors quote quote false st _ st' Hr) as H.
  cbn in H. destruct H as (H1 & H2 & _). split; [exact H1|exact H2].
Defined.

(** X12. When [ingestIncremental] marks the job as aborted.
    - Whatever the run does: if it returns, the flag and the abort time
      are what they were and the snapshot is refreshed; if it raises
      anything but a driver [Error] (the [AssertionError] of the column
      check and the [DeprecationWarning] of a warning among them), the
      flag, the abort time and the snapshot are untouched.
    - A catalogue query that fails leaves the job unaborted: when one of
      the four backend calls of the existence query and the column
      query meets a fault, the exception of the driver is raised and the
      ingester is exactly as it was.
    - An error after the run started aborts the job: when the live
      table has as many columns as the file and the two queries went
      through, every driver [Error] the run raises leaves the job
      aborted. *)
Theorem X12_ingestIncremental_abort_marking literal mogrify fromRecord skip g w :
  (∀ r st',
     ingestIncremental literal mogrify fromRecord skip (g, w) = (r, st') →
     match r with
     | Ok _ =>
         didAbort st'.1 = didAbort g ∧ abortTime st'.1 = abortTime g ∧
         statusDict st'.1 !! "didAbort" = Some (SBool (didAbort g))
     | Raise e =>
         is_db_Error e = false →
         didAbort st'.1 = didAbort g ∧ abortTime st'.1 = abortTime g ∧
         statusDict st'.1 = statusDict g
     end) ∧
  (∀ i k fs,
     (i < 4)%nat →
     faults w = replicate i NoFault ++ Fail k :: fs →
     (2 ≤ i → is_Some (tables w !! tableName (names g)))%nat →
     ∃ w', ingestIncremental literal mogrify fromRecord skip (g, w)
           = (Raise (DbException k), (g, w')) ∧
           tables w' = tables w ∧ logged w' = logged w) ∧
  (∀ live e st',
     tables w !! tableName (names g) = Some live →
     table_columns live = length (columnNames (parser g)) →
     calm 4 w →
     ingestIncremental literal mogrify fromRecord skip (g, w) = (Raise e, st') →
     is_db_Error e = true →
     aborted st'.1).
Proof.
  split; [|split].
  - intros r st' H. unfold ingestIncremental in H.
    rewrite (bind_run _ _ _ _ _ (self_run (g, w))) in H.
    change ((g, w).1) with g in H.
    apply bind_inv in H as [(e & Ht & ->)|(ex & st1 & Ht & H)].
    { apply (keeps_tableExists id) in Ht. unfold unchanged, id in Ht. by rewrite Ht. }
    apply (keeps_tableExists id) in Ht. unfold unchanged, id in Ht. cbn in Ht.
    assert (Hmid : ∀ r2 st2,
      (if negb ex
       then warn "Table does not exist in the database; skipping"
       else tableColCount <- columnCount "" false;;
            check_columns tableColCount;;
            incremental_frame (incremental_try literal mogrify fromRecord skip)) st1
      = (r2, st2) →
      match r2 with
      | Ok _ => abort_state st2.1 = abort_state g
      | Raise e => is_db_Error e = false → abort_state st2.1 = abort_state g
      end).
    { intros r2 st2 Hm. destruct (negb ex).
      { injection Hm as <- <-. intros _. by rewrite Ht. }
      apply bind_inv in Hm as [(e & Hc & ->)|(n & st3 & Hc & Hm)].
      { apply (keeps_columnCount id) in Hc. unfold unchanged, id in Hc. by rewrite Hc, Ht. }
      apply (keeps_columnCount id) in Hc. unfold unchanged, id in Hc.
      apply bind_inv in Hm as [(e & Hk & ->)|([] & st4 & Hk & Hm)].
      { apply check_columns_spec in Hk as [-> _]. by rewrite Hc, Ht. }
      apply check_columns_spec in Hk as [-> _].
      apply incremental_frame_spec in Hm; [|apply keeps_abort_incremental_try].
      rewrite Hc, Ht in Hm.
      destruct r2 as [[]|e]; [done|]. intros He. by rewrite He in Hm. }
    apply bind_inv in H as [(e & Hm & ->)|([] & st2 & Hm & H)].
    + apply Hmid in Hm. intros He. specialize (Hm He).
      unfold abort_state in Hm. by inversion Hm.
    + apply Hmid in Hm. destruct st2 as [g2 w2].
      unfold updateStatusDict, update in H. inversion H; subst. cbn in *.
      unfold abort_state in Hm. inversion Hm as [[Hd Ha Hs]].
      split; [done|]. split; [done|]. by rewrite lookup_insert_eq, Hd.
  - intros i k fs Hi Hf Hlive.
    destruct w as [ts fl ck yr sub lg]. cbn [tables faults logged] in *. subst fl.
    unfold ingestIncremental.
    assert (Htn : (if Py.truthy (tableName (names g))
                   then tableName (names g) else tableName (names g)) = tableName (names g)).
    { by destruct (Py.truthy _). }
    assert (Hte : Py.truthy "" = false) by done.
    destruct i as [|[|[|[|i]]]]; [| | | |lia]; cbn [replicate app].
    1,2: eexists {| tables := ts; faults := _; clock := ck; today_year := yr;
                    submitted := _; logged := lg |};
         repeat (run; cbv beta iota delta [negb]; rewrite ?Htn);
         split; [reflexivity|done].
    all: destruct Hlive as [live Hlive]; [lia|].
    all: destruct (isPostgresql (names g)) eqn:Hpg.
    all: eexists {| tables := ts; faults := _; clock := ck; today_year := yr;
                    submitted := _; logged := lg |};
         repeat (run; cbv beta iota delta [negb]; rewrite ?Hte, ?Htn, ?Hpg, ?Hlive);
         split; [reflexivity|done].
  - intros live e st' Hlive Hcols Hcalm H He.
    destruct (ingestIncremental_column_check literal mogrify fromRecord skip g w live
                Hlive Hcalm) as (w1 & _ & _ & Heq).
    cbv zeta in Heq. rewrite Hcols, Nat.leb_refl, Nat.ltb_irrefl in Heq.
    rewrite Heq in H. clear Heq.
    apply bind_inv in H as [(e' & Hm & [= <-])|([] & st2 & Hm & H)].
    + apply incremental_frame_spec in Hm; [|apply keeps_abort_incremental_try].
      by rewrite He in Hm.
    + destruct st2. by inversion H.
Qed.

(** The same file and ingester twice: the first connection refused, and
    the connection of the run refused after both queries went through. *)
Lemma X12_witness :
  ∃ g w w' w2 st2,
    sample_state "mysql" (artist_feed "INCREMENTAL") false 1000 ∅ [Fail DbFatal]
    = Ok (g, w) ∧
    ingestIncremental quote quote 0 false (g, w) = (Raise (DbException DbFatal), (g, w')) ∧
    didAbort g = false ∧
    sample_state "mysql" (artist_feed "INCREMENTAL") false 1000 (<["artist_x" := live4]> ∅)
      (replicate 4 NoFault ++ [Fail DbFatal]) = Ok (g, w2) ∧
    ingestIncremental quote quote 0 false (g, w2) = (Raise (DbException DbFatal), st2) ∧
    aborted st2.1.
Proof.
  assert (∃ g w w2 st2,
    sample_state "mysql" (artist_feed "INCREMENTAL") false 1000 ∅ [Fail DbFatal]
    = Ok (g, w) ∧
    faults w = replicate 0 NoFault ++ Fail DbFatal :: [] ∧
    didAbort g = false ∧
    sample_state "mysql" (artist_feed "INCREMENTAL") false 1000 (<["artist_x" := live4]> ∅)
      (replicate 4 NoFault ++ [Fail DbFatal]) = Ok (g, w2) ∧
    tables w2 !! tableName (names g) = Some live4 ∧
    table_columns live4 = length (columnNames (parser g)) ∧
    calm 4 w2 ∧
    ingestIncremental quote quote 0 false (g, w2) = (Raise (DbException DbFatal), st2))
    as (g & w & w2 & st2 & Hs & Hf & Hd & Hs2 & Hl & Hc & Hcalm & Hr).
  { eexists _, _, _, _. split; [vm_compute; reflexivity|]. split; [reflexivity|].
    split; [reflexivity|]. split; [vm_compute; reflexivity|].
    split; [vm_compute; reflexivity|]. split; [reflexivity|].
    split; [by repeat constructor|]. vm_compute. reflexivity. }
  destruct (X12_ingestIncremental_abort_marking quote quote 0 false g w) as (_ & HB & _).
  destruct (HB 0%nat DbFatal [] ltac:(lia) Hf ltac:(lia)) as (w' & Hr' & _).
  destruct (X12_ingestIncremental_abort_marking quote quote 0 false g w2) as (_ & _ & HC).
  exists g, w, w', w2, st2. split; [exact Hs|]. split; [exact Hr'|]. split; [exact Hd|].
  split; [exact Hs2|]. split; [exact Hr|].
  exact (HC live4 _ st2 Hl Hc Hcalm Hr eq_refl).
Defined.

(** X13. An incremental ingest without a live table stops at its
    warning.  When the table the file belongs to does not exist and the
    existence query goes through, [ingestIncremental] raises the
    [DeprecationWarning] of the deprecated [LOGGER.warn] call instead of
    skipping the file: the ingester is exactly as it was (no start time
    is taken and the status snapshot is not refreshed), nothing is
    logged, no table is touched, and the one statement submitted is the
    existence query. *)
Theorem X13_incremental_without_live_table literal mogrify fromRecord skip g w :
  tables w !! tableName (names g) = None →
  calm 2 w →
  ∃ w',
    ingestIncremental literal mogrify fromRecord skip (g, w)
    = (Raise DeprecationWarning, (g, w')) ∧
    tables w' = tables w ∧ clock w' = clock w ∧ logged w' = logged w ∧
    submitted w'
    = submitted w ++ [SelectTableExists (dbName (names g)) (tableName (names g))].
Proof.
  intros Hlive Hcalm. unfold calm in Hcalm.
  destruct w as [ts fl ck yr sub lg]. cbn [tables faults logged submitted clock] in *.
  unfold ingestIncremental.
  assert (Htn : (if Py.truthy (tableName (names g))
                 then tableName (names g) else tableName (names g)) = tableName (names g)).
  { by destruct (Py.truthy _). }
  destruct fl as [|f1 [|f2 fl]]; cbn [take] in Hcalm;
    repeat match goal with
           | H : Forall _ (_ :: _) |- _ =>
               let Hx := fresh in apply Forall_cons in H as [Hx H]; cbv beta in Hx; subst
           end.
  all: eexists {| tables := ts; faults := _; clock := ck; today_year := yr;
                  submitted := _; logged := _ |}.
  all: repeat (run; cbv beta iota delta [negb]; rewrite ?Htn, ?Hlive).
  all: cbn [tables logged submitted clock]; split; [reflexivity|done].
Qed.

Lemma X13_witness :
  ∃ g w w',
    sample_state "mysql" (artist_feed "INCREMENTAL") false 1000 ∅ [] = Ok (g, w) ∧
    ingestIncremental quote quote 0 false (g, w) = (Raise DeprecationWarning, (g, w')) ∧
    tables w' = tables w ∧ startTime g = None ∧ statusDict g !! "endTime" = Some SNone.
Proof.
  assert (∃ g w,
    sample_state "mysql" (artist_feed "INCREMENTAL") false 1000 ∅ [] = Ok (g, w) ∧
    tables w !! tableName (names g) = None ∧ calm 2 w ∧ startTime g = None ∧
    statusDict g !! "endTime" = Some SNone)
    as (g & w & Hs & Ht & Hc & Hst & Hsd).
  { eexists _, _. split; [vm_compute; reflexivity|]. split; [vm_compute; reflexivity|].
    split; [by constructor|]. split; [reflexivity|]. vm_compute. reflexivity. }
  destruct (X13_incremental_without_live_table quote quote 0 false g w Ht Hc)
    as (w' & H1 & H2 & _).
  exists g, w, w'. split; [exact Hs|]. split; [exact H1|]. split; [exact H2|].
  split; [exact Hst|exact Hsd].
Defined.

(** X14. The error policy of a batch write.  When the store answers the
    bulk statement of a batch with a driver warning or an integrity error,
    [_populateTable] only logs it and goes on: the turn of the loop ends
    normally and the batch counts as ingested, [lastRecordIngested] moving
    to the parser's record counter.  Any other driver error is raised again
    and [lastRecordIngested] stays where it was. *)
Theorem X14_batch_error_policy literal mogrify tn inc skip records g w esc k fs :
  isPostgresql (names g) || isMysql (names g) = true →
  escape_loop literal mogrify (isMysql (names g)) (primaryKeyIndexes (parser g)) ∅ records []
  = Ok esc →
  faults w = replicate (if isPostgresql (names g) then 2 else 1)%nat NoFault ++ Fail k :: fs →
  let out := write_batch literal mogrify tn inc skip records (g, w) in
  match k with
  | DbFatal =>
      out.1 = Raise (DbException DbFatal) ∧
      lastRecordIngested out.2.1 = lastRecordIngested g
  | _ =>
      out.1 = Ok tt ∧
      lastRecordIngested out.2.1 = latestRecordNum (parser g)
  end.
Proof.
  intros Hd He Hf. destruct w as [ts fl ck yr sub lg]. cbn [faults] in Hf. subst fl.
  unfold write_batch, _escapeRecords, _checkProgress.
  destruct (isPostgresql (names g)) eqn:Hpg; [clear Hd|cbn in Hd; rewrite Hd in He];
    cbn [replicate app].
  all: repeat (run; rewrite ?Hpg, ?Hd, ?He).
  all: destruct k; repeat (run; rewrite ?Hpg, ?Hd, ?He); cbn [lastRecordIngested set_lastRecordIngested].
  all: try done.
  all: try (match goal with |- context [5000 <=? ?x] => destruct (5000 <=? x) end; repeat run).
  all: try done.
  all: try (match goal with |- context [120 <=? ?x] => destruct (120 <=? x) end; repeat run).
  all: done.
Qed.

Lemma X14_witness :
  ∃ g w,
    sample_state "mysql" (artist_feed "FULL") false 1000 ∅
      [NoFault; Fail DbIntegrityError] = Ok (g, w) ∧
    let out := write_batch quote quote "artist_x_tmp" false false
                 [[Some "1"; Some "17"; Some "h"; None]] (g, w) in
    out.1 = Ok tt ∧ lastRecordIngested out.2.1 = latestRecordNum (parser g).
Proof.
  assert (∃ g w,
    sample_state "mysql" (artist_feed "FULL") false 1000 ∅
      [NoFault; Fail DbIntegrityError] = Ok (g, w) ∧
    isPostgresql (names g) || isMysql (names g) = true ∧
    escape_loop quote quote (isMysql (names g)) (primaryKeyIndexes (parser g)) ∅
      [[Some "1"; Some "17"; Some "h"; None]] [] = Ok [["'1'"; "'17'"; "'h'"; "NULL"]] ∧
    faults w = replicate (if isPostgresql (names g) then 2 else 1)%nat NoFault
               ++ Fail DbIntegrityError :: [])
    as (g & w & Hs & Hd & He & Hf).
  { eexists _, _. split; [vm_compute; reflexivity|]. split; [reflexivity|].
    split; [vm_compute; reflexivity|]. reflexivity. }
  exists g, w. split; [exact Hs|].
  exact (X14_batch_error_policy quote quote "artist_x_tmp" false false _ g w _
           DbIntegrityError [] Hd He Hf).
Defined.

(** X15. Resuming needs a stream that can seek.  On the stream the parser
    really opens, the pipe of the decompressor, [_populateTable] with a
    positive record number raises [OSError] before it does anything, and
    so does [ingestFullResume]: no backend call is made, no statement is
    submitted, no table changes, and the job is not marked as aborted. *)
Theorem X15_resume_needs_seekable_stream literal mogrify tn k inc skip g w :
  seekable (eFile (parser g)) = false →
  0 < k →
  _populateTable literal mogrify tn k inc skip (g, w) = (Raise OSError, (g, w)) ∧
  ∃ g' w',
    ingestFullResume literal mogrify k skip (g, w) = (Raise OSError, (g', w')) ∧
    tables w' = tables w ∧ faults w' = faults w ∧ submitted w' = submitted w ∧
    parser g' = parser g ∧ lastRecordIngested g' = k - 1 ∧
    didAbort g' = didAbort g ∧ abortTime g' = abortTime g.
Proof.
  intros Hs Hk.
  assert (Hpop : ∀ tn inc g1 w1, parser g1 = parser g →
            _populateTable literal mogrify tn k inc skip (g1, w1) = (Raise OSError, (g1, w1))).
  { intros tn' inc' g1 w1 Hp. unfold _populateTable.
    rewrite (bind_run _ _ _ _ _ (self_run (g1, w1))). cbn [fst].
    rewrite Hp, seekToRecord_pipe; done. }
  split; [by apply Hpop|].
  destruct w as [ts fl ck yr sub lg].
  unfold ingestFullResume.
  rewrite (bind_run _ _ _ _ _ (self_run _)). cbn [fst].
  unfold bind at 1, log at 1, update_world at 1. cbn [fst snd].
  unfold bind at 1, update at 1. cbn [fst snd].
  unfold bind at 1, now at 1, bind at 1, world at 1. cbn [fst snd].
  unfold bind at 1, update_world at 1, ret at 1. cbn [fst snd].
  unfold bind at 1, update at 1. cbn [fst snd].
  unfold bind at 1, try_except, bind at 1.
  rewrite Hpop by done. cbn.
  eexists _, _. split; [reflexivity|]. done.
Qed.

Lemma X15_witness :
  ∃ g w,
    sample_state "mysql" (artist_feed "FULL") false 1000 ∅ [] = Ok (g, w) ∧
    _populateTable quote quote "artist_x_tmp" 2 false false (g, w) = (Raise OSError, (g, w)).
Proof.
  assert (∃ g w,
    sample_state "mysql" (artist_feed "FULL") false 1000 ∅ [] = Ok (g, w) ∧
    seekable (eFile (parser g)) = false) as (g & w & Hs & Hp).
  { eexists _, _. split; [vm_compute; reflexivity|reflexivity]. }
  exists g, w. split; [exact Hs|].
  apply (X15_resume_needs_seekable_stream quote quote "artist_x_tmp" 2 false false g w Hp).
  lia.
Defined.

(** X16. The swap on MySQL, where every statement takes effect at once.
    Let every backend call of [_renameAndDrop] go through except,
    possibly, the renaming of the staging table.
    - On a first load (no live table yet): when the renaming goes
      through, the staging table ends under the live name and nothing is
      left under the staging or the old name; when it fails with a
      driver [Error], the error is logged and swallowed:
      [_renameAndDrop] returns normally, there is still no live table,
      and the staging table is where it was.
    - With a live table: when the renaming fails with a driver [Error],
      or because the staging table is not there, the old table is
      renamed back: the original live table is again under the live
      name, nothing is left under the old name, every other table is as
      it was, and the failure is logged; when the renaming goes through,
      the staging table is under the live name and the old table is
      dropped. *)
Theorem X16_swap_on_mysql g w source target :
  isPostgresql (names g) = false →
  Py.truthy target = true →
  source ≠ target →
  source ≠ target +:+ "_old" →
  let reverted live w' :=
    _renameAndDrop source target (g, w) = (Ok tt, (g, w')) ∧
    tables w' !! target = Some live ∧
    tables w' !! (target +:+ "_old") = None ∧
    (∀ x, x ≠ target +:+ "_old" → tables w' !! x = tables w !! x) ∧
    (ERROR, "Could not rename tmp table; reverting to original table (if it exists).")
      ∈ logged w' in
  (∀ staging,
     tables w !! target = None → tables w !! source = Some staging →
     (∀ fs, faults w = replicate 5 NoFault ++ fs →
        ∃ w', _renameAndDrop source target (g, w) = (Ok tt, (g, w')) ∧
              tables w' !! target = Some staging ∧
              tables w' !! source = None ∧
              tables w' !! (target +:+ "_old") = None ∧
              logged w' = logged w) ∧
     (∀ k fs, k ≠ DbWarning →
        faults w = replicate 3 NoFault ++ Fail k :: replicate 2 NoFault ++ fs →
        ∃ w', _renameAndDrop source target (g, w) = (Ok tt, (g, w')) ∧
              tables w' !! target = None ∧
              tables w' !! source = Some staging ∧
              tables w' !! (target +:+ "_old") = None ∧
              (ERROR, "Could not rename tmp table; reverting to original table (if it exists).")
                ∈ logged w')) ∧
  (∀ live,
     tables w !! target = Some live →
     (∀ k fs, k ≠ DbWarning →
        faults w = replicate 4 NoFault ++ Fail k :: replicate 3 NoFault ++ fs →
        ∃ w', reverted live w') ∧
     (∀ fs, tables w !! source = None → faults w = replicate 8 NoFault ++ fs →
        ∃ w', reverted live w') ∧
     (∀ staging fs,
        tables w !! source = Some staging → faults w = replicate 6 NoFault ++ fs →
        ∃ w', _renameAndDrop source target (g, w) = (Ok tt, (g, w')) ∧
              tables w' !! target = Some staging ∧
              tables w' !! (target +:+ "_old") = None ∧
              tables w' !! source = None)).
Proof.
  intros Hpg Htr Hst Hso reverted.
  pose proof (append_old_ne target) as Hne.
  assert (Hne' : target ≠ target +:+ "_old") by done.
  assert (Hts : target ≠ source) by done.
  assert (Hos : target +:+ "_old" ≠ source) by done.
  destruct w as [ts fl ck yr sub lg].
  subst reverted. cbn [faults tables logged].
  unfold _renameAndDrop.
  split.
  - intros staging Hlive Hsrc. split.
    + intros fs ->. cbn [replicate app].
      repeat (run; maps; rewrite ?Hpg, ?Htr, ?Hlive, ?Hsrc, ?truthy_old).
      eexists; split; [reflexivity|]; run; by maps.
    + intros k fs Hk ->. cbn [replicate app].
      repeat (run; maps; rewrite ?Hpg, ?Htr, ?Hlive, ?Hsrc, ?truthy_old).
      destruct k; [done| |];
        repeat (run; maps; rewrite ?Hpg, ?Htr, ?Hlive, ?Hsrc, ?truthy_old).
      all: eexists; split; [reflexivity|]; run; maps.
      all: split; [done|]; split; [done|]; split; [done|].
      all: rewrite elem_of_app; right; by apply list_elem_of_singleton.
  - intros live Hlive. split; [|split].
    + intros k fs Hk ->. cbn [replicate app].
      repeat (run; maps; rewrite ?Hpg, ?Htr, ?Hlive, ?truthy_old).
      destruct k; [done| |]; repeat (run; maps; rewrite ?Hpg, ?Htr, ?Hlive, ?truthy_old).
      all: eexists; split; [reflexivity|]; run; maps.
      all: split; [done|]; split; [done|]; split;
        [intros x Hx; destruct (decide (x = target)) as [->|]; by maps
        |rewrite elem_of_app; right; by apply list_elem_of_singleton].
    + intros fs Hsrc ->. cbn [replicate app].
      repeat (run; maps; rewrite ?Hpg, ?Htr, ?Hlive, ?Hsrc, ?truthy_old).
      eexists; split; [reflexivity|]; run; maps.
      split; [done|]; split; [done|]; split;
        [intros x Hx; destruct (decide (x = target)) as [->|]; by maps
        |rewrite elem_of_app; right; by apply list_elem_of_singleton].
    + intros staging fs Hsrc ->. cbn [replicate app].
      repeat (run; maps; rewrite ?Hpg, ?Htr, ?Hlive, ?Hsrc, ?truthy_old).
      eexists; split; [reflexivity|]; run; by maps.
Qed.

(** A first load whose renaming is refused, and a swap against a live
    table whose renaming is refused. *)
Lemma X16_witness :
  ∃ g w w' w2 w2',
    sample_state "mysql" (artist_feed "FULL") false 1000 (<["artist_x_tmp" := live4]> ∅)
      (replicate 3 NoFault ++ Fail DbFatal :: replicate 2 NoFault ++ []) = Ok (g, w) ∧
    _renameAndDrop "artist_x_tmp" "artist_x" (g, w) = (Ok tt, (g, w')) ∧
    tables w' !! "artist_x" = None ∧
    tables w' !! "artist_x_tmp" = Some live4 ∧
    sample_state "mysql" (artist_feed "FULL") false 1000
      (<["artist_x" := live4]> (<["artist_x_tmp" := live3]> ∅))
      (replicate 4 NoFault ++ Fail DbFatal :: replicate 3 NoFault ++ []) = Ok (g, w2) ∧
    _renameAndDrop "artist_x_tmp" "artist_x" (g, w2) = (Ok tt, (g, w2')) ∧
    tables w2' !! "artist_x" = Some live4 ∧
    tables w2' !! "artist_x_tmp" = Some live3 ∧
    tables w2' !! ("artist_x" +:+ "_old") = None.
Proof.
  assert (∃ g w w2,
    sample_state "mysql" (artist_feed "FULL") false 1000 (<["artist_x_tmp" := live4]> ∅)
      (replicate 3 NoFault ++ Fail DbFatal :: replicate 2 NoFault ++ []) = Ok (g, w) ∧
    isPostgresql (names g) = false ∧
    tables w !! "artist_x" = None ∧ tables w !! "artist_x_tmp" = Some live4 ∧
    faults w = replicate 3 NoFault ++ Fail DbFatal :: replicate 2 NoFault ++ [] ∧
    sample_state "mysql" (artist_feed "FULL") false 1000
      (<["artist_x" := live4]> (<["artist_x_tmp" := live3]> ∅))
      (replicate 4 NoFault ++ Fail DbFatal :: replicate 3 NoFault ++ []) = Ok (g, w2) ∧
    tables w2 !! "artist_x" = Some live4 ∧ tables w2 !! "artist_x_tmp" = Some live3 ∧
    faults w2 = replicate 4 NoFault ++ Fail DbFatal :: replicate 3 NoFault ++ [])
    as (g & w & w2 & Hs & Hpg & Hl & Hsrc & Hf & Hs2 & Hl2 & Hsrc2 & Hf2).
  { eexists _, _, _. split; [vm_compute; reflexivity|]. split; [reflexivity|].
    split; [vm_compute; reflexivity|]. split; [vm_compute; reflexivity|].
    split; [reflexivity|]. split; [vm_compute; reflexivity|].
    split; [vm_compute; reflexivity|]. split; [vm_compute; reflexivity|]. reflexivity. }
  destruct (X16_swap_on_mysql g w "artist_x_tmp" "artist_x" Hpg)
    as [H _]; [reflexivity|done|done|].
  destruct (H live4 Hl Hsrc) as [_ H'].
  destruct (H' DbFatal [] ltac:(done) Hf) as (w' & H1 & H2 & H3 & _).
  destruct (X16_swap_on_mysql g w2 "artist_x_tmp" "artist_x" Hpg)
    as [_ G]; [reflexivity|done|done|].
  destruct (G live4 Hl2) as [G' _].
  destruct (G' DbFatal [] ltac:(done) Hf2) as (w2' & G1 & G2 & G3 & G4 & _).
  exists g, w, w', w2, w2'. split; [exact Hs|]. split; [exact H1|]. split; [exact H2|].
  split; [exact H3|]. split; [exact Hs2|]. split; [exact G1|]. split; [exact G2|].
  split; [|exact G3]. rewrite G4 by done. exact Hsrc2.
Defined.

(** X17. [_createTable] replaces whatever is under the name.  When its
    backend calls go through, the table under [tableName] afterwards is a
    new, empty table with one column for every pair of a column name and a
    declared type, constrained by the primary key when there is one; a
    table that was there before is dropped.  No other table changes. *)
Theorem X17_createTable_replaces tn g w :
  calm 7 w →
  let cols := zip (columnNames (parser g)) (dataTypes (parser g)) in
  ∃ w', _createTable tn (g, w) = (Ok tt, (g, w')) ∧
        tables w' !! tn
        = Some (match primaryKey (parser g) with
                | [] => NewTable cols
                | pk => Constrained (NewTable cols) pk
                end) ∧
        ∀ x, x ≠ tn → tables w' !! x = tables w !! x.
Proof.
  intros Hcalm cols. unfold calm in Hcalm.
  destruct w as [ts fl ck yr sub lg]. cbn [tables faults] in *.
  unfold _createTable, _applyPrimaryKeyConstraints.
  destruct fl as [|f1 [|f2 [|f3 [|f4 [|f5 [|f6 [|f7 fl]]]]]]]; cbn [take] in Hcalm;
    repeat match goal with
           | H : Forall _ (_ :: _) |- _ =>
               let Hx := fresh in apply Forall_cons in H as [Hx H]; cbv beta in Hx; subst
           end.
  all: destruct (isPostgresql (names g)) eqn:Hpg.
  all: destruct (primaryKey (parser g)) as [|k pk] eqn:Hpk.
  all: repeat (run; maps; rewrite ?Hpg, ?Hpk).
  all: eexists; (split; [reflexivity|]); run; maps.
  all: split; [reflexivity|].
  all: intros x Hx; by maps.
Qed.

Lemma X17_witness :
  ∃ g w w',
    sample_state "mysql" (artist_feed "FULL") false 1000 (<["artist_x_tmp" := live3]> ∅) []
    = Ok (g, w) ∧
    _createTable "artist_x_tmp" (g, w) = (Ok tt, (g, w')) ∧
    tables w' !! "artist_x_tmp" = Some (Constrained live4 ["artist_id"]).
Proof.
  assert (∃ g w,
    sample_state "mysql" (artist_feed "FULL") false 1000 (<["artist_x_tmp" := live3]> ∅) []
    = Ok (g, w) ∧ calm 7 w ∧
    match primaryKey (parser g) with
    | [] => NewTable (zip (columnNames (parser g)) (dataTypes (parser g)))
    | pk => Constrained (NewTable (zip (columnNames (parser g)) (dataTypes (parser g)))) pk
    end = Constrained live4 ["artist_id"]) as (g & w & Hs & Hc & Ht).
  { eexists _, _. split; [vm_compute; reflexivity|]. split; [by constructor|].
    vm_compute. reflexivity. }
  destruct (X17_createTable_replaces "artist_x_tmp" g w Hc) as (w' & H1 & H2 & _).
  exists g, w, w'. split; [exact Hs|]. split; [exact H1|]. rewrite H2. f_equal. exact Ht.
Defined.

(** X18. The table names of an ingester never collide.  The names that
    [Ingester.__init__] derives from the file name (the live table, the
    staging table of a full ingest, the staging and the union table of an
    incremental ingest) and the name under which the swap parks the live
    table are five different names, so no step of an ingest overwrites the
    table of another step. *)
Theorem X18_table_names_are_distinct path tablePrefix db type ns :
  new_names path tablePrefix db type = Ok ns →
  tmpTableName ns = tableName ns +:+ "_tmp" ∧
  incTableName ns = tableName ns +:+ "_inc" ∧
  unionTableName ns = tableName ns +:+ "_un" ∧
  NoDup [tableName ns; tmpTableName ns; incTableName ns; unionTableName ns;
         tableName ns +:+ "_old"].
Proof.
  unfold new_names. intros H.
  destruct (if Py.contains _ "." then _ else _) as [sp|]; [|done].
  cbn [mbind result_bind] in H. inversion H; subst; clear H.
  cbn [tableName tmpTableName incTableName unionTableName].
  set (name := sp.2 +:+ _).
  do 3 (split; [done|]).
  repeat (apply NoDup_cons; split).
  all: rewrite ?elem_of_cons, ?elem_of_nil.
  all: try apply NoDup_nil_2.
  all: intros H; repeat destruct H as [H|H]; try done.
  all: first [ by apply append_inj_l in H
             | symmetry in H; by apply append_ne in H
             | by apply append_ne in H ].
Qed.

Lemma X18_witness :
  ∃ ns, new_names "/epf/artist-x.tbz" None "epf" "mysql" = Ok ns ∧
        tableName ns = "artist_x" ∧
        NoDup [tableName ns; tmpTableName ns; incTableName ns; unionTableName ns;
               tableName ns +:+ "_old"].
Proof.
  eexists. split; [vm_compute; reflexivity|]. split; [reflexivity|].
  eapply (X18_table_names_are_distinct "/epf/artist-x.tbz" None "epf" "mysql").
  vm_compute. reflexivity.
Defined.

(** X19. The null policy of [nextRecord].  In a record returned for the
    row just read, a field is [None] exactly when the field of the row at
    that position is the empty string, the position is below the number of
    column names, and it is not the position of a primary-key column: empty
    key fields stay empty strings, and neither the date nor the number
    clean-up makes or removes a [None]. *)
Theorem X19_null_policy year p rs f' fields rec p' :
  nextRowString (recordDelim p) true (eFile p) = (Some rs, f') →
  splitRow (recordDelim p) (fieldDelim p) rs None = Ok fields →
  nextRecord year p = (Ok (Some rec), p') →
  latestRecordNum p' = latestRecordNum p + 1 →
  ∀ i, rec !! i = Some None ↔
       fields !! i = Some "" ∧ (i < length (columnNames p))%nat ∧ i ∉ primaryKeyIndexes p.
Proof.
  intros Hrow Hs H Hn.
  pose proof (nextRecord_total year p) as Ht. rewrite H in Ht.
  cbn [nextRecord_fuel] in Ht. rewrite Hrow, (nextRowString_truthy _ _ _ _ _ Hrow) in Ht.
  destruct (decode year _ rs) as [[rec'|]|e] eqn:Ed; [| |done].
  - inversion Ht; subst. by eapply (decode_none year _ rs fields).
  - apply nextRecord_fuel_spec in Ht as (_ & _ & _ & _ & Hlt & _). cbn in Hlt. lia.
Qed.

Lemma X19_witness :
  ∃ p p',
    sample_parser
      (feed ([column_row; key_row; types_row; mode_row "FULL"]
             ++ replicate 7 ("#c" +:+ EOR) ++ [row ["1"; ""; ""; ""]])) false = Ok p ∧
    nextRecord 2026 p = (Ok (Some [Some "1"; Some ""; None; None]), p') ∧
    ∀ i, [Some "1"; Some ""; None; None] !! i = Some None ↔
         ["1"; ""; ""; ""] !! i = Some "" ∧ (i < length (columnNames p))%nat ∧
         i ∉ primaryKeyIndexes p.
Proof.
  assert (∃ p p',
    sample_parser
      (feed ([column_row; key_row; types_row; mode_row "FULL"]
             ++ replicate 7 ("#c" +:+ EOR) ++ [row ["1"; ""; ""; ""]])) false = Ok p ∧
    nextRecord 2026 p = (Ok (Some [Some "1"; Some ""; None; None]), p') ∧
    nextRowString (recordDelim p) true (eFile p) = (Some (row ["1"; ""; ""; ""]), eFile p') ∧
    splitRow (recordDelim p) (fieldDelim p) (row ["1"; ""; ""; ""]) None
    = Ok ["1"; ""; ""; ""] ∧
    latestRecordNum p' = latestRecordNum p + 1)
    as (p & p' & Hp & Hn & Hr & Hs & Hc).
  { eexists _, _. split; [vm_compute; reflexivity|]. split; [vm_compute; reflexivity|].
    split; [vm_compute; reflexivity|]. split; [vm_compute; reflexivity|]. reflexivity. }
  exists p, p'. split; [exact Hp|]. split; [exact Hn|].
  exact (X19_null_policy 2026 p _ _ _ _ p' Hr Hs Hn Hc).
Defined.

(** X20. The shape of a cleaned date.  Whatever [nextRecord] makes of a
    non-empty date field, the result holds no dash and at most 19
    characters (the time-zone part is cut off), unless it is a bare
    four-character value, which is padded with [-01-01]. *)
Theorem X20_cleaned_date_shape year v r :
  massage_date year v = Ok r →
  ∃ y, has_char "-" y = false ∧ (String.length y ≤ 19)%nat ∧
       r = if (String.length y =? 4)%nat then y +:+ "-01-01" else y.
Proof.
  unfold massage_date. intros H.
  destruct (if (3 <? _)%nat then _ else _) as [v1|]; [|done]. cbn [mbind result_bind] in H.
  inversion H; subst; clear H.
  exists (Py.replace (Py.take 19 v1) "-" " "). unfold Py.replace.
  destruct (replace_char_go "-" " " (Py.take 19 v1) "") as [H1 H2]; [done|].
  cbv zeta in H1, H2.
  split; [exact H1|]. split; [rewrite H2; apply length_take|reflexivity].
Qed.

Lemma X20_witness :
  massage_date 2026 "2005-09-06-00:00:00-Etc/GMT" = Ok "2005 09 06 00:00:00" ∧
  ∃ y, has_char "-" y = false ∧ (String.length y ≤ 19)%nat ∧
       "2005 09 06 00:00:00" = if (String.length y =? 4)%nat then y +:+ "-01-01" else y.
Proof.
  split; [vm_compute; reflexivity|].
  apply (X20_cleaned_date_shape 2026 "2005-09-06-00:00:00-Etc/GMT"). vm_compute. reflexivity.
Defined.

(** X21. The exceptions of [Parser.__init__].  On a stream without a
    first row (an empty file, or one that starts with archive padding)
    construction fails with [AttributeError].  Its other failures are the
    [SubstringNotFoundException] for a first row without the comment
    prefix and [ValueError] (a primary-key name that is no column name, or
    an empty delimiter); it raises nothing else. *)
Theorem X21_init_exceptions content can_seek size types rd fd :
  (first_row content rd = None →
   init content can_seek size types rd fd = Raise AttributeError) ∧
  ∀ e, init content can_seek size types rd fd = Raise e →
       (e = AttributeError ∧ first_row content rd = None) ∨
       (∃ row, e = SubstringNotFoundException commentChar row ∧
               first_row content rd = Some row ∧
               Py.startswith row commentChar = false) ∨
       e = ValueError.
Proof.
  rewrite <- (first_row_eq content can_seek rd). unfold init.
  destruct (nextRowString rd false (open_stream content can_seek)) as [line1 f1].
  cbn [fst]. split.
  { by intros ->. }
  intros e H. destruct line1 as [l|]; [|inversion H; by left].
  destruct (splitRow rd fd l (Some commentChar)) as [cols|e'] eqn:Ec.
  - unfold mbind, result_bind in H.
    destruct (grabRows 10 rd f1 []) as [rows f2].
    destruct (headerRows rd fd _ rows) as [[[pk dts] ex]|e'] eqn:Eh.
    + destruct (indexes_of cols pk) as [pkIdx|e'] eqn:Ei; [done|].
      apply indexes_of_raises in Ei. right. right. congruence.
    + apply headerRows_raises in Eh. right. right. congruence.
  - unfold mbind, result_bind in H. inversion H; subst.
    apply splitRow_raises in Ec as [(pre & Hp & Hs & He)|[? _]]; [|by right; right].
    inversion Hp; subst. right. left. by exists l.
Qed.

Lemma X21_witness :
  first_row "" EOR = None ∧
  init "" false 0 mysql_typeMap EOR SOH = Raise AttributeError.
Proof.
  split; [reflexivity|].
  apply (proj1 (X21_init_exceptions "" false 0 mysql_typeMap EOR SOH)). reflexivity.
Defined.

(** X22. [nextRecordDict] keys the record by column name.  When no column
    name is repeated, the dictionary returned maps the name of every
    column to the field of the record at the column's position, holds no
    entry for a column the record is too short for, and has no other
    keys.  The record is the one [nextRecord] returns, and the parser is
    left as [nextRecord] leaves it. *)
Theorem X22_nextRecordDict_lookup year p d p' :
  NoDup (columnNames p) →
  nextRecordDict year p = (Ok (Some d), p') →
  ∃ rec, nextRecord year p = (Ok (Some rec), p') ∧
         (∀ j c, columnNames p !! j = Some c → d !! c = rec !! j) ∧
         (∀ c, c ∉ columnNames p → d !! c = None).
Proof.
  intros Hnd H. unfold nextRecordDict in H.
  destruct (nextRecord year p) as [r p1] eqn:E.
  pose proof (nextRecord_spec _ _ _ _ E) as (Hf & _).
  apply (f_equal columnNames) in Hf. cbn in Hf.
  destruct r as [[[|v rec]|]|e]; try done.
  inversion H; subst. exists (v :: rec). split; [done|]. rewrite Hf. split.
  - intros j c Hj. rewrite (dict_zip_lookup _ _ ∅ j c Hnd Hj).
    destruct ((v :: rec) !! j); [done|]. apply lookup_empty.
  - intros c Hc. rewrite dict_zip_absent by done. apply lookup_empty.
Qed.

Lemma X22_witness :
  ∃ p d p', sample_parser (artist_feed "FULL") false = Ok p ∧
    nextRecordDict 2026 p = (Ok (Some d), p') ∧
    ∃ rec, nextRecord 2026 p = (Ok (Some rec), p') ∧
           (∀ j c, columnNames p !! j = Some c → d !! c = rec !! j) ∧
           (∀ c, c ∉ columnNames p → d !! c = None).
Proof.
  assert (∃ p d p', sample_parser (artist_feed "FULL") false = Ok p ∧
    nextRecordDict 2026 p = (Ok (Some d), p') ∧
    NoDup (columnNames p)) as (p & d & p' & Hp & Hd & Hnd).
  { eexists _, _, _. split; [vm_compute; reflexivity|]. split; [vm_compute; reflexivity|].
    apply (bool_decide_unpack _). vm_compute. reflexivity. }
  exists p, d, p'. do 2 (split; [assumption|]).
  exact (X22_nextRecordDict_lookup 2026 p d p' Hnd Hd).
Defined.

(** X23. Building a table touches no other table.  However they end,
    [_createTable] and [_populateTable] leave every table but the one they
    are called for as it was: while a full ingest builds and fills its
    staging table, the live table stays what it was. *)
Theorem X23_building_a_table_touches_no_other literal mogrify tn fromRecord inc skip st r st' :
  (_createTable tn st = (r, st') ∨
   _populateTable literal mogrify tn fromRecord inc skip st = (r, st')) →
  ∀ x, x ≠ tn → tables st'.2 !! x = tables st.2 !! x.
Proof.
  intros H x Hx.
  assert (Hin : tn ∈ [tn]) by by left.
  assert (Hout : x ∉ [tn]) by by intros ?%list_elem_of_singleton.
  destruct H as [H|H].
  - apply (within_createTable [tn] tn Hin) in H. by apply H.
  - apply (within_populateTable [tn] literal mogrify tn _ _ _ Hin) in H. by apply H.
Qed.

Lemma X23_witness :
  ∃ st st',
    sample_state "mysql" (artist_feed "FULL") false 1000 (<["artist_x" := live4]> ∅) [] = Ok st ∧
    _createTable "artist_x_tmp" st = (Ok tt, st') ∧
    tables st'.2 !! "artist_x" = tables st.2 !! "artist_x".
Proof.
  assert (∃ st st',
    sample_state "mysql" (artist_feed "FULL") false 1000 (<["artist_x" := live4]> ∅) [] = Ok st ∧
    _createTable "artist_x_tmp" st = (Ok tt, st')) as (st & st' & Hs & Hc).
  { eexists _, _. split; [vm_compute; reflexivity|]. vm_compute. reflexivity. }
  exists st, st'. split; [exact Hs|]. split; [exact Hc|].
  apply (X23_building_a_table_touches_no_other quote quote "artist_x_tmp" 0 false false
           st (Ok tt) st'); [by left|done].
Defined.

(** X24. A row too short for the key stops the batch.  [_escapeRecords],
    given a connection, raises exactly when some record of the batch ends
    before one of the primary-key indexes, and what it then raises is
    [IndexError], which is not a driver [Error]. *)
Theorem X24_short_row_stops_the_batch literal mogrify recs st :
  let pk := primaryKeyIndexes (parser st.1) in
  ((∃ r i, r ∈ recs ∧ i ∈ pk ∧ (length r ≤ i)%nat) ↔
   _escapeRecords literal mogrify recs true st = (Raise IndexError, st)) ∧
  (∀ e st', _escapeRecords literal mogrify recs true st = (Raise e, st') →
            e = IndexError ∧ is_db_Error e = false).
Proof.
  intros pk. unfold _escapeRecords.
  rewrite (bind_run _ _ _ _ _ (self_run st)). unfold bind, ret. fold pk.
  pose proof (escape_loop_raises literal mogrify (isMysql (names st.1)) pk recs ∅ []) as H.
  destruct (escape_loop _ _ _ pk ∅ recs []) as [out|e].
  - split.
    + split; [|done]. intros (r & i & Hr & Hi & Hle). specialize (H r Hr i Hi). lia.
    + intros e st' [=].
  - destruct H as [-> H]. split; [done|]. by intros e st' [= <- <-].
Qed.

Lemma X24_witness :
  ∃ st, sample_state "mysql" (artist_feed "FULL") false 1000 ∅ [] = Ok st ∧
        _escapeRecords quote quote [[Some "1"; Some "17"]; [Some "1"]] true st
        = (Raise IndexError, st).
Proof.
  assert (∃ st, sample_state "mysql" (artist_feed "FULL") false 1000 ∅ [] = Ok st ∧
                (1%nat ∈ primaryKeyIndexes (parser st.1))) as (st & Hs & Hk).
  { eexists. split; [vm_compute; reflexivity|]. by left. }
  exists st. split; [exact Hs|].
  apply (proj1 (X24_short_row_stops_the_batch quote quote _ st)).
  exists [Some "1"], 1%nat. split; [by right; left|]. split; [exact Hk|]. cbn. lia.
Defined.

(** X25. An ingest keeps to its own tables.  However it ends, a full, a
    resumed or an incremental ingest leaves every table of the store as it
    was, except the live table of the file, its staging tables ([_tmp],
    [_inc], [_un]) and the table under the [_old] name of the swap; and the
    names of the ingester never change. *)
Theorem X25_ingest_keeps_to_its_own_tables literal mogrify fromRecord skip st r st' :
  (ingestFull literal mogrify skip st = (r, st') ∨
   ingestFullResume literal mogrify fromRecord skip st = (r, st') ∨
   ingestIncremental literal mogrify fromRecord skip st = (r, st')) →
  names st'.1 = names st.1 ∧
  ∀ x, x ∉ own_tables (names st.1) → tables st'.2 !! x = tables st.2 !! x.
Proof.
  intros H.
  assert (Hr : only_tables (own_tables (names st.1)) st st' ∧ names st'.1 = names st.1).
  { destruct H as [H|[H|H]].
    - by eapply (named_ingestFull (names st.1) _ (λ x Hx, Hx) literal mogrify skip).
    - by eapply (named_ingestFullResume (names st.1) _ (λ x Hx, Hx) literal mogrify).
    - by eapply (named_ingestIncremental (names st.1) _ (λ x Hx, Hx) literal mogrify). }
  destruct Hr as [Hr Hn]. split; [done|]. intros x Hx. by apply Hr.
Qed.

Lemma X25_witness :
  ∃ st st',
    sample_state "mysql" (artist_feed "FULL") false 1000
      (<["other" := live3]> (<["artist_x" := live4]> ∅)) [] = Ok st ∧
    ingestFull quote quote false st = (Ok tt, st') ∧
    tables st'.2 !! "other" = tables st.2 !! "other".
Proof.
  assert (∃ st st',
    sample_state "mysql" (artist_feed "FULL") false 1000
      (<["other" := live3]> (<["artist_x" := live4]> ∅)) [] = Ok st ∧
    ingestFull quote quote false st = (Ok tt, st') ∧
    "other" ∉ own_tables (names st.1)) as (st & st' & Hs & Hr & Ho).
  { eexists _, _. split; [vm_compute; reflexivity|]. split; [vm_compute; reflexivity|].
    apply (bool_decide_unpack _). vm_compute. reflexivity. }
  exists st, st'. split; [exact Hs|]. split; [exact Hr|].
  apply (X25_ingest_keeps_to_its_own_tables quote quote 0 false st (Ok tt) st');
    [by left|exact Ho].
Defined.
